(** * A Wordle guesser: feedback scoring, candidate filtering and guess selection

    Shallow embedding of the guesser classes of the repository
    ([guesser_submitted.py], [attempts/vitto.py], [guesser_general.py])
    and the properties of their feedback scorer, candidate filter, guess
    selection and end-game helpers.

    Conventions of the embedding:
    - a Python [str] is a [list ascii]; a one-character string is an [ascii];
    - a Python [int] is a [Z]; a length or an index is a [nat];
    - a raised exception ([IndexError], [KeyError], [ValueError],
      [TypeError]) is the result [None] of an [option];
    - a [dict] or [Counter] whose iteration order is never observed is a
      [gmap]; one whose order is observed is an insertion-ordered
      association list ([odict]);
    - a [for] loop is [for_each] over the iterated sequence, threading the
      variables the body assigns. *)

From Stdlib Require Import ZArith Ascii String.
From Stdlib Require Reals.
From stdpp Require Import gmap strings list fin_maps.

Local Open Scope Z_scope.

(** ** Python strings, loops and counters *)

(** The string literal ["spade"] as a Python [str]. *)
Definition str_of (s : string) : list ascii := list_ascii_of_string s.

Definition plus_sign : ascii := "+"%char.
Definition minus_sign : ascii := "-"%char.

(** [s.count(c)] for a one-character [c]. *)
Definition str_count (c : ascii) (s : list ascii) : Z :=
  Z.of_nat (length (filter (λ x, x = c) s)).

(** [for x in l: body] where the body may raise. *)
Fixpoint for_each {A S : Type} (body : S → A → option S) (l : list A) (s : S)
  : option S :=
  match l with
  | [] => Some s
  | x :: l' => s' ← body s x; for_each body l' s'
  end.

(** [enumerate(l)], counting from [i]. *)
Fixpoint enumerate_from {A : Type} (i : nat) (l : list A) : list (nat * A) :=
  match l with
  | [] => []
  | x :: l' => (i, x) :: enumerate_from (S i) l'
  end.

Definition enumerate {A : Type} (l : list A) : list (nat * A) :=
  enumerate_from 0 l.

(** [collections.Counter] over characters, and the plain [dict] that
    [vitto.py] uses for the same purpose. *)
Module Counter.
(** [counts[c]]: a missing key reads as 0. *)
Definition get (m : gmap ascii Z) (c : ascii) : Z := default 0 (m !! c).
(** [counts[c] += 1], also [d[c] = d.get(c, 0) + 1]. *)
Definition incr (m : gmap ascii Z) (c : ascii) : gmap ascii Z :=
  <[c := get m c + 1]> m.
(** [counts[c] -= 1]. *)
Definition decr (m : gmap ascii Z) (c : ascii) : gmap ascii Z :=
  <[c := get m c - 1]> m.
(** [Counter(s)]. *)
Definition of_str (s : list ascii) : gmap ascii Z := foldl incr ∅ s.
End Counter.

(** A [dict] whose iteration order is observed: the keys in the order of
    their first insertion. *)
Module odict.
Section Defs.
Context {K V : Type} `{EqDecision K}.

(** [d.get(k)]. *)
Fixpoint get (k : K) (d : list (K * V)) : option V :=
  match d with
  | [] => None
  | (k', v) :: d' => if decide (k = k') then Some v else get k d'
  end.

(** [d.get(k, dflt)]. *)
Definition get_default (k : K) (dflt : V) (d : list (K * V)) : V :=
  default dflt (get k d).

(** [d[k] = v]: an existing key keeps its place. *)
Fixpoint set (k : K) (v : V) (d : list (K * V)) : list (K * V) :=
  match d with
  | [] => [(k, v)]
  | (k', v') :: d' =>
      if decide (k = k') then (k, v) :: d' else (k', v') :: set k v d'
  end.

Definition keys (d : list (K * V)) : list K := d.*1.
Definition values (d : list (K * V)) : list V := d.*2.
End Defs.
End odict.

(** Python's [float] arithmetic as far as the guesser uses it. The
    development is parametric in it: no property below depends on how
    floating-point operations round. *)
Record FloatOps := {
  float : Type;
  of_int : Z → float;               (* an [int] operand read as a [float] *)
  truediv : Z → Z → float;          (* [a / b] on [int]s, [b] non-zero *)
  fmul : float → float → float;
  fsub : float → float → float;
  log2 : float → float;             (* [math.log2] *)
  fgt : float → float → bool;       (* [>] *)
}.

(** ** The feedback scorer of [guesser_submitted.py] *)

Module Submitted.

(** First loop of [get_matches]: [feedback] is a list of strings, one per
    position of the guess; [answer[i]] raises when the answer is shorter. *)
Definition first_pass_body (answer : list ascii)
    (st : list (list ascii) * gmap ascii Z) (il : nat * ascii)
  : option (list (list ascii) * gmap ascii Z) :=
  let '(feedback, counts) := st in
  let '(i, letter) := il in
  ai ← answer !! i;
  if decide (letter = ai)
  then Some (<[i := [letter]]> feedback, Counter.decr counts letter)
  else Some (<[i := [plus_sign]]> feedback, counts).

(** Second loop of [get_matches]. *)
Definition second_pass_body (answer : list ascii)
    (st : list (list ascii) * gmap ascii Z) (il : nat * ascii)
  : option (list (list ascii) * gmap ascii Z) :=
  let '(feedback, counts) := st in
  let '(i, letter) := il in
  cell ← feedback !! i;
  if bool_decide (cell = [plus_sign]) && bool_decide (letter ∈ answer)
     && bool_decide (0 < Counter.get counts letter)
  then Some (<[i := [minus_sign]]> feedback, Counter.decr counts letter)
  else Some (feedback, counts).

(** [get_matches(guess, answer)], without its memo table. *)
Definition get_matches (guess answer : list ascii) : option (list ascii) :=
  let counts := Counter.of_str answer in
  let feedback := replicate (length guess) [] in
  st ← for_each (first_pass_body answer) (enumerate guess) (feedback, counts);
  st ← for_each (second_pass_body answer) (enumerate guess) st;
  Some (concat st.1).

(** *** Memo tables

    [get_matches] and [pattern_distribution] are wrapped in
    [functools.lru_cache(maxsize=None)]: a table from the arguments to
    the value returned, kept by the function object across calls and
    across games. A call that raises stores nothing. *)
Record Memo := {
  matches_memo : gmap (list ascii * list ascii) (list ascii);
  distribution_memo :
    gmap (list ascii * list (list ascii)) (list (list ascii * Z));
}.

Definition no_memo : Memo :=
  {| matches_memo := ∅; distribution_memo := ∅ |}.

(** Code that reads and fills the memo tables and may raise. *)
Definition M (A : Type) : Type := Memo → option (A * Memo).

Definition ret {A : Type} (x : A) : M A := λ memo, Some (x, memo).
Definition bind {A B : Type} (c : M A) (k : A → M B) : M B :=
  λ memo, match c memo with
          | Some (x, memo') => k x memo'
          | None => None
          end.
(** A computation that does not touch the tables. *)
Definition lift {A : Type} (o : option A) : M A :=
  λ memo, match o with Some x => Some (x, memo) | None => None end.

Notation "x ←← c ; k" := (bind c (λ x, k))
  (at level 20, c at level 100, k at level 200, right associativity,
   only parsing).

(** [for x in l: body] inside [M]. *)
Fixpoint for_eachM {A S : Type} (body : S → A → M S) (l : list A) (s : S)
  : M S :=
  match l with
  | [] => ret s
  | x :: l' => s' ←← body s x; for_eachM body l' s'
  end.

(** [self.get_matches(guess, answer)] through its memo table. *)
Definition get_matches_memo (guess answer : list ascii) : M (list ascii) :=
  λ memo,
    match matches_memo memo !! (guess, answer) with
    | Some fb => Some (fb, memo)
    | None =>
        fb ← get_matches guess answer;
        Some (fb, {| matches_memo := <[(guess, answer) := fb]> (matches_memo memo);
                     distribution_memo := distribution_memo memo |})
    end.

(** Body of [pattern_distribution]: [distribution] is a [dict], whose
    values are later read in insertion order. *)
Definition pattern_distribution_body (guess : list ascii)
    (candidates_tuple : list (list ascii)) : M (list (list ascii * Z)) :=
  for_eachM
    (λ distribution answer,
       pattern ←← get_matches_memo guess answer;
       ret (odict.set pattern (odict.get_default pattern 0 distribution + 1)
              distribution))
    candidates_tuple [].

(** [self.pattern_distribution(guess, candidates_tuple)] through its memo
    table. *)
Definition pattern_distribution (guess : list ascii)
    (candidates_tuple : list (list ascii)) : M (list (list ascii * Z)) :=
  λ memo,
    match distribution_memo memo !! (guess, candidates_tuple) with
    | Some d => Some (d, memo)
    | None =>
        match pattern_distribution_body guess candidates_tuple memo with
        | Some (d, memo') =>
            Some (d, {| matches_memo := matches_memo memo';
                        distribution_memo :=
                          <[(guess, candidates_tuple) := d]>
                            (distribution_memo memo') |})
        | None => None
        end
    end.

(** *** The guesser object *)

Record Guesser := {
  word_list : list (list ascii);
  _manual : bool;                   (* [manual == 'manual'] *)
  _tried : list (list ascii);
  candidates : list (list ascii);
  last_guess : option (list ascii);
  best_first_word : list ascii;     (* set once by [__init__] *)
  printed : list (list ascii);      (* lines sent to [console.print] *)
}.

(** [restart_game]. *)
Definition restart_game (self : Guesser) : Guesser :=
  {| word_list := word_list self; _manual := _manual self;
     _tried := []; candidates := word_list self; last_guess := None;
     best_first_word := best_first_word self; printed := printed self |}.

(** The filtering step of [get_guess]:
    [[word for word in self.candidates
      if self.get_matches(self.last_guess, word) == result]]. *)
Definition filter_candidates (last_guess result : list ascii)
    (candidates : list (list ascii)) : M (list (list ascii)) :=
  for_eachM
    (λ kept word,
       fb ←← get_matches_memo last_guess word;
       ret (if decide (fb = result) then kept ++ [word] else kept))
    candidates [].

(** The common end of every branch of [get_guess]:
    [self._tried.append(guess); self.console.print(guess);
     self.last_guess = guess; return guess]. *)
Definition emit (self : Guesser) (candidates' : list (list ascii))
    (guess : list ascii) : list ascii * Guesser :=
  (guess,
   {| word_list := word_list self; _manual := _manual self;
      _tried := _tried self ++ [guess]; candidates := candidates';
      last_guess := Some guess;
      best_first_word := best_first_word self;
      printed := printed self ++ [guess] |}).

(** *** The opening word *)

(** The counting loop of [best_first_guess] for one word:
    [pos_counters[i][letter] += 1]. There are five counters, so that a
    sixth letter raises [IndexError]; a [defaultdict] keeps its keys in
    the order of their first use. *)
Definition count_positions (pos_counters : list (list (ascii * Z)))
    (word : list ascii) : option (list (list (ascii * Z))) :=
  for_each
    (λ pos_counters '(i, letter),
       counter ← pos_counters !! i;
       Some (<[i := odict.set letter (odict.get_default letter 0 counter + 1)
                      counter]> pos_counters))
    (enumerate word) pos_counters.

(** [sorted(counter.items(), key=lambda x: x[1], reverse=True)]: a
    stable sort, so entries with equal counts keep their order. *)
Fixpoint insert_sorted (x : ascii * Z) (l : list (ascii * Z))
  : list (ascii * Z) :=
  match l with
  | [] => [x]
  | y :: l' =>
      if bool_decide (x.2 < y.2) then y :: insert_sorted x l'
      else x :: y :: l'
  end.

(** [top_letters]: for each position, the two most frequent letters. *)
Definition top_letters (pos_counters : list (list (ascii * Z)))
  : list (list ascii) :=
  (λ counter, (take 2 (foldr insert_sorted [] counter)).*1) <$> pos_counters.

(** [itertools.product] of the lists [ls]: the last position varies
    fastest. *)
Fixpoint product {A : Type} (ls : list (list A)) : list (list A) :=
  match ls with
  | [] => [[]]
  | l :: ls' => x ← l; (cons x <$> product ls')
  end.

Definition known_good : list (list ascii) :=
  [str_of "saren"; str_of "ranes"; str_of "saret"; str_of "tares";
   str_of "earis"; str_of "saner"; str_of "lares"; str_of "aires";
   str_of "raise"; str_of "sarel"; str_of "sarie"; str_of "tales";
   str_of "crane"; str_of "stale"].

Definition limit : Z := 100.

(** The set [potential_words] that [best_first_guess] builds: the known
    good words and the first [limit - len(potential_words)] words of the
    product of the top letters (all of them when [next] raises
    [StopIteration] before). *)
Definition potential_words (candidates : list (list ascii))
  : option (gset (list ascii)) :=
  pos_counters ← for_each count_positions candidates (replicate 5 []);
  let top_letters := top_letters pos_counters in
  let potential_words : gset (list ascii) := list_to_set known_good in
  let combos := product top_letters in
  Some (foldl (λ potential_words word, {[word]} ∪ potential_words)
          potential_words
          (take (Z.to_nat (limit - Z.of_nat (size potential_words))) combos)).

(** Iterating a [set]: a run meets each element once, in an order that
    the set does not fix (for strings CPython derives it from the hash
    seed of the process). *)
Definition iteration_order (words : gset (list ascii))
    (order : list (list ascii)) : Prop :=
  NoDup order ∧ list_to_set order = words.

(** *** Entropy and selection *)

Section Ranking.
Variable fl : FloatOps.

(** The loop of [entropy] over [distribution.values()]; the division
    raises [ZeroDivisionError] on an empty candidate tuple. *)
Definition entropy_sum (total_weight : Z) (values : list Z)
  : option (float fl) :=
  for_each
    (λ entropy count,
       if decide (total_weight = 0) then None
       else let p := truediv fl count total_weight in
            Some (fsub fl entropy (fmul fl p (log2 fl p))))
    values (of_int fl 0).

(** [self.entropy(guess, candidates)]. *)
Definition entropy (guess : list ascii) (candidates : list (list ascii))
  : M (float fl) :=
  let total_weight := Z.of_nat (length candidates) in
  distribution ←← pattern_distribution guess candidates;
  lift (entropy_sum total_weight (odict.values distribution)).

(** The scan of the builtin [max(iterable, key=...)] after its first
    item: a later item replaces the current one only when its key is
    strictly greater. *)
Definition max_scan {A : Type} (key : A → M (float fl)) (l : list A)
    (maxitem : A) (maxval : float fl) : M A :=
  st ←← for_eachM
          (λ '(maxitem, maxval) item,
             val ←← key item;
             ret (if fgt fl val maxval then (item, val)
                  else (maxitem, maxval)))
          l (maxitem, maxval);
  ret st.1.

(** [max(l, key=key)]; raises [ValueError] on an empty sequence. *)
Definition py_max {A : Type} (key : A → M (float fl)) (l : list A) : M A :=
  match l with
  | [] => lift None
  | x :: l' => maxval ←← key x; max_scan key l' x maxval
  end.

(** The selection of [get_guess]:
    [max(candidates_to_consider, key=lambda candidate:
         self.entropy(candidate, candidates_tuple))]. *)
Definition select_best (candidates_to_consider : list (list ascii))
    (candidates_tuple : list (list ascii)) : M (list ascii) :=
  py_max (λ candidate, entropy candidate candidates_tuple)
    candidates_to_consider.

(** The loop [for word in potential_words] of [best_first_guess], on a
    run that meets the words of the set in the order [order];
    [best_word] starts as [None] and [best_entropy] as [-1]. *)
Definition best_word_scan (order : list (list ascii))
    (candidates_sample : list (list ascii)) : M (option (list ascii)) :=
  st ←← for_eachM
          (λ '(best_word, best_entropy) word,
             entropy ←← entropy word candidates_sample;
             ret (if fgt fl entropy best_entropy
                  then (Some word, entropy)
                  else (best_word, best_entropy)))
          order (None, of_int fl (-1));
  ret st.1.

(** [best_first_guess()], called by [__init__] when [self.candidates] is
    the word list: [out] is what a run may give, [None] for an exception
    and otherwise the word returned ([None] inside is Python's [None])
    with the tables left. The function builds the set [potential_words]
    itself, and the run iterates it in one of its iteration orders, which
    is no argument of the function. *)
Definition best_first_guess (candidates : list (list ascii)) (memo : Memo)
    (out : option (option (list ascii) * Memo)) : Prop :=
  match potential_words candidates with
  | None => out = None
  | Some words =>
      ∃ order, iteration_order words order ∧
               best_word_scan order candidates memo = out
  end.

(** [get_guess(result)]; [typed] is the line that [console.input]
    returns in manual mode. *)
Definition get_guess (self : Guesser) (typed : list ascii)
    (result : list ascii) : M (list ascii * Guesser) :=
  if _manual self then ret (typed, self)
  else
    cands ←← match last_guess self with
             | Some lg => filter_candidates lg result (candidates self)
             | None => ret (candidates self)
             end;
    if bool_decide (_tried self = []) then
      ret (emit self cands (best_first_word self))
    else if bool_decide (length cands = 1%nat) then
      guess ←← lift (cands !! 0%nat);
      ret (emit self cands guess)
    else
      let cands :=
        if bool_decide (cands = [])
        then filter (λ w, w ∉ _tried self) (word_list self)
        else cands in
      let candidates_to_consider :=
        filter (λ w, w ∉ _tried self) cands in
      let candidates_to_consider :=
        if bool_decide (candidates_to_consider = []) then cands
        else candidates_to_consider in
      best_guess ←← select_best candidates_to_consider cands;
      ret (emit self cands best_guess).

End Ranking.

End Submitted.

(** ** The feedback scorer of [attempts/vitto.py] *)

Module Vitto.

(** First loop of [_get_pattern]; [pattern_chars] holds [None] until a
    position is decided. *)
Definition green_body (guess target : list ascii)
    (st : list (option ascii) * gmap ascii Z) (i : nat)
  : option (list (option ascii) * gmap ascii Z) :=
  let '(pattern_chars, target_chars) := st in
  gi ← guess !! i;
  ti ← target !! i;
  if decide (gi = ti)
  then v ← target_chars !! gi;
       Some (<[i := Some gi]> pattern_chars, <[gi := v - 1]> target_chars)
  else Some (pattern_chars, target_chars).

(** Second loop of [_get_pattern]. *)
Definition yellow_gray_body (guess : list ascii)
    (st : list (option ascii) * gmap ascii Z) (i : nat)
  : option (list (option ascii) * gmap ascii Z) :=
  let '(pattern_chars, target_chars) := st in
  cell ← pattern_chars !! i;
  match cell with
  | Some _ => Some (pattern_chars, target_chars)
  | None =>
      gi ← guess !! i;
      match target_chars !! gi with
      | Some v =>
          if bool_decide (0 < v)
          then Some (<[i := Some minus_sign]> pattern_chars,
                     <[gi := v - 1]> target_chars)
          else Some (<[i := Some plus_sign]> pattern_chars, target_chars)
      | None => Some (<[i := Some plus_sign]> pattern_chars, target_chars)
      end
  end.

(** [_get_pattern(guess, target)], without its memo table. The final
    [join] raises when an entry is still [None]. *)
Definition _get_pattern (guess target : list ascii) : option (list ascii) :=
  let pattern_chars := replicate 5 None in
  let target_chars := foldl Counter.incr ∅ target in
  st ← for_each (green_body guess target) (seq 0 5)
         (pattern_chars, target_chars);
  st ← for_each (yellow_gray_body guess) (seq 0 5) st;
  mapM (M := option) id st.1.

(** What [_guess_to_colors] extracts from a guess and its feedback. The
    four entries are [dict]s and a list read in insertion order; a set of
    positions is the list of its members in the order they were added. *)
Record Colors := {
  gray : list ascii;
  yellow : list (ascii * list nat);
  green_pos : list (nat * ascii);
  required_letters : list (ascii * Z);
}.

(** [s.add(i)]. *)
Definition set_add (i : nat) (s : list nat) : list nat :=
  if bool_decide (i ∈ s) then s else s ++ [i].

Definition _guess_to_colors (guess pattern : list ascii) : Colors :=
  foldl
    (λ data '(i, (g, p)),
       if decide (p = plus_sign) then
         {| gray := gray data ++ [g]; yellow := yellow data;
            green_pos := green_pos data;
            required_letters := required_letters data |}
       else if decide (p = minus_sign) then
         {| gray := gray data;
            yellow := odict.set g
                        (set_add i (odict.get_default g [] (yellow data)))
                        (yellow data);
            green_pos := green_pos data;
            required_letters :=
              odict.set g
                (odict.get_default g 0 (required_letters data) + 1)
                (required_letters data) |}
       else
         {| gray := gray data; yellow := yellow data;
            green_pos := odict.set i g (green_pos data);
            required_letters :=
              odict.set g
                (odict.get_default g 0 (required_letters data) + 1)
                (required_letters data) |})
    {| gray := []; yellow := []; green_pos := []; required_letters := [] |}
    (enumerate (zip guess pattern)).

(** The test on required letters:
    [all(word.count(letter) >= count for letter, count in ...)]. *)
Definition required_ok (data : Colors) (word : list ascii) : bool :=
  forallb (λ '(letter, count), bool_decide (count ≤ str_count letter word))
    (required_letters data).

(** The loop over green positions; [Some false] is the [break] with
    [is_valid = False], [None] an [IndexError]. *)
Fixpoint green_ok (items : list (nat * ascii)) (word : list ascii)
  : option bool :=
  match items with
  | [] => Some true
  | (pos, letter) :: items' =>
      c ← word !! pos;
      if decide (c ≠ letter) then Some false else green_ok items' word
  end.

(** The inner loop over the positions of one yellow letter. *)
Fixpoint yellow_positions_ok (letter : ascii) (positions : list nat)
    (word : list ascii) : option bool :=
  match positions with
  | [] => Some true
  | pos :: positions' =>
      c ← word !! pos;
      if decide (c = letter) then Some false
      else yellow_positions_ok letter positions' word
  end.

(** The loop over yellow letters. *)
Fixpoint yellow_ok (items : list (ascii * list nat)) (word : list ascii)
  : option bool :=
  match items with
  | [] => Some true
  | (letter, positions) :: items' =>
      ok ← yellow_positions_ok letter positions word;
      if (ok : bool) then yellow_ok items' word else Some false
  end.

(** The loop over gray letters. *)
Fixpoint gray_ok (data : Colors) (letters : list ascii) (word : list ascii)
  : bool :=
  match letters with
  | [] => true
  | letter :: letters' =>
      match odict.get letter (required_letters data) with
      | Some count =>
          if bool_decide (count < str_count letter word) then false
          else gray_ok data letters' word
      | None =>
          if bool_decide (letter ∈ word) then false
          else gray_ok data letters' word
      end
  end.

(** One iteration of the loop of [filter_words]: whether [word] is
    appended to [filtered_search_space]. *)
Definition word_is_valid (data : Colors) (word : list ascii) : option bool :=
  if negb (required_ok data word) then Some false
  else
    ok ← green_ok (green_pos data) word;
    if negb ok then Some false
    else
      ok ← yellow_ok (yellow data) word;
      if negb ok then Some false
      else Some (gray_ok data (gray data) word).

(** [filter_words(guess, pattern)]: the new value of
    [self._search_space]. *)
Definition filter_words (guess pattern : list ascii)
    (_search_space : list (list ascii)) : option (list (list ascii)) :=
  let data := _guess_to_colors guess pattern in
  for_each
    (λ filtered_search_space word,
       ok ← word_is_valid data word;
       Some (if (ok : bool) then filtered_search_space ++ [word]
             else filtered_search_space))
    _search_space [].

(** The loop of [is_fully_disambiguating], from a given set of
    [patterns] seen so far. *)
Fixpoint disambiguating_from (patterns : gset (list ascii))
    (guess : list ascii) (possible_words : list (list ascii)) : option bool :=
  match possible_words with
  | [] => Some true
  | word :: possible_words' =>
      pattern ← _get_pattern guess word;
      if bool_decide (pattern ∈ patterns) then Some false
      else disambiguating_from ({[pattern]} ∪ patterns) guess possible_words'
  end.

Definition is_fully_disambiguating (guess : list ascii)
    (possible_words : list (list ascii)) : option bool :=
  disambiguating_from ∅ guess possible_words.

(** *** The disambiguator and the choice of a guess *)

(** [max(sizes)] on integers; raises [ValueError] on an empty sequence. *)
Definition max_of (sizes : list Z) : option Z :=
  match sizes with
  | [] => None
  | x :: sizes' => Some (foldl Z.max x sizes')
  end.

(** [get_disambiguation_quality(guess, possible_words)]: the pair
    [(max_partition_size, -num_partitions)]; [pattern_groups] maps a
    pattern to the list of the words that give it. *)
Definition get_disambiguation_quality (guess : list ascii)
    (possible_words : list (list ascii)) : option (Z * Z) :=
  pattern_groups ←
    for_each
      (λ pattern_groups word,
         pattern ← _get_pattern guess word;
         let pattern_groups :=
           match odict.get pattern pattern_groups with
           | Some _ => pattern_groups
           | None => odict.set pattern [] pattern_groups
           end in
         Some (odict.set pattern
                 (odict.get_default pattern [] pattern_groups ++ [word])
                 pattern_groups))
      possible_words [];
  max_partition_size ←
    max_of ((λ group : list (list ascii), Z.of_nat (length group))
              <$> odict.values pattern_groups);
  let num_partitions := Z.of_nat (length pattern_groups) in
  Some (max_partition_size, - num_partitions).

(** [itertools.combinations(l, r)]: the [r]-element subsequences of [l],
    in the order of their positions. *)
Fixpoint combinations {A : Type} (l : list A) (r : nat) : list (list A) :=
  match l with
  | [] => match r with O => [[]] | S _ => [] end
  | x :: l' =>
      match r with
      | O => [[]]
      | S r' => (cons x <$> combinations l' r') ++ combinations l' (S r')
      end
  end.

(** The loop of [_generate_word_candidates], which stops as soon as
    [candidates] holds [max_count] words. *)
Fixpoint generate_loop (combos : list (list ascii))
    (candidates : list (list ascii)) (max_count : Z) : list (list ascii) :=
  match combos with
  | [] => candidates
  | combo :: combos' =>
      let candidates := candidates ++ [combo] in
      if bool_decide (max_count ≤ Z.of_nat (length candidates)) then candidates
      else generate_loop combos' candidates max_count
  end.

(** [_generate_word_candidates(letters, max_count)]. *)
Definition _generate_word_candidates (letters : list ascii) (max_count : Z)
  : list (list ascii) :=
  if bool_decide (5 ≤ length letters)%nat
  then generate_loop (combinations (take 10 letters) 5) [] max_count
  else [].

(** A quality tuple; [Worst] is the initial [(float("inf"), 0)]. *)
Inductive quality := Worst | Quality (max_partition_size neg_partitions : Z).

(** [quality < best_quality] on tuples. *)
Definition quality_lt (q : Z * Z) (best : quality) : bool :=
  match best with
  | Worst => true
  | Quality a b => bool_decide (q.1 < a ∨ (q.1 = a ∧ q.2 < b))
  end.

(** [best_quality[0] > 1]. *)
Definition quality_above_one (best : quality) : bool :=
  match best with
  | Worst => true
  | Quality a _ => bool_decide (1 < a)
  end.

(** [_evaluate_candidates(candidates, best_disambiguator, best_quality)]
    on the search space [_search_space]. *)
Fixpoint _evaluate_candidates (_search_space : list (list ascii))
    (candidates : list (list ascii))
    (best_disambiguator : option (list ascii)) (best_quality : quality)
  : option (option (list ascii) * quality) :=
  match candidates with
  | [] => Some (best_disambiguator, best_quality)
  | word :: candidates' =>
      full ← is_fully_disambiguating word _search_space;
      if (full : bool)
      then Some (Some word, Quality 1 (- Z.of_nat (length _search_space)))
      else
        q ← get_disambiguation_quality word _search_space;
        if bool_decide (2 < q.1)
        then _evaluate_candidates _search_space candidates'
               best_disambiguator best_quality
        else if quality_lt q best_quality
             then _evaluate_candidates _search_space candidates'
                    (Some word) (Quality q.1 q.2)
             else _evaluate_candidates _search_space candidates'
                    best_disambiguator best_quality
  end.

(** [Counter("".join(self._search_space))], keys in the order of first
    occurrence. *)
Definition _compute_absolute_frequencies (_search_space : list (list ascii))
  : list (ascii * Z) :=
  foldl (λ d c, odict.set c (odict.get_default c 0 d + 1) d) []
    (concat _search_space).

(** [sorted(items, key=lambda x: x[1])]: a stable sort by increasing
    count. *)
Fixpoint insert_ascending (x : ascii * Z) (l : list (ascii * Z))
  : list (ascii * Z) :=
  match l with
  | [] => [x]
  | y :: l' =>
      if bool_decide (y.2 < x.2) then y :: insert_ascending x l'
      else x :: y :: l'
  end.

Definition sorted_by_count (items : list (ascii * Z)) : list (ascii * Z) :=
  foldr insert_ascending [] items.

(** [_propose_possible_disambiguators(max_candidates)]. *)
Definition _propose_possible_disambiguators
    (_search_space : list (list ascii)) (max_candidates : Z)
  : option (option (list ascii)) :=
  let letter_frequencies := _compute_absolute_frequencies _search_space in
  let sorted_letters := sorted_by_count letter_frequencies in
  let rare_letters :=
    (filter (λ lc : ascii * Z, lc.2 ≤ 2) sorted_letters).*1 in
  let other_letters :=
    (filter (λ lc : ascii * Z, 2 < lc.2) sorted_letters).*1 in
  st ←
    (if bool_decide (5 ≤ length rare_letters)%nat
     then _evaluate_candidates _search_space
            (_generate_word_candidates rare_letters (max_candidates `div` 2))
            None Worst
     else Some (None, Worst));
  st ←
    (if quality_above_one st.2
        && bool_decide (5 ≤ length rare_letters + length other_letters)%nat
     then _evaluate_candidates _search_space
            (_generate_word_candidates (rare_letters ++ other_letters)
               (max_candidates `div` 2))
            st.1 st.2
     else Some st);
  Some st.1.

(** The first word of the search space that fully disambiguates it: the
    loop [for word in self._search_space: if
    self.is_fully_disambiguating(...): return word]. *)
Fixpoint first_disambiguating (words _search_space : list (list ascii))
  : option (option (list ascii)) :=
  match words with
  | [] => Some None
  | word :: words' =>
      full ← is_fully_disambiguating word _search_space;
      if (full : bool) then Some (Some word)
      else first_disambiguating words' _search_space
  end.

(** [Counter(word[i] for word in self._search_space)], keys in the order
    of first occurrence; [word[i]] raises [IndexError] on a short word. *)
Definition position_counter (i : nat) (_search_space : list (list ascii))
  : option (list (ascii * Z)) :=
  for_each
    (λ d word, c ← word !! i;
               Some (odict.set c (odict.get_default c 0 d + 1) d))
    _search_space [].

(** [_compute_letter_frequencies()]: the counters of the positions 0 to
    4, in this order. *)
Definition _compute_letter_frequencies (_search_space : list (list ascii))
  : option (list (list (ascii * Z))) :=
  mapM (λ i, position_counter i _search_space) (seq 0 5).

(** [counter.most_common(n)]: the first [n] entries by decreasing count,
    entries with equal counts in the order of the counter. *)
Fixpoint insert_descending (x : ascii * Z) (l : list (ascii * Z))
  : list (ascii * Z) :=
  match l with
  | [] => [x]
  | y :: l' =>
      if bool_decide (x.2 < y.2) then y :: insert_descending x l'
      else x :: y :: l'
  end.

Definition most_common_n (n : nat) (counter : list (ascii * Z))
  : list (ascii * Z) :=
  take n (foldr insert_descending [] counter).

(** [itertools.product] of the lists [ls]: the last position varies
    fastest. *)
Fixpoint product {A : Type} (ls : list (list A)) : list (list A) :=
  match ls with
  | [] => [[]]
  | l :: ls' => x ← l; (cons x <$> product ls')
  end.

(** The guesser object of [vitto.py]. *)
Record Guesser := {
  word_list : list (list ascii);
  _manual : bool;                      (* [manual == "manual"] *)
  _tried : list (list ascii);
  _search_space : list (list ascii);
  best_first_guess : list ascii;       (* set once by [__init__] *)
  printed : list (list ascii);         (* lines sent to [console.print] *)
}.

(** [restart_game]. *)
Definition restart_game (self : Guesser) : Guesser :=
  {| word_list := word_list self; _manual := _manual self; _tried := [];
     _search_space := word_list self;
     best_first_guess := best_first_guess self; printed := printed self |}.

Section BestGuess.
Variable fl : FloatOps.
(** [float("-inf")]. *)
Variable neg_inf : float fl.

(** [_compute_pattern_partitions(guess, search_space)]. *)
Definition _compute_pattern_partitions (guess : list ascii)
    (search_space : list (list ascii)) : option (list (list ascii * Z)) :=
  for_each
    (λ partitions possible_word,
       pattern ← _get_pattern guess possible_word;
       Some (odict.set pattern (odict.get_default pattern 0 partitions + 1)
               partitions))
    search_space [].

(** [_compute_partition_entropy(guess, search_space)]; its loop is the
    loop of [entropy] in [guesser_submitted.py]. *)
Definition _compute_partition_entropy (guess : list ascii)
    (search_space : list (list ascii)) : option (float fl) :=
  partitions ← _compute_pattern_partitions guess search_space;
  Submitted.entropy_sum fl (Z.of_nat (length search_space))
    (odict.values partitions).

(** [_find_first_guess()], which [__init__] stores in
    [best_first_guess]; [None] inside is Python's [None]. *)
Definition _find_first_guess (_search_space : list (list ascii))
  : option (option (list ascii)) :=
  letter_frequencies ← _compute_letter_frequencies _search_space;
  let top_letters_per_pos :=
    (λ pos_freq, (most_common_n 3 pos_freq).*1) <$> letter_frequencies in
  st ← for_each
         (λ '(best_word, best_entropy) letters,
            if bool_decide (size (list_to_set (C := gset ascii) letters)
                            ≠ 5%nat)
            then Some (best_word, best_entropy)
            else
              let word := letters in
              pattern_entropy ← _compute_partition_entropy word _search_space;
              Some (if fgt fl pattern_entropy best_entropy
                    then (Some word, pattern_entropy)
                    else (best_word, best_entropy)))
         (product top_letters_per_pos) (None, neg_inf);
  Some st.1.

(** [_get_best_guess_by_pattern_entropy()[0]]: [None] inside is Python's
    [None], left when no entropy exceeds minus infinity. *)
Definition _get_best_guess_by_pattern_entropy
    (_search_space : list (list ascii)) : option (option (list ascii)) :=
  st ← for_each
         (λ '(best_word, best_entropy) word,
            entropy ← _compute_partition_entropy word _search_space;
            Some (if fgt fl entropy best_entropy then (Some word, entropy)
                  else (best_word, best_entropy)))
         _search_space (None, neg_inf);
  Some st.1.

(** [_get_best_guess(result)]: the guess and the search space it leaves.
    A guess that would be Python's [None] (no caller can use it) is
    read as a failure. [self._tried[-1]] is the last word tried. *)
Definition _get_best_guess (self : Guesser) (result : list ascii)
  : option (list ascii * list (list ascii)) :=
  match last (_tried self) with
  | None => Some (best_first_guess self, _search_space self)
  | Some previous =>
      space ← filter_words previous result (_search_space self);
      let n_remaining := length space in
      if bool_decide (n_remaining = 0)%nat then Some (str_of "zzzzz", space)
      else if bool_decide (n_remaining ≤ 2)%nat then
        first ← space !! 0%nat; Some (first, space)
      else
        early ←
          (if bool_decide (n_remaining ≤ 20)%nat then
             found ← first_disambiguating space space;
             match found with
             | Some word => Some (Some word)
             | None =>
                 disambiguator ← _propose_possible_disambiguators space 100;
                 match disambiguator with
                 | Some word =>
                     Some (if bool_decide (word = []) then None else Some word)
                 | None => Some None
                 end
             end
           else Some None);
        match early with
        | Some word => Some (word, space)
        | None =>
            best ← _get_best_guess_by_pattern_entropy space;
            word ← best;
            Some (word, space)
        end
  end.

(** [get_guess(result)]; [typed] is the line that [console.input]
    returns in manual mode. *)
Definition get_guess (self : Guesser) (typed result : list ascii)
  : option (list ascii * Guesser) :=
  if _manual self then Some (typed, self)
  else
    '(guess, space) ← _get_best_guess self result;
    Some (guess,
          {| word_list := word_list self; _manual := _manual self;
             _tried := _tried self ++ [guess]; _search_space := space;
             best_first_guess := best_first_guess self;
             printed := printed self ++ [guess] |}).
End BestGuess.

End Vitto.


(** ** The dummy guess of [guesser_general.py] *)

Module General.

(** The toggles at the head of the module. *)
Definition DUMMY_GUESS_TOGGLE : bool := true.
Definition DUMMY_PLUS_COUNTS : list Z := [1; 2].
Definition DUMMY_GUESS_ONE_PER_CASE : bool := true.

(** [s.index(c)]: the first position of [c], or [ValueError]. *)
Fixpoint str_index (c : ascii) (s : list ascii) : option nat :=
  match s with
  | [] => None
  | x :: s' => if decide (x = c) then Some 0%nat else S <$> str_index c s'
  end.

(** [Counter(letters)], keys in the order of first occurrence. *)
Definition letter_counter (letters : list ascii) : list (ascii * Z) :=
  foldl (λ d c, odict.set c (odict.get_default c 0 d + 1) d) [] letters.

(** [sorted(items, key=itemgetter(1), reverse=True)]: a stable sort, so
    entries with equal counts keep their order. *)
Fixpoint insert_by_count (x : ascii * Z) (l : list (ascii * Z))
  : list (ascii * Z) :=
  match l with
  | [] => [x]
  | y :: l' =>
      if bool_decide (x.2 < y.2) then y :: insert_by_count x l'
      else x :: y :: l'
  end.

(** [counter.most_common()]. *)
Definition most_common (counter : list (ascii * Z)) : list (ascii * Z) :=
  foldr insert_by_count [] counter.

(** [try_dummy_guess(candidates_to_consider, result)], given
    [self._tried] and [self.used_dummy]; returns the value returned
    ([None] of the inner option is Python's [None]) and the new
    [self.used_dummy]. *)
Definition try_dummy_guess (_tried : list (list ascii))
    (used_dummy : gset (list ascii))
    (candidates_to_consider : list (list ascii)) (result : list ascii)
  : option (option (list ascii) * gset (list ascii)) :=
  if negb DUMMY_GUESS_TOGGLE then Some (None, used_dummy)
  else
    let plus_count := str_count plus_sign result in
    if bool_decide (plus_count ∈ DUMMY_PLUS_COUNTS)
       && bool_decide (str_count minus_sign result = 0)
       && bool_decide (length _tried < 5)%nat
    then
      if DUMMY_GUESS_ONE_PER_CASE && bool_decide (result ∈ used_dummy)
      then Some (None, used_dummy)
      else
        let used_dummy :=
          if DUMMY_GUESS_ONE_PER_CASE then {[result]} ∪ used_dummy
          else used_dummy in
        pos ← str_index plus_sign result;
        letters ← mapM (λ word : list ascii, word !! pos)
                     candidates_to_consider;
        let distinct_letters : gset ascii := list_to_set letters in
        if bool_decide (size distinct_letters < 3)%nat
        then Some (None, used_dummy)
        else
          let letter_freq := letter_counter letters in
          let dummy_letters := (most_common letter_freq).*1 in
          let dummy_letters :=
            if bool_decide (length dummy_letters < 5)%nat
            then dummy_letters
                   ++ replicate (5 - length dummy_letters) "a"%char
            else if bool_decide (5 < length dummy_letters)%nat
                 then take 5 dummy_letters
                 else dummy_letters in
          Some (Some dummy_letters, used_dummy)
    else Some (None, used_dummy).

(** Second loop of [get_feedback]: a position is reconsidered when its
    letter differs from the answer's, not when its cell reads [+]. *)
Definition second_pass_body (answer : list ascii)
    (st : list (list ascii) * gmap ascii Z) (il : nat * ascii)
  : option (list (list ascii) * gmap ascii Z) :=
  let '(feedback, counts) := st in
  let '(i, letter) := il in
  ai ← answer !! i;
  if bool_decide (letter ≠ ai) && bool_decide (letter ∈ answer)
     && bool_decide (0 < Counter.get counts letter)
  then Some (<[i := [minus_sign]]> feedback, Counter.decr counts letter)
  else Some (feedback, counts).

(** [get_feedback(guess, answer)], without its memo table; its first loop
    is the first loop of [get_matches], line for line. *)
Definition get_feedback (guess answer : list ascii) : option (list ascii) :=
  let counts := Counter.of_str answer in
  let feedback := replicate (length guess) [] in
  st ← for_each (Submitted.first_pass_body answer) (enumerate guess)
         (feedback, counts);
  st ← for_each (second_pass_body answer) (enumerate guess) st;
  Some (concat st.1).

End General.

(** * Specification-level definitions *)

(** ** Feedback symbols and the two-pass rule, stated on lists

    The scorers are compared with a direct recursive reading of the
    two-pass rule; the claims are then read off the strings they return
    through [mark_of], the decoding of the wire format that
    [_guess_to_colors] applies. *)

Inductive mark := Exact | Present | Absent.

Global Instance mark_eq_dec : EqDecision mark.
Proof. solve_decision. Defined.

(** The symbol a character of a feedback string stands for. *)
Definition mark_of (p : ascii) : mark :=
  if decide (p = plus_sign) then Absent
  else if decide (p = minus_sign) then Present
  else Exact.

(** The character that stands for a symbol at a position holding [x]. *)
Definition wire (x : ascii) (m : mark) : ascii :=
  match m with
  | Exact => x
  | Present => minus_sign
  | Absent => plus_sign
  end.

(** Number of positions of [g] that hold [c] and carry the mark [m]. *)
Definition tally (c : ascii) (m : mark) (g : list ascii) (ms : list mark) : Z :=
  Z.of_nat (length (filter (λ xm, xm.1 = c ∧ xm.2 = m) (zip g ms))).

(** A guess that contains neither feedback sign. *)
Definition mark_free (g : list ascii) : Prop :=
  (plus_sign ∉ g) ∧ (minus_sign ∉ g).

(** A lowercase letter, and a word of the game. *)
Definition is_lower (c : ascii) : Prop :=
  (97 ≤ nat_of_ascii c ≤ 122)%nat.

Definition is_word (w : list ascii) : Prop :=
  length w = 5%nat ∧ Forall is_lower w.

(** Positions at which guess and answer agree. *)
Definition greens (g a : list ascii) : list bool :=
  zip_with (λ x y, bool_decide (x = y)) g a.

(** The counter once every agreeing position has been discounted. *)
Fixpoint after_greens (counts : gmap ascii Z) (g a : list ascii)
  : gmap ascii Z :=
  match g, a with
  | x :: g', y :: a' =>
      after_greens (if decide (x = y) then Counter.decr counts x else counts)
        g' a'
  | _, _ => counts
  end.

(** Second pass: a pending position is credited while the counter of its
    letter is positive. *)
Fixpoint yellows (counts : gmap ascii Z) (l : list (ascii * bool))
  : list mark :=
  match l with
  | [] => []
  | (x, true) :: l' => Exact :: yellows counts l'
  | (x, false) :: l' =>
      if bool_decide (0 < Counter.get counts x)
      then Present :: yellows (Counter.decr counts x) l'
      else Absent :: yellows counts l'
  end.

Definition score (g a : list ascii) : list mark :=
  yellows (after_greens (Counter.of_str a) g a) (zip g (greens g a)).

Definition render (g : list ascii) (ms : list mark) : list ascii :=
  zip_with wire g ms.

(** Agreeing positions holding [c], and pending positions holding [c]. *)
Definition matched (c : ascii) (g a : list ascii) : Z :=
  Z.of_nat (length (filter (λ xy, xy.1 = c ∧ xy.2 = c) (zip g a))).

Definition pending (c : ascii) (l : list (ascii * bool)) : Z :=
  Z.of_nat (length (filter (λ xb, xb.1 = c ∧ xb.2 = false) l)).

(** The cells of [feedback] after the first loop of [get_matches], and of
    [pattern_chars] after the first loop of [_get_pattern]. *)
Definition plus_cells (g : list ascii) (bs : list bool) : list (list ascii) :=
  zip_with (λ x (b : bool), [if b then x else plus_sign]) g bs.

Definition none_cells (g : list ascii) (bs : list bool) : list (option ascii) :=
  zip_with (λ x (b : bool), if b then Some x else None) g bs.

(** ** The memo tables are transparent

    Every memoised computation is compared with its reading without the
    tables; a table is sound when each entry holds the value its function
    returns. *)

Module Pure.
Import Submitted.

(** [pattern_distribution] without the tables. *)
Definition distribution (guess : list ascii)
    (candidates_tuple : list (list ascii)) : option (list (list ascii * Z)) :=
  for_each
    (λ distribution answer,
       pattern ← get_matches guess answer;
       Some (odict.set pattern (odict.get_default pattern 0 distribution + 1)
               distribution))
    candidates_tuple [].

(** The filtering step without the tables. *)
Definition filter_candidates (last_guess result : list ascii)
    (candidates : list (list ascii)) : option (list (list ascii)) :=
  for_each
    (λ kept word,
       fb ← get_matches last_guess word;
       Some (if decide (fb = result) then kept ++ [word] else kept))
    candidates [].

Section Ranking.
Variable fl : FloatOps.

(** [entropy] without the tables. *)
Definition entropy (guess : list ascii) (candidates : list (list ascii))
  : option (float fl) :=
  distribution ← distribution guess candidates;
  entropy_sum fl (Z.of_nat (length candidates)) (odict.values distribution).

(** [max] over keys that are computed without the tables. *)
Definition max_scan {A : Type} (key : A → option (float fl)) (l : list A)
    (maxitem : A) (maxval : float fl) : option A :=
  st ← for_each
         (λ '(maxitem, maxval) item,
            val ← key item;
            Some (if fgt fl val maxval then (item, val)
                  else (maxitem, maxval)))
         l (maxitem, maxval);
  Some st.1.

Definition py_max {A : Type} (key : A → option (float fl)) (l : list A)
  : option A :=
  match l with
  | [] => None
  | x :: l' => maxval ← key x; max_scan key l' x maxval
  end.

Definition select_best (candidates_to_consider : list (list ascii))
    (candidates_tuple : list (list ascii)) : option (list ascii) :=
  py_max (λ candidate, entropy candidate candidates_tuple)
    candidates_to_consider.

(** The scan of [best_first_guess] without the tables. *)
Definition best_word_scan (potential_words : list (list ascii))
    (candidates_sample : list (list ascii)) : option (option (list ascii)) :=
  st ← for_each
         (λ '(best_word, best_entropy) word,
            entropy ← entropy word candidates_sample;
            Some (if fgt fl entropy best_entropy
                  then (Some word, entropy)
                  else (best_word, best_entropy)))
         potential_words (None, of_int fl (-1));
  Some st.1.
End Ranking.
End Pure.

(** A sound pair of tables. *)
Definition memo_ok (memo : Submitted.Memo) : Prop :=
  (∀ g a fb, Submitted.matches_memo memo !! (g, a) = Some fb →
             Submitted.get_matches g a = Some fb) ∧
  (∀ g cs d, Submitted.distribution_memo memo !! (g, cs) = Some d →
             Pure.distribution g cs = Some d).

(** [c] computes [o] whatever sound tables it starts from, and leaves
    sound tables. *)
Definition transparent {A : Type} (c : Submitted.M A) (o : option A) : Prop :=
  ∀ memo, memo_ok memo →
    match o with
    | Some x => ∃ memo', c memo = Some (x, memo') ∧ memo_ok memo'
    | None => c memo = None
    end.

(** The comparison [>] on the keys is a strict weak order, as it is on
    the floats other than NaN. *)
Record float_order (fl : FloatOps) : Prop := {
  fgt_irrefl : ∀ a, fgt fl a a = false;
  fgt_trans : ∀ a b c, fgt fl a b = true → fgt fl b c = true → fgt fl a c = true;
  fgt_negtrans :
    ∀ a b c, fgt fl a b = false → fgt fl b c = false → fgt fl a c = false;
}.

(** [r], with key [kr], is the first item of [l] that no item of [l]
    exceeds: every item before it is strictly smaller. *)
Definition first_maximal (fl : FloatOps) {A : Type}
    (key : A → option (float fl)) (l : list A) (r : A) (kr : float fl) : Prop :=
  key r = Some kr ∧
  (∀ x kx, x ∈ l → key x = Some kx → fgt fl kx kr = false) ∧
  ∃ before after,
    l = before ++ r :: after ∧
    ∀ x kx, x ∈ before → key x = Some kx → fgt fl kr kx = true.

(** Floats read as real numbers: the arithmetic in which the entropy
    formula is usually written. *)
Definition ideal : FloatOps :=
  {| float := Rdefinitions.R;
     of_int := Rdefinitions.IZR;
     truediv := λ a b, Rdefinitions.Rdiv (Rdefinitions.IZR a) (Rdefinitions.IZR b);
     fmul := Rdefinitions.Rmult;
     fsub := Rdefinitions.Rminus;
     log2 := λ x, Rdefinitions.Rdiv (Rpower.ln x)
                    (Rpower.ln (Rdefinitions.IZR 2));
     fgt := λ x y, if RIneq.Rgt_dec x y then true else false |}.

(** A game whose secret word, [mixed], is not in the vocabulary: after
    the opening guess [saren] and its feedback no candidate remains. *)
Definition stuck_guesser : Submitted.Guesser :=
  {| Submitted.word_list := [str_of "allot"; str_of "lobby"];
     Submitted._manual := false;
     Submitted._tried := [str_of "saren"];
     Submitted.candidates := [str_of "allot"; str_of "lobby"];
     Submitted.last_guess := Some (str_of "saren");
     Submitted.best_first_word := str_of "saren";
     Submitted.printed := [str_of "saren"] |}.

(** A game on the vocabulary [allot], [below], [lobby], [mixed] after the
    opening guess [saren]. *)
Definition after_saren : Submitted.Guesser :=
  {| Submitted.word_list :=
       [str_of "allot"; str_of "below"; str_of "lobby"; str_of "mixed"];
     Submitted._manual := false;
     Submitted._tried := [str_of "saren"];
     Submitted.candidates :=
       [str_of "allot"; str_of "below"; str_of "lobby"; str_of "mixed"];
     Submitted.last_guess := Some (str_of "saren");
     Submitted.best_first_word := str_of "saren";
     Submitted.printed := [str_of "saren"] |}.

(** A game on the vocabulary [lobby], [kitty], [allot] after the opening
    guess [saren]: the feedback [+++++] leaves [lobby] and [kitty], whose
    entropies are the same. *)
Definition tied_guesser : Submitted.Guesser :=
  {| Submitted.word_list := [str_of "lobby"; str_of "kitty"; str_of "allot"];
     Submitted._manual := false;
     Submitted._tried := [str_of "saren"];
     Submitted.candidates :=
       [str_of "lobby"; str_of "kitty"; str_of "allot"];
     Submitted.last_guess := Some (str_of "saren");
     Submitted.best_first_word := str_of "saren";
     Submitted.printed := [str_of "saren"] |}.

(** Two orders in which a run may iterate the set [potential_words] that
    [best_first_guess] builds on the vocabulary [lobby]: the fourteen
    known good words and [lobby]. *)
Definition saren_first : list (list ascii) :=
  [str_of "saren"; str_of "ranes"; str_of "saret"; str_of "tares";
   str_of "earis"; str_of "saner"; str_of "lares"; str_of "aires";
   str_of "raise"; str_of "sarel"; str_of "sarie"; str_of "tales";
   str_of "crane"; str_of "stale"; str_of "lobby"].

Definition crane_first : list (list ascii) :=
  [str_of "crane"; str_of "lobby"; str_of "stale"; str_of "tales";
   str_of "sarie"; str_of "sarel"; str_of "raise"; str_of "aires";
   str_of "lares"; str_of "saner"; str_of "earis"; str_of "tares";
   str_of "saret"; str_of "ranes"; str_of "saren"].

(** The sum of a list of integers. *)
Definition zsum (l : list Z) : Z := foldr Z.add 0 l.

(** One iteration of the loop of [_guess_to_colors]. *)
Definition colors_step (data : Vitto.Colors) (igp : nat * (ascii * ascii))
  : Vitto.Colors :=
  let '(i, (g, p)) := igp in
  if decide (p = plus_sign) then
    {| Vitto.gray := Vitto.gray data ++ [g]; Vitto.yellow := Vitto.yellow data;
       Vitto.green_pos := Vitto.green_pos data;
       Vitto.required_letters := Vitto.required_letters data |}
  else if decide (p = minus_sign) then
    {| Vitto.gray := Vitto.gray data;
       Vitto.yellow :=
         odict.set g
           (Vitto.set_add i (odict.get_default g [] (Vitto.yellow data)))
           (Vitto.yellow data);
       Vitto.green_pos := Vitto.green_pos data;
       Vitto.required_letters :=
         odict.set g
           (odict.get_default g 0 (Vitto.required_letters data) + 1)
           (Vitto.required_letters data) |}
  else
    {| Vitto.gray := Vitto.gray data; Vitto.yellow := Vitto.yellow data;
       Vitto.green_pos := odict.set i g (Vitto.green_pos data);
       Vitto.required_letters :=
         odict.set g
           (odict.get_default g 0 (Vitto.required_letters data) + 1)
           (Vitto.required_letters data) |}.

(** Positions of [g] that hold [c] and whose feedback character is not
    the plus sign. *)
Definition credited (c : ascii) (g p : list ascii) : Z :=
  Z.of_nat (length (filter (λ xp, xp.1 = c ∧ xp.2 ≠ plus_sign) (zip g p))).

(** What the entries of the three position tables say about guess and
    pattern, and that no letter is required twice. *)
Definition colors_ok (g p : list ascii) (data : Vitto.Colors) : Prop :=
  (∀ pos letter, (pos, letter) ∈ Vitto.green_pos data →
     g !! pos = Some letter ∧
     ∃ c, p !! pos = Some c ∧ c ≠ plus_sign ∧ c ≠ minus_sign) ∧
  (∀ letter positions pos, (letter, positions) ∈ Vitto.yellow data →
     pos ∈ positions → g !! pos = Some letter ∧ p !! pos = Some minus_sign) ∧
  (∀ letter, letter ∈ Vitto.gray data →
     ∃ pos, g !! pos = Some letter ∧ p !! pos = Some plus_sign) ∧
  NoDup (Vitto.required_letters data).*1.

(** In the ideal model no entropy is negative, so that a negative number
    does in the scans of [vitto.py] what [float("-inf")] does. *)
Definition ideal_neg_inf : float ideal := Rdefinitions.IZR (-1).

(** Successive calls of [get_guess] of [vitto.py], one for each feedback
    of [results]: the guesses returned, and the guesser they leave. *)
Fixpoint vitto_play (fl : FloatOps) (neg_inf : float fl)
    (self : Vitto.Guesser) (typed : list ascii)
    (results : list (list ascii))
  : option (list (list ascii) * Vitto.Guesser) :=
  match results with
  | [] => Some ([], self)
  | result :: results' =>
      match Vitto.get_guess fl neg_inf self typed result with
      | Some (guess, self') =>
          match vitto_play fl neg_inf self' typed results' with
          | Some (guesses, self'') => Some (guess :: guesses, self'')
          | None => None
          end
      | None => None
      end
  end.

(** What [pattern_groups] of [get_disambiguation_quality] holds once the
    words of [done] are in it, for a scorer [f]: the non-empty groups of
    the words that share a pattern, each under its pattern. *)
Definition groups_of (f : list ascii → option (list ascii))
    (done : list (list ascii))
    (G : list (list ascii * list (list ascii))) : Prop :=
  NoDup G.*1 ∧
  ∀ p, odict.get p G
       = let grp := filter (λ w, f w = Some p) done in
         if decide (grp = []) then None else Some grp.

(** The state of the scan of [_get_best_guess_by_pattern_entropy] once
    the words of [seen] are behind it: no word yet, when no key exceeded
    [neg_inf]; otherwise the first maximal word of [seen] and its key. *)
Definition scan_ok (fl : FloatOps) (neg_inf : float fl) {A : Type}
    (key : A → option (float fl)) (seen : list A)
    (st : option A * float fl) : Prop :=
  match st.1 with
  | None =>
      st.2 = neg_inf ∧
      ∀ x kx, x ∈ seen → key x = Some kx → fgt fl kx neg_inf = false
  | Some r => first_maximal fl key seen r st.2 ∧ fgt fl st.2 neg_inf = true
  end.

(** A word that can be guessed: five characters, no feedback sign. *)
Definition well_formed (w : list ascii) : Prop :=
  length w = 5%nat ∧ mark_free w.

(** A guesser of [vitto.py] all of whose words can be guessed. *)
Definition vitto_ok (self : Vitto.Guesser) : Prop :=
  Forall well_formed (Vitto.word_list self) ∧
  Forall well_formed (Vitto._search_space self) ∧
  Forall well_formed (Vitto._tried self) ∧
  well_formed (Vitto.best_first_guess self).

(** The feedback that follows a guess is the pattern of the secret word
    against it; the first feedback, which precedes every guess, is
    free. *)
Definition honest_feedback (secret : list ascii)
    (guesses results : list (list ascii)) : Prop :=
  ∀ i g r, guesses !! i = Some g → results !! S i = Some r →
           Vitto._get_pattern g secret = Some r.

(** * Properties *)


(** *** Counters *)

Section CounterFacts.
Implicit Types (m : gmap ascii Z) (c x : ascii) (s : list ascii).

Lemma get_incr m x c :
  Counter.get (Counter.incr m x) c
  = Counter.get m c + (if decide (x = c) then 1 else 0).
Proof.
  unfold Counter.incr, Counter.get at 1. rewrite lookup_insert.
  destruct (decide (x = c)) as [->|]; simpl; [done|].
  unfold Counter.get. lia.
Qed.

Lemma get_decr m x c :
  Counter.get (Counter.decr m x) c
  = Counter.get m c - (if decide (x = c) then 1 else 0).
Proof.
  unfold Counter.decr, Counter.get at 1. rewrite lookup_insert.
  destruct (decide (x = c)) as [->|]; simpl; [done|].
  unfold Counter.get. lia.
Qed.

Lemma str_count_nil c : str_count c [] = 0.
Proof. done. Qed.

Lemma str_count_cons c x s :
  str_count c (x :: s) = (if decide (x = c) then 1 else 0) + str_count c s.
Proof.
  unfold str_count. rewrite filter_cons.
  destruct (decide (x = c)); simpl; lia.
Qed.

Lemma str_count_nonneg c s : 0 ≤ str_count c s.
Proof. unfold str_count. lia. Qed.

Lemma str_count_pos_elem c s : 0 < str_count c s → c ∈ s.
Proof.
  induction s as [|x s IH]; [rewrite str_count_nil; lia|].
  rewrite str_count_cons. destruct (decide (x = c)) as [->|]; [set_solver|].
  intros. apply elem_of_cons. right. apply IH. lia.
Qed.

Lemma get_foldl_incr s m c :
  Counter.get (foldl Counter.incr m s) c = Counter.get m c + str_count c s.
Proof.
  revert m. induction s as [|x s IH]; intros m; simpl.
  - rewrite str_count_nil. lia.
  - rewrite IH, get_incr, str_count_cons. lia.
Qed.

Lemma get_of_str s c : Counter.get (Counter.of_str s) c = str_count c s.
Proof. unfold Counter.of_str. rewrite get_foldl_incr. done. Qed.

Lemma lookup_foldl_incr s m c :
  c ∈ s ∨ is_Some (m !! c) → is_Some (foldl Counter.incr m s !! c).
Proof.
  revert m. induction s as [|x s IH]; intros m; simpl.
  - intros [H|H]; [by apply elem_of_nil in H|done].
  - intros H. apply IH. unfold Counter.incr.
    destruct (decide (x = c)) as [->|Hne].
    + right. rewrite lookup_insert_eq. eauto.
    + rewrite lookup_insert_ne by done.
      destruct H as [H|H]; [|by right].
      apply elem_of_cons in H as [->|H]; [done|by left].
Qed.
End CounterFacts.

(** *** The two-pass rule on lists *)

Section ScoreFacts.
Implicit Types (counts : gmap ascii Z) (c x y : ascii) (g a : list ascii).
Implicit Types (l : list (ascii * bool)) (ms : list mark).

Lemma tally_nil_l c k ms : tally c k [] ms = 0.
Proof. done. Qed.

Lemma tally_cons c k x g m ms :
  tally c k (x :: g) (m :: ms)
  = (if decide (x = c ∧ m = k) then 1 else 0) + tally c k g ms.
Proof.
  unfold tally. simpl. rewrite filter_cons. simpl.
  destruct (decide (x = c ∧ m = k)); simpl; lia.
Qed.

Lemma matched_nil c a : matched c [] a = 0.
Proof. done. Qed.

Lemma matched_cons c x y g a :
  matched c (x :: g) (y :: a)
  = (if decide (x = c ∧ y = c) then 1 else 0) + matched c g a.
Proof.
  unfold matched. simpl. rewrite filter_cons. simpl.
  destruct (decide (x = c ∧ y = c)); simpl; lia.
Qed.

Lemma pending_cons c x b l :
  pending c ((x, b) :: l)
  = (if decide (x = c ∧ b = false) then 1 else 0) + pending c l.
Proof.
  unfold pending. rewrite filter_cons. simpl.
  destruct (decide (x = c ∧ b = false)); simpl; lia.
Qed.

Lemma pending_nonneg c l : 0 ≤ pending c l.
Proof. unfold pending. lia. Qed.

Lemma matched_nonneg c g a : 0 ≤ matched c g a.
Proof. unfold matched. lia. Qed.

Lemma yellows_length counts l : length (yellows counts l) = length l.
Proof.
  revert counts. induction l as [|[x []] l IH]; intros counts; simpl;
    [done|by rewrite IH|].
  case_bool_decide; simpl; by rewrite IH.
Qed.

Lemma score_length g a :
  length (score g a) = (length g `min` length a)%nat.
Proof.
  unfold score, greens. rewrite yellows_length, length_zip.
  rewrite length_zip_with. lia.
Qed.

(** A position is [Exact] exactly when it was green. *)
Lemma yellows_lookup_exact counts l i x b :
  l !! i = Some (x, b) →
  ∃ m, yellows counts l !! i = Some m ∧ (m = Exact ↔ b = true).
Proof.
  revert counts i. induction l as [|[z bz] l IH]; intros counts i Hi;
    [by rewrite lookup_nil in Hi|].
  destruct i as [|i]; simpl in Hi.
  - injection Hi as -> ->. destruct b; simpl.
    + exists Exact. done.
    + case_bool_decide; [exists Present|exists Absent]; by split.
  - destruct bz; simpl; [by apply IH|].
    case_bool_decide; simpl; by apply IH.
Qed.

(** The counter after the first pass. *)
Lemma get_after_greens counts g a c :
  Counter.get (after_greens counts g a) c
  = Counter.get counts c - matched c g a.
Proof.
  revert counts a. induction g as [|x g IH]; intros counts [|y a]; simpl;
    [unfold matched; simpl; lia..|].
  rewrite IH, matched_cons.
  destruct (decide (x = y)) as [->|Hxy].
  - rewrite get_decr. destruct (decide (y = c)) as [->|].
    + rewrite decide_True by done. lia.
    + rewrite decide_False by naive_solver. lia.
  - rewrite decide_False by naive_solver. lia.
Qed.

Lemma matched_le_answer c g a : matched c g a ≤ str_count c a.
Proof.
  revert a. induction g as [|x g IH]; intros a.
  - rewrite matched_nil. apply str_count_nonneg.
  - destruct a as [|y a]; [done|].
    rewrite matched_cons, str_count_cons. specialize (IH a).
    destruct (decide (x = c ∧ y = c)) as [[_ ->]|];
      [rewrite decide_True by done; lia|].
    destruct (decide (y = c)); lia.
Qed.

(** Exact marks of a letter are its agreeing positions; a letter is
    either matched or pending at each of its positions in the guess. *)
Lemma tally_exact counts g a c :
  tally c Exact g (yellows counts (zip g (greens g a))) = matched c g a.
Proof.
  revert counts a. induction g as [|x g IH]; intros counts [|y a];
    try done.
  simpl. rewrite matched_cons.
  case_bool_decide as Hxy; simpl.
  - subst y. rewrite tally_cons, IH.
    destruct (decide (x = c)) as [->|].
    + by rewrite !decide_True.
    + by rewrite !decide_False by naive_solver.
  - case_bool_decide; rewrite tally_cons, IH;
      rewrite !decide_False by naive_solver; done.
Qed.

Lemma matched_pending g a c :
  (length g ≤ length a)%nat →
  str_count c g = matched c g a + pending c (zip g (greens g a)).
Proof.
  revert a. induction g as [|x g IH]; intros [|y a] Hlen; simpl in *;
    try done; try lia.
  rewrite str_count_cons, matched_cons, pending_cons, (IH a) by lia.
  destruct (decide (x = c)) as [->|].
  - case_bool_decide as Hcy.
    + subst y. rewrite decide_True by done.
      rewrite decide_False by naive_solver. lia.
    + rewrite decide_False by naive_solver.
      rewrite decide_True by done. lia.
  - rewrite !decide_False by naive_solver. lia.
Qed.

(** The second pass credits a letter as often as it is pending, up to
    the value of its counter. *)
Lemma tally_present counts l c :
  0 ≤ Counter.get counts c →
  tally c Present l.*1 (yellows counts l)
  = pending c l `min` Counter.get counts c.
Proof.
  revert counts. induction l as [|[x b] l IH]; intros counts Hc.
  - unfold pending. simpl. rewrite tally_nil_l. lia.
  - pose proof (pending_nonneg c l) as Hp.
    rewrite pending_cons. destruct b; simpl.
    + rewrite tally_cons, IH by done.
      rewrite !decide_False by naive_solver. lia.
    + case_bool_decide as Hpos; rewrite tally_cons.
      * rewrite IH by (rewrite get_decr; destruct (decide (x = c)); subst; lia).
        rewrite get_decr.
        destruct (decide (x = c)) as [->|].
        -- rewrite !decide_True by done. lia.
        -- rewrite !decide_False by naive_solver. lia.
      * rewrite IH by done.
        rewrite decide_False by naive_solver.
        destruct (decide (x = c)) as [->|].
        -- rewrite decide_True by done. lia.
        -- rewrite decide_False by naive_solver. lia.
Qed.

Lemma fst_zip_greens g a :
  (length g ≤ length a)%nat → (zip g (greens g a)).*1 = g.
Proof.
  intros. apply fst_zip. unfold greens. rewrite length_zip_with. lia.
Qed.

(** The credited positions of a letter: the smaller of its
    multiplicities in guess and answer. *)
Lemma score_credit g a c :
  (length g ≤ length a)%nat →
  tally c Exact g (score g a) + tally c Present g (score g a)
  = str_count c g `min` str_count c a.
Proof.
  intros Hlen. unfold score. rewrite tally_exact.
  pose proof (matched_le_answer c g a) as Hle.
  pose proof (tally_present (after_greens (Counter.of_str a) g a)
                (zip g (greens g a)) c) as Hp.
  rewrite fst_zip_greens, get_after_greens, get_of_str in Hp by done.
  rewrite Hp by lia.
  rewrite (matched_pending g a c) by done. lia.
Qed.

(** Every position of the guess carries one of the three marks. *)
Lemma tally_total c g ms :
  length ms = length g →
  tally c Exact g ms + tally c Present g ms + tally c Absent g ms
  = str_count c g.
Proof.
  revert ms. induction g as [|x g IH]; intros [|m ms] Hlen; simpl in *;
    try done.
  rewrite !tally_cons, str_count_cons.
  specialize (IH ms ltac:(lia)).
  destruct (decide (x = c)) as [->|].
  - destruct m;
      repeat (first [rewrite decide_True by done
                    |rewrite decide_False by naive_solver]); lia.
  - rewrite !decide_False by naive_solver. lia.
Qed.
End ScoreFacts.

(** *** The scorers compute the two-pass rule *)

Section ListFacts.
Context {A : Type}.
Implicit Types (l k done rest : list A) (r z : A).

Lemma drop_cons_inv l i z k :
  drop i l = z :: k → l !! i = Some z ∧ drop (S i) l = k.
Proof.
  intros Hd. assert (l !! i = Some z) as Hl.
  { rewrite <- (Nat.add_0_r i), <- lookup_drop, Hd. done. }
  split; [done|]. rewrite (drop_S _ _ _ Hl) in Hd. by injection Hd.
Qed.

Lemma insert_at_end done rest r z :
  <[length done := z]> (done ++ r :: rest) = (done ++ [z]) ++ rest.
Proof.
  rewrite insert_app_r_alt by lia. rewrite Nat.sub_diag. simpl.
  by rewrite <- app_assoc.
Qed.

Lemma keep_at_end done rest r :
  done ++ r :: rest = (done ++ [r]) ++ rest.
Proof. by rewrite <- app_assoc. Qed.

Lemma length_snoc done z : length (done ++ [z]) = S (length done).
Proof. rewrite length_app. simpl. lia. Qed.
End ListFacts.

Section Scorers.
Implicit Types (counts : gmap ascii Z) (c x y : ascii).
Implicit Types (g a gs ans : list ascii) (bs : list bool).

Lemma concat_singletons (l : list ascii) : concat ((λ p, [p]) <$> l) = l.
Proof. induction l as [|p l IH]; csimpl; [done|by rewrite IH]. Qed.

(** **** [get_matches] *)

Lemma first_pass_run answer gs :
  ∀ done rest counts ans,
    length rest = length gs →
    (length gs ≤ length ans)%nat →
    drop (length done) answer = ans →
    for_each (Submitted.first_pass_body answer)
      (enumerate_from (length done) gs) (done ++ rest, counts)
    = Some (done ++ plus_cells gs (greens gs ans),
            after_greens counts gs ans).
Proof.
  induction gs as [|x gs IH]; intros done rest counts ans Hrest Hlen Hdrop.
  - destruct rest; [|done]. destruct ans; done.
  - destruct rest as [|r rest]; [done|].
    destruct ans as [|y ans]; [simpl in Hlen; lia|].
    apply drop_cons_inv in Hdrop as [Hy Hdrop].
    simpl in Hrest, Hlen. simpl. rewrite Hy. simpl.
    destruct (decide (x = y)) as [->|Hne].
    + rewrite bool_decide_eq_true_2 by done.
      rewrite insert_at_end. simpl.
      rewrite <- (length_snoc done [y]).
      rewrite (IH _ rest _ ans); [|lia..|by rewrite length_snoc].
      by rewrite <- app_assoc.
    + rewrite bool_decide_eq_false_2 by done.
      rewrite insert_at_end. simpl.
      rewrite <- (length_snoc done [plus_sign]).
      rewrite (IH _ rest _ ans); [|lia..|by rewrite length_snoc].
      by rewrite <- app_assoc.
Qed.

Lemma second_pass_run answer gs :
  ∀ done counts bs,
    length bs = length gs →
    plus_sign ∉ gs →
    (∀ c, 0 < Counter.get counts c → c ∈ answer) →
    ∃ counts',
      for_each (Submitted.second_pass_body answer)
        (enumerate_from (length done) gs) (done ++ plus_cells gs bs, counts)
      = Some (done ++ ((λ p, [p]) <$> render gs (yellows counts (zip gs bs))),
              counts').
Proof.
  induction gs as [|x gs IH]; intros done counts bs Hbs Hplus Hinv.
  - destruct bs; [|done]. simpl. eauto.
  - destruct bs as [|b bs]; [done|].
    apply not_elem_of_cons in Hplus as [Hx Hplus].
    simpl in Hbs. simpl. rewrite list_lookup_middle by done. simpl.
    destruct b; simpl.
    + rewrite (bool_decide_eq_false_2 (_ = _)) by congruence. simpl.
      rewrite keep_at_end, <- (length_snoc done [x]).
      destruct (IH (done ++ [[x]]) counts bs) as [counts' ->];
        [lia|done..|].
      exists counts'. by rewrite <- app_assoc.
    + destruct (decide (0 < Counter.get counts x)) as [Hpos|Hpos].
      * rewrite (bool_decide_eq_true_2 (0 < _)) by done.
        rewrite (bool_decide_eq_true_2 (_ ∈ _)) by auto. simpl.
        rewrite insert_at_end, <- (length_snoc done [minus_sign]).
        destruct (IH (done ++ [[minus_sign]]) (Counter.decr counts x) bs)
          as [counts' ->]; [lia|done| |].
        { intros c. rewrite get_decr. intros. apply Hinv.
          destruct (decide (x = c)); lia. }
        exists counts'. by rewrite <- app_assoc.
      * rewrite (bool_decide_eq_false_2 (0 < _)) by done.
        rewrite andb_false_r. simpl.
        rewrite keep_at_end, <- (length_snoc done [plus_sign]).
        destruct (IH (done ++ [[plus_sign]]) counts bs) as [counts' ->];
          [lia|done..|].
        exists counts'. by rewrite <- app_assoc.
Qed.

Lemma greens_length g a : (length g ≤ length a)%nat → length (greens g a) = length g.
Proof. intros. unfold greens. rewrite length_zip_with. lia. Qed.

(** [get_matches] returns the rendering of the two-pass rule, whenever
    the answer is at least as long as the guess and the guess holds no
    plus sign. *)
Lemma get_matches_score g a :
  (length g ≤ length a)%nat →
  plus_sign ∉ g →
  Submitted.get_matches g a = Some (render g (score g a)).
Proof.
  intros Hlen Hplus. unfold Submitted.get_matches, enumerate.
  pose proof (first_pass_run a g [] (replicate (length g) [])
                (Counter.of_str a) a) as H1.
  simpl in H1. rewrite H1; [|by rewrite length_replicate|done..].
  simpl.
  destruct (second_pass_run a g [] (after_greens (Counter.of_str a) g a)
              (greens g a)) as [counts' H2].
  - by apply greens_length.
  - done.
  - intros c. rewrite get_after_greens, get_of_str.
    pose proof (matched_nonneg c g a). intros.
    apply str_count_pos_elem. lia.
  - simpl in H2. rewrite H2. simpl. by rewrite concat_singletons.
Qed.
(** **** [_get_pattern] *)

Lemma decr_lookup counts x v :
  counts !! x = Some v → <[x := v - 1]> counts = Counter.decr counts x.
Proof. intros Hv. unfold Counter.decr, Counter.get. by rewrite Hv. Qed.

Lemma get_lookup counts x v : counts !! x = Some v → Counter.get counts x = v.
Proof. intros Hv. unfold Counter.get. by rewrite Hv. Qed.

Lemma green_run guess target gs :
  ∀ done counts ans,
    drop (length done) guess = gs →
    drop (length done) target = ans →
    length ans = length gs →
    (∀ c, c ∈ target → is_Some (counts !! c)) →
    for_each (Vitto.green_body guess target)
      (seq (length done) (length gs))
      (done ++ replicate (length gs) None, counts)
    = Some (done ++ none_cells gs (greens gs ans),
            after_greens counts gs ans).
Proof.
  induction gs as [|x gs IH]; intros done counts ans Hg Ha Hlen Hkeys.
  - destruct ans; [|done]. done.
  - destruct ans as [|y ans]; [done|].
    apply drop_cons_inv in Hg as [Hx Hg].
    apply drop_cons_inv in Ha as [Hy Ha].
    simpl in Hlen. simpl. rewrite Hx. simpl. rewrite Hy. simpl.
    destruct (decide (x = y)) as [->|Hne].
    + destruct (Hkeys y) as [v Hv]; [by eapply list_elem_of_lookup_2|].
      rewrite Hv. simpl. rewrite bool_decide_eq_true_2 by done.
      rewrite insert_at_end, (decr_lookup _ _ _ Hv). simpl.
      rewrite <- (length_snoc done (Some y)).
      rewrite (IH _ _ ans); [|by rewrite length_snoc..|lia|].
      * by rewrite <- app_assoc.
      * intros c Hc. unfold Counter.decr. rewrite lookup_insert.
        case_decide; [eauto|by apply Hkeys].
    + rewrite bool_decide_eq_false_2 by done.
      rewrite keep_at_end. simpl. rewrite <- (length_snoc done None).
      rewrite (IH _ _ ans); [|by rewrite length_snoc..|lia|done].
      by rewrite <- app_assoc.
Qed.

Lemma yellow_gray_run guess gs :
  ∀ done counts bs,
    drop (length done) guess = gs →
    length bs = length gs →
    ∃ counts',
      for_each (Vitto.yellow_gray_body guess)
        (seq (length done) (length gs)) (done ++ none_cells gs bs, counts)
      = Some (done ++ (Some <$> render gs (yellows counts (zip gs bs))),
              counts').
Proof.
  induction gs as [|x gs IH]; intros done counts bs Hg Hbs.
  - destruct bs; [|done]. simpl. eauto.
  - destruct bs as [|b bs]; [done|].
    apply drop_cons_inv in Hg as [Hx Hg].
    simpl in Hbs. simpl. rewrite list_lookup_middle by done. simpl.
    destruct b; simpl.
    + rewrite keep_at_end. simpl. rewrite <- (length_snoc done (Some x)).
      destruct (IH (done ++ [Some x]) counts bs) as [counts' ->];
        [by rewrite length_snoc|lia|].
      exists counts'. by rewrite <- app_assoc.
    + rewrite Hx. simpl.
      destruct (counts !! x) as [v|] eqn:Hv.
      * rewrite (get_lookup _ _ _ Hv).
        case_bool_decide as Hpos.
        -- rewrite insert_at_end, (decr_lookup _ _ _ Hv). simpl.
           rewrite <- (length_snoc done (Some minus_sign)).
           destruct (IH (done ++ [Some minus_sign]) (Counter.decr counts x) bs)
             as [counts' ->]; [by rewrite length_snoc|lia|].
           exists counts'. by rewrite <- app_assoc.
        -- rewrite insert_at_end. simpl.
           rewrite <- (length_snoc done (Some plus_sign)).
           destruct (IH (done ++ [Some plus_sign]) counts bs)
             as [counts' ->]; [by rewrite length_snoc|lia|].
           exists counts'. by rewrite <- app_assoc.
      * assert (Counter.get counts x = 0) as ->
          by (unfold Counter.get; by rewrite Hv).
        rewrite bool_decide_eq_false_2 by lia.
        rewrite insert_at_end. simpl.
        rewrite <- (length_snoc done (Some plus_sign)).
        destruct (IH (done ++ [Some plus_sign]) counts bs)
          as [counts' ->]; [by rewrite length_snoc|lia|].
        exists counts'. by rewrite <- app_assoc.
Qed.

(** [_get_pattern] returns the rendering of the two-pass rule on two
    strings of five characters. *)
Lemma _get_pattern_score g a :
  length g = 5%nat →
  length a = 5%nat →
  Vitto._get_pattern g a = Some (render g (score g a)).
Proof.
  intros Hg Ha. unfold Vitto._get_pattern.
  pose proof (green_run g a g [] (foldl Counter.incr ∅ a) a) as H1.
  rewrite Hg in H1. cbn [length app] in H1.
  rewrite H1; [|done|done|lia|].
  2:{ intros c Hc. apply lookup_foldl_incr. by left. }
  cbn [mbind option_bind].
  destruct (yellow_gray_run g g [] (after_greens (foldl Counter.incr ∅ a) g a)
              (greens g a)) as [counts' H2]; [done|apply greens_length; lia|].
  rewrite Hg in H2. cbn [length app] in H2. rewrite H2.
  cbn [mbind option_bind fst].
  apply mapM_fmap_Some. done.
Qed.
End Scorers.

(** *** Reading the marks off a feedback string *)

Section Marks.
Implicit Types (c x y p : ascii) (g a fb : list ascii) (ms : list mark).

Lemma mark_of_wire x m :
  x ≠ plus_sign → x ≠ minus_sign → mark_of (wire x m) = m.
Proof.
  intros Hp Hm. unfold mark_of.
  destruct m; simpl; [by rewrite !decide_False|done..].
Qed.

Lemma marks_of_render g ms :
  mark_free g → length ms = length g → mark_of <$> render g ms = ms.
Proof.
  intros [Hp Hm]. revert ms.
  induction g as [|x g IH]; intros [|m ms] Hlen; try done.
  apply not_elem_of_cons in Hp as [Hxp Hp].
  apply not_elem_of_cons in Hm as [Hxm Hm].
  unfold render. csimpl. rewrite mark_of_wire by done.
  f_equal. apply IH; [done..|]. simpl in Hlen. lia.
Qed.

Lemma render_length g ms :
  length ms = length g → length (render g ms) = length g.
Proof. intros. unfold render. rewrite length_zip_with. lia. Qed.

Lemma score_lookup_exact g a i x y :
  g !! i = Some x → a !! i = Some y →
  ∃ m, score g a !! i = Some m ∧ (m = Exact ↔ x = y).
Proof.
  intros Hx Hy. unfold score.
  destruct (yellows_lookup_exact (after_greens (Counter.of_str a) g a)
              (zip g (greens g a)) i x (bool_decide (x = y)))
    as (m & Hm & Hiff).
  - unfold greens. apply lookup_zip_with_Some. exists x, (bool_decide (x = y)).
    split_and!; [done..|].
    apply lookup_zip_with_Some. eauto.
  - exists m. split; [done|]. rewrite Hiff. apply bool_decide_eq_true.
Qed.

Lemma is_lower_mark_free g : Forall is_lower g → mark_free g.
Proof.
  intros Hl. split; intros Hin;
    (eapply Forall_forall in Hl; [|exact Hin]);
    unfold is_lower, plus_sign, minus_sign in Hl;
    change (nat_of_ascii "+") with 43%nat in Hl;
    change (nat_of_ascii "-") with 45%nat in Hl; lia.
Qed.

Lemma score_self counts g :
  yellows counts (zip g (greens g g)) = replicate (length g) Exact.
Proof.
  induction g as [|x g IH]; simpl; [done|].
  rewrite bool_decide_eq_true_2 by done. by rewrite IH.
Qed.

Lemma render_exact g : render g (replicate (length g) Exact) = g.
Proof.
  unfold render. induction g as [|x g IH]; simpl; [done|]. by rewrite IH.
Qed.
End Marks.

(** ** Claims on the feedback scorer *)

(** C1. For a guess [g] and an answer [a] of five characters, [g] holding
    no feedback sign, [get_matches] and [_get_pattern] return the same
    string [fb]; a position of [fb] decodes to [Exact] exactly where guess
    and answer agree, and it then shows the letter itself; for every letter
    [c] the positions of [g] holding [c] and marked [Exact] or [Present]
    number at most the multiplicity of [c] in [a]; and when [c] occurs more
    often in [g] than in [a], exactly as many as [a] has are so marked and
    the remaining ones are marked [Absent]. *)
Theorem two_pass_feedback_marks (g a : list ascii) :
  length g = 5%nat → length a = 5%nat → mark_free g →
  ∃ fb,
    Submitted.get_matches g a = Some fb ∧
    Vitto._get_pattern g a = Some fb ∧
    length fb = 5%nat ∧
    (∀ i x y p, g !! i = Some x → a !! i = Some y → fb !! i = Some p →
       (mark_of p = Exact ↔ x = y) ∧ (x = y → p = x)) ∧
    (∀ c, tally c Exact g (mark_of <$> fb) + tally c Present g (mark_of <$> fb)
          ≤ str_count c a) ∧
    (∀ c, str_count c a < str_count c g →
       tally c Exact g (mark_of <$> fb) + tally c Present g (mark_of <$> fb)
       = str_count c a ∧
       tally c Absent g (mark_of <$> fb) = str_count c g - str_count c a).
Proof.
  intros Hg Ha Hfree.
  assert (length (score g a) = length g) as Hlen
    by (rewrite score_length; lia).
  exists (render g (score g a)).
  rewrite marks_of_render by done.
  split; [apply get_matches_score; [lia|apply Hfree]|].
  split; [by apply _get_pattern_score|].
  split; [rewrite render_length; done|].
  split; [|split].
  - intros i x y p Hx Hy Hp.
    destruct (score_lookup_exact g a i x y Hx Hy) as (m & Hm & Hiff).
    unfold render in Hp. apply lookup_zip_with_Some in Hp
      as (x' & m' & -> & Hx' & Hm').
    assert (x' = x) as -> by congruence.
    assert (m' = m) as -> by congruence.
    assert (x ≠ plus_sign ∧ x ≠ minus_sign) as [Hxp Hxm].
    { destruct Hfree as [Hp Hmn].
      split; intros ->; [apply Hp|apply Hmn]; by eapply list_elem_of_lookup_2. }
    rewrite mark_of_wire by done. split; [done|].
    intros Hxy. apply Hiff in Hxy as ->. done.
  - intros c. rewrite score_credit by lia. lia.
  - intros c Hover.
    pose proof (tally_total c g (score g a) Hlen) as Htot.
    pose proof (score_credit g a c ltac:(lia)) as Hcr.
    lia.
Qed.

(** C9. Scoring a word against itself returns the word: every position is
    [Exact], so the string has length five and shows neither sign. *)
Theorem get_matches_self (w : list ascii) :
  is_word w →
  Submitted.get_matches w w = Some w ∧
  length w = 5%nat ∧ (plus_sign ∉ w) ∧ (minus_sign ∉ w) ∧
  Forall (λ p, mark_of p = Exact) w.
Proof.
  intros [Hlen Hlow].
  pose proof (is_lower_mark_free w Hlow) as Hfree.
  split_and!; [|done|apply Hfree..|].
  - rewrite get_matches_score by (done || apply Hfree).
    unfold score. by rewrite score_self, render_exact.
  - apply Forall_forall. intros p Hp. destruct Hfree as [H1 H2].
    unfold mark_of. rewrite !decide_False; [done|intros ->; contradiction..].
Qed.

Section Transparency.
Import Submitted.

Lemma memo_ok_empty : memo_ok no_memo.
Proof. split; intros ???; simpl; by rewrite lookup_empty. Qed.

Lemma transparent_ret {A} (x : A) : transparent (ret x) (Some x).
Proof. intros memo Hok. by exists memo. Qed.

Lemma transparent_lift {A} (o : option A) : transparent (lift o) o.
Proof. intros memo Hok. destruct o; [by exists memo|done]. Qed.

Lemma transparent_bind {A B} (c : M A) (k : A → M B) o k' :
  transparent c o →
  (∀ x, transparent (k x) (k' x)) →
  transparent (bind c k) (o ≫= k').
Proof.
  intros Hc Hk memo Hok. specialize (Hc memo Hok). unfold bind.
  destruct o as [x|]; simpl.
  - destruct Hc as (memo' & -> & Hok'). apply Hk, Hok'.
  - rewrite Hc. by destruct (k' <$> None).
Qed.

Lemma transparent_for_each {A S} (body : S → A → M S) body' l :
  (∀ s x, transparent (body s x) (body' s x)) →
  ∀ s, transparent (for_eachM body l s) (for_each body' l s).
Proof.
  intros Hbody. induction l as [|x l IH]; intros s; simpl.
  - apply transparent_ret.
  - apply transparent_bind; [apply Hbody|apply IH].
Qed.

Lemma transparent_get_matches g a :
  transparent (get_matches_memo g a) (get_matches g a).
Proof.
  intros memo [Hgm Hpd]. unfold get_matches_memo.
  destruct (matches_memo memo !! (g, a)) as [fb|] eqn:Hhit.
  - rewrite (Hgm _ _ _ Hhit). by exists memo.
  - destruct (get_matches g a) as [fb|] eqn:Hfb; simpl; [|done].
    eexists. split; [done|]. split; simpl; [|done].
    intros g' a' fb'. rewrite lookup_insert.
    case_decide as Heq; [|apply Hgm].
    injection Heq as <- <-. congruence.
Qed.

Lemma transparent_distribution_body g cs :
  transparent (pattern_distribution_body g cs) (Pure.distribution g cs).
Proof.
  apply transparent_for_each. intros d answer.
  apply transparent_bind; [apply transparent_get_matches|].
  intros pattern. apply transparent_ret.
Qed.

Lemma transparent_distribution g cs :
  transparent (pattern_distribution g cs) (Pure.distribution g cs).
Proof.
  intros memo Hok. unfold pattern_distribution.
  destruct (distribution_memo memo !! (g, cs)) as [d|] eqn:Hhit.
  - destruct Hok as [Hgm Hpd]. rewrite (Hpd _ _ _ Hhit). by exists memo.
  - pose proof (transparent_distribution_body g cs memo Hok) as Hbody.
    destruct (Pure.distribution g cs) as [d|] eqn:Hd.
    + destruct Hbody as (memo' & -> & [Hgm Hpd]).
      eexists. split; [done|]. split; simpl; [done|].
      intros g' cs' d'. rewrite lookup_insert.
      case_decide as Heq; [|apply Hpd].
      injection Heq as <- <-. congruence.
    + by rewrite Hbody.
Qed.

Lemma transparent_filter lg result cs :
  transparent (filter_candidates lg result cs)
    (Pure.filter_candidates lg result cs).
Proof.
  apply transparent_for_each. intros kept word.
  apply transparent_bind; [apply transparent_get_matches|].
  intros fb. apply transparent_ret.
Qed.

Section Ranking.
Variable fl : FloatOps.

Lemma transparent_entropy g cs :
  transparent (entropy fl g cs) (Pure.entropy fl g cs).
Proof.
  apply transparent_bind; [apply transparent_distribution|].
  intros d. apply transparent_lift.
Qed.

Lemma transparent_max_scan {A} (key : A → M (float fl)) key' l x v :
  (∀ y, transparent (key y) (key' y)) →
  transparent (max_scan fl key l x v) (Pure.max_scan fl key' l x v).
Proof.
  intros Hkey. apply transparent_bind.
  - apply transparent_for_each. intros [mi mv] item.
    apply transparent_bind; [apply Hkey|]. intros val.
    apply transparent_ret.
  - intros st. apply transparent_ret.
Qed.

Lemma transparent_py_max {A} (key : A → M (float fl)) key' l :
  (∀ y, transparent (key y) (key' y)) →
  transparent (py_max fl key l) (Pure.py_max fl key' l).
Proof.
  intros Hkey. destruct l as [|x l]; simpl.
  - apply (transparent_lift None).
  - apply transparent_bind; [apply Hkey|]. intros v.
    by apply transparent_max_scan.
Qed.

Lemma transparent_select_best pool cs :
  transparent (select_best fl pool cs) (Pure.select_best fl pool cs).
Proof. apply transparent_py_max. intros y. apply transparent_entropy. Qed.

Lemma transparent_best_word_scan pool cs :
  transparent (best_word_scan fl pool cs)
    (Pure.best_word_scan fl pool cs).
Proof.
  apply transparent_bind.
  - apply transparent_for_each. intros [bw be] word.
    apply transparent_bind; [apply transparent_entropy|]. intros e.
    apply transparent_ret.
  - intros st. apply transparent_ret.
Qed.
End Ranking.
End Transparency.

(** ** When the computations return *)

Section Totality.
Import Submitted.
Implicit Types (g a result : list ascii) (cs pool : list (list ascii)).

Lemma elem_of_enumerate_from {A} (l : list A) i j (x : A) :
  (j, x) ∈ enumerate_from i l → (j < i + length l)%nat.
Proof.
  revert i. induction l as [|y l IH]; intros i Hin; simpl in *.
  - by apply elem_of_nil in Hin.
  - apply elem_of_cons in Hin as [Heq|Hin]; [injection Heq; lia|].
    apply IH in Hin. lia.
Qed.

Lemma second_pass_total answer (l : list (nat * ascii)) :
  ∀ fb counts,
    (∀ j x, (j, x) ∈ l → (j < length fb)%nat) →
    is_Some (for_each (second_pass_body answer) l (fb, counts)).
Proof.
  induction l as [|[j x] l IH]; intros fb counts Hidx; simpl; [eauto|].
  destruct (lookup_lt_is_Some_2 fb j) as [cell Hcell];
    [apply (Hidx j x); left|].
  rewrite Hcell. simpl.
  destruct (_ && _); simpl; apply IH; intros j' x' Hin;
    rewrite ?length_insert; apply (Hidx j' x'); by right.
Qed.

(** [get_matches] returns whenever the answer is at least as long as the
    guess. *)
Lemma get_matches_total g a :
  (length g ≤ length a)%nat → is_Some (get_matches g a).
Proof.
  intros Hlen. unfold get_matches, enumerate.
  pose proof (first_pass_run a g [] (replicate (length g) [])
                (Counter.of_str a) a) as H1.
  cbn [length app] in H1. rewrite H1; [|by rewrite length_replicate|done..].
  cbn [mbind option_bind].
  destruct (second_pass_total a (enumerate_from 0 g)
              (plus_cells g (greens g a))
              (after_greens (Counter.of_str a) g a)) as [st ->]; [|by eexists].
  intros j x Hin. apply elem_of_enumerate_from in Hin.
  unfold plus_cells. rewrite length_zip_with, greens_length by done. lia.
Qed.

(** The filtering step keeps the candidates whose feedback is the
    observed one, in their order. *)
Lemma filter_candidates_from g result cs :
  Forall (λ w, is_Some (get_matches g w)) cs →
  ∀ kept,
    for_each
      (λ kept word,
         fb ← get_matches g word;
         Some (if decide (fb = result) then kept ++ [word] else kept))
      cs kept
    = Some (kept ++ filter (λ w, get_matches g w = Some result) cs).
Proof.
  induction 1 as [|w cs [fb Hfb] _ IH]; intros kept; simpl.
  - by rewrite app_nil_r.
  - rewrite Hfb. simpl. rewrite IH, filter_cons.
    destruct (decide (fb = result)) as [->|Hne].
    + rewrite decide_True by done. by rewrite <- app_assoc.
    + rewrite decide_False by congruence. done.
Qed.

Lemma pure_filter_candidates g result cs :
  Forall (λ w, is_Some (get_matches g w)) cs →
  Pure.filter_candidates g result cs
  = Some (filter (λ w, get_matches g w = Some result) cs).
Proof. intros H. apply (filter_candidates_from g result cs H []). Qed.

Lemma distribution_total g cs :
  Forall (λ w, is_Some (get_matches g w)) cs →
  is_Some (Pure.distribution g cs).
Proof.
  intros Hall. unfold Pure.distribution.
  generalize (@nil (list ascii * Z)) as d.
  induction Hall as [|w cs [fb Hfb] _ IH]; intros d; simpl; [eauto|].
  rewrite Hfb. simpl. apply IH.
Qed.

Section Ranking.
Variable fl : FloatOps.

Lemma entropy_sum_total total values :
  total ≠ 0 → ∀ e0,
    is_Some (for_each
      (λ entropy count,
         if decide (total = 0) then None
         else let p := truediv fl count total in
              Some (fsub fl entropy (fmul fl p (log2 fl p))))
      values e0).
Proof.
  intros Hne. induction values as [|v values IH]; intros e0; simpl; [eauto|].
  rewrite decide_False by done. simpl. apply IH.
Qed.

Lemma entropy_total g cs :
  cs ≠ [] →
  Forall (λ w, is_Some (get_matches g w)) cs →
  is_Some (Pure.entropy fl g cs).
Proof.
  intros Hne Hall. unfold Pure.entropy.
  destruct (distribution_total g cs Hall) as [d ->]. simpl.
  apply entropy_sum_total. destruct cs; [done|simpl; lia].
Qed.

(** [max] returns a member of a non-empty sequence whose keys are all
    defined. *)
Lemma max_scan_member {A} (key : A → option (float fl)) l :
  Forall (λ x, is_Some (key x)) l →
  ∀ x v, ∃ r, Pure.max_scan fl key l x v = Some r ∧ (r = x ∨ r ∈ l).
Proof.
  unfold Pure.max_scan.
  induction 1 as [|y l [vy Hy] _ IH]; intros x v; simpl.
  - exists x. eauto.
  - rewrite Hy. simpl. destruct (fgt fl vy v).
    + destruct (IH y vy) as (r & Hr & Hin). exists r. split; [done|].
      right. destruct Hin as [->|Hin]; [by left|by right].
    + destruct (IH x v) as (r & Hr & Hin). exists r. split; [done|].
      destruct Hin as [->|Hin]; [by left|right; by right].
Qed.

Lemma py_max_member {A} (key : A → option (float fl)) l :
  l ≠ [] →
  Forall (λ x, is_Some (key x)) l →
  ∃ r, Pure.py_max fl key l = Some r ∧ r ∈ l.
Proof.
  intros Hne Hall. destruct l as [|x l]; [done|].
  apply Forall_cons in Hall as [[v Hv] Hall]. simpl. rewrite Hv. simpl.
  destruct (max_scan_member key l Hall x v) as (r & Hr & Hin).
  exists r. split; [done|]. destruct Hin as [->|Hin]; [by left|by right].
Qed.

Lemma select_best_member pool cs :
  pool ≠ [] → cs ≠ [] →
  (∀ c w, c ∈ pool → w ∈ cs → (length c ≤ length w)%nat) →
  ∃ r, Pure.select_best fl pool cs = Some r ∧ r ∈ pool.
Proof.
  intros Hpool Hcs Hlen. apply py_max_member; [done|].
  apply Forall_forall. intros c Hc. apply entropy_total; [done|].
  apply Forall_forall. intros w Hw. apply get_matches_total. by apply Hlen.
Qed.
End Ranking.
End Totality.

(** ** Claims on [get_guess] of [guesser_submitted.py] *)

Section GetGuess.
Import Submitted.
Variable fl : FloatOps.
Implicit Types (self : Guesser) (memo : Memo).
Implicit Types (g lg result typed : list ascii) (cs : list (list ascii)).

(** The filtering step only writes to the table of [get_matches]. *)
Lemma get_matches_memo_frame g a memo fb memo' :
  get_matches_memo g a memo = Some (fb, memo') →
  distribution_memo memo' = distribution_memo memo.
Proof.
  unfold get_matches_memo. destruct (matches_memo memo !! (g, a)).
  - by intros [= _ <-].
  - destruct (get_matches g a); simpl; [|done]. by intros [= _ <-].
Qed.

Lemma for_eachM_frame {A S} (body : S → A → M S) (l : list A) :
  (∀ s x memo s' memo', body s x memo = Some (s', memo') →
     distribution_memo memo' = distribution_memo memo) →
  ∀ s memo s' memo', for_eachM body l s memo = Some (s', memo') →
    distribution_memo memo' = distribution_memo memo.
Proof.
  intros Hbody. induction l as [|x l IH]; intros s memo s' memo'; simpl.
  - by intros [= _ <-].
  - unfold bind at 1.
    destruct (body s x memo) as [[s1 memo1]|] eqn:Hstep; [|done].
    intros Hrest. apply IH in Hrest. rewrite Hrest.
    by eapply Hbody.
Qed.

Lemma filter_candidates_frame lg result cs memo kept memo' :
  filter_candidates lg result cs memo = Some (kept, memo') →
  distribution_memo memo' = distribution_memo memo.
Proof.
  apply for_eachM_frame. clear. intros acc w memo acc' memo'.
  unfold bind.
  destruct (get_matches_memo lg w memo) as [[fb memo1]|] eqn:Hgm; [|done].
  intros [= _ <-]. by eapply get_matches_memo_frame.
Qed.

(** What the filtering step of [get_guess] computes from sound tables. *)
Lemma filter_candidates_sound lg result cs memo :
  memo_ok memo →
  Forall (λ w, length lg ≤ length w)%nat cs →
  ∃ memo',
    filter_candidates lg result cs memo
    = Some (filter (λ w, get_matches lg w = Some result) cs, memo') ∧
    memo_ok memo' ∧
    distribution_memo memo' = distribution_memo memo.
Proof.
  intros Hok Hlen.
  pose proof (transparent_filter lg result cs memo Hok) as Ht.
  rewrite pure_filter_candidates in Ht.
  - destruct Ht as (memo' & Hrun & Hok'). exists memo'.
    split_and!; [done..|]. by eapply filter_candidates_frame.
  - eapply Forall_impl; [exact Hlen|]. intros w. apply get_matches_total.
Qed.

(** [get_guess] once the filtering step has run. *)
Lemma get_guess_filtered self typed result memo lg kept memo1 :
  _manual self = false →
  last_guess self = Some lg →
  filter_candidates lg result (candidates self) memo = Some (kept, memo1) →
  get_guess fl self typed result memo
  = (if bool_decide (_tried self = []) then
       ret (emit self kept (best_first_word self))
     else if bool_decide (length kept = 1%nat) then
       bind (lift (kept !! 0%nat)) (λ guess, ret (emit self kept guess))
     else
       let cands :=
         if bool_decide (kept = [])
         then filter (λ w, w ∉ _tried self) (word_list self)
         else kept in
       let candidates_to_consider := filter (λ w, w ∉ _tried self) cands in
       let candidates_to_consider :=
         if bool_decide (candidates_to_consider = []) then cands
         else candidates_to_consider in
       bind (select_best fl candidates_to_consider cands)
         (λ best_guess, ret (emit self cands best_guess))) memo1.
Proof.
  intros Hman Hlast Hrun. unfold get_guess. rewrite Hman, Hlast.
  unfold bind at 1. by rewrite Hrun.
Qed.

Lemma filter_subset (P : list ascii → Prop) `{∀ w, Decision (P w)} cs w :
  w ∈ filter P cs → w ∈ cs.
Proof. intros Hin. by apply list_elem_of_filter in Hin as [_ ?]. Qed.

(** The ranking branch returns a member of its pool. *)
Lemma ranking_returns self cands memo :
  memo_ok memo →
  cands ≠ [] →
  (∀ c w, c ∈ cands → w ∈ cands → length c = length w) →
  let pool := filter (λ w, w ∉ _tried self) cands in
  let pool := if bool_decide (pool = []) then cands else pool in
  ∃ best memo',
    bind (select_best fl pool cands)
      (λ best_guess, ret (emit self cands best_guess)) memo
    = Some (emit self cands best, memo') ∧
    best ∈ pool ∧ best ∈ cands ∧ memo_ok memo'.
Proof.
  intros Hok Hne Hlen pool0 pool.
  assert (pool ≠ [] ∧ ∀ c, c ∈ pool → c ∈ cands) as [Hpool Hsub].
  { subst pool. case_bool_decide as He; [done|].
    split; [done|]. intros c. apply filter_subset. }
  destruct (select_best_member fl pool cands Hpool Hne) as (best & Hbest & Hin).
  { intros c w Hc Hw. rewrite (Hlen c w); auto. }
  pose proof (transparent_select_best fl pool cands memo Hok) as Ht.
  rewrite Hbest in Ht. destruct Ht as (memo' & Hrun & Hok').
  exists best, memo'. unfold bind. rewrite Hrun. auto.
Qed.
(** C3. On a turn with a previous guess [g], the filtering step of
    [get_guess] replaces the candidates [S] by exactly those [w] of [S]
    with [get_matches g w = result], in their order; when some remain,
    they are the candidates [get_guess] leaves behind; the result is no
    longer than [S], and it keeps every word of [S] whose feedback is
    [result]. *)
Theorem filtering_is_exact self typed result memo g :
  _manual self = false →
  last_guess self = Some g →
  memo_ok memo →
  Forall (λ w, length w = length g) (candidates self) →
  let kept :=
    filter (λ w, get_matches g w = Some result) (candidates self) in
  (∃ memo', filter_candidates g result (candidates self) memo
            = Some (kept, memo') ∧ memo_ok memo') ∧
  (kept ≠ [] →
   ∃ guess self' memo',
     get_guess fl self typed result memo = Some ((guess, self'), memo') ∧
     candidates self' = kept) ∧
  (length kept ≤ length (candidates self))%nat ∧
  (∀ a, a ∈ candidates self → get_matches g a = Some result → a ∈ kept).
Proof.
  intros Hman Hlast Hok Hlen kept.
  destruct (filter_candidates_sound g result (candidates self) memo Hok)
    as (memo1 & Hrun & Hok1 & _).
  { eapply Forall_impl; [exact Hlen|]. simpl. intros w ->. done. }
  fold kept in Hrun.
  split_and!.
  - eauto.
  - intros Hne.
    rewrite (get_guess_filtered self typed result memo g kept memo1)
      by done.
    case_bool_decide as Htried; [unfold ret, emit; eauto|].
    case_bool_decide as Hone.
    + destruct kept as [|w [|]] eqn:Hk; try done.
      unfold bind, lift, ret, emit. simpl. eauto.
    + rewrite bool_decide_eq_false_2 by done. cbv zeta.
      destruct (ranking_returns self kept memo1 Hok1 Hne)
        as (best & memo2 & Hbest & _).
      { intros c w Hc Hw. apply filter_subset in Hc, Hw.
        rewrite Forall_forall in Hlen.
        rewrite (Hlen c Hc), (Hlen w Hw). done. }
      cbv zeta in Hbest. rewrite Hbest. unfold emit. eauto.
  - apply length_filter.
  - intros a Ha Hfb. apply list_elem_of_filter. done.
Qed.

(** C8. On a turn after the first, when filtering leaves the single
    candidate [w], [get_guess] returns [w]: it is recorded as tried,
    printed and kept as the last guess, whatever the float arithmetic,
    and the table of [pattern_distribution], which every entropy
    computation goes through, is left as it was. *)
Theorem single_candidate_returned self typed result memo lg w :
  _manual self = false →
  _tried self ≠ [] →
  last_guess self = Some lg →
  memo_ok memo →
  Forall (λ c, length lg ≤ length c)%nat (candidates self) →
  filter (λ c, get_matches lg c = Some result) (candidates self) = [w] →
  ∃ memo',
    get_guess fl self typed result memo
    = Some ((w, {| word_list := word_list self; _manual := false;
                   _tried := _tried self ++ [w]; candidates := [w];
                   last_guess := Some w;
                   best_first_word := best_first_word self;
                   printed := printed self ++ [w] |}), memo') ∧
    distribution_memo memo' = distribution_memo memo ∧
    memo_ok memo'.
Proof.
  intros Hman Htried Hlast Hok Hlen Hone.
  destruct (filter_candidates_sound lg result (candidates self) memo Hok Hlen)
    as (memo1 & Hrun & Hok1 & Hframe).
  rewrite Hone in Hrun. exists memo1.
  rewrite (get_guess_filtered self typed result memo lg [w] memo1)
    by done.
  rewrite bool_decide_eq_false_2 by done.
  rewrite bool_decide_eq_true_2 by done.
  unfold bind, lift, ret, emit. simpl. rewrite Hman. done.
Qed.

(** C2, as the code has it. On a turn after the first, when filtering
    leaves no candidate, [get_guess] replaces the candidates by the
    vocabulary words not yet tried and ranks them as on any other turn:
    it returns one of them, records and prints that guess and nothing
    else, and raises nothing. Only when every vocabulary word has been
    tried does the call fail, [max] being applied to an empty pool. *)
Theorem empty_filter_resets self typed result memo lg :
  _manual self = false →
  _tried self ≠ [] →
  last_guess self = Some lg →
  memo_ok memo →
  Forall (λ w, length w = length lg) (candidates self) →
  (∀ c w, c ∈ word_list self → w ∈ word_list self → length c = length w) →
  filter (λ w, get_matches lg w = Some result) (candidates self) = [] →
  let fresh := filter (λ w, w ∉ _tried self) (word_list self) in
  (fresh ≠ [] →
   ∃ best memo',
     get_guess fl self typed result memo
     = Some ((best, {| word_list := word_list self; _manual := false;
                       _tried := _tried self ++ [best];
                       candidates := fresh;
                       last_guess := Some best;
                       best_first_word := best_first_word self;
                       printed := printed self ++ [best] |}), memo') ∧
     best ∈ fresh ∧ memo_ok memo') ∧
  (fresh = [] → get_guess fl self typed result memo = None).
Proof.
  intros Hman Htried Hlast Hok Hlen Hvoc Hnone fresh.
  destruct (filter_candidates_sound lg result (candidates self) memo Hok)
    as (memo1 & Hrun & Hok1 & _).
  { eapply Forall_impl; [exact Hlen|]. simpl. intros w ->. done. }
  rewrite Hnone in Hrun.
  rewrite (get_guess_filtered self typed result memo lg [] memo1)
    by done.
  rewrite bool_decide_eq_false_2 by done.
  rewrite bool_decide_eq_false_2 by done.
  rewrite bool_decide_eq_true_2 by done. cbv zeta. fold fresh.
  split.
  - intros Hne.
    destruct (ranking_returns self fresh memo1 Hok1 Hne)
      as (best & memo2 & Hbest & Hin & Hin' & Hok2).
    { intros c w Hc Hw. apply filter_subset in Hc, Hw. by apply Hvoc. }
    cbv zeta in Hbest. rewrite Hbest. unfold emit. rewrite Hman.
    exists best, memo2. done.
  - intros ->. simpl. done.
Qed.
End GetGuess.

(** ** Selection: which candidate [max] returns *)

Section FirstMaximal.
Variable fl : FloatOps.
Hypothesis order : float_order fl.
Context {A : Type} (key : A → option (float fl)).

Local Abbreviation first_maximal := (first_maximal fl key).

Lemma first_maximal_singleton x v :
  key x = Some v → first_maximal [x] x v.
Proof.
  intros Hv. split; [done|]. split.
  - intros y ky Hy Hky. apply list_elem_of_singleton in Hy as ->.
    assert (ky = v) as -> by congruence. apply (fgt_irrefl fl order).
  - exists [], []. split; [done|]. intros y ky Hy. by apply elem_of_nil in Hy.
Qed.

Lemma first_maximal_keep seen r kr y ky :
  first_maximal seen r kr → key y = Some ky → fgt fl ky kr = false →
  first_maximal (seen ++ [y]) r kr.
Proof.
  intros (Hr & Hmax & before & after & -> & Hfirst) Hy Hle.
  split; [done|]. split.
  - intros x kx Hx Hkx. apply elem_of_app in Hx as [Hx|Hx]; [eauto|].
    apply list_elem_of_singleton in Hx as ->.
    assert (kx = ky) as -> by congruence. done.
  - exists before, (after ++ [y]). split; [|done].
    by rewrite <- app_assoc.
Qed.

Lemma first_maximal_replace seen r kr y ky :
  first_maximal seen r kr → key y = Some ky → fgt fl ky kr = true →
  first_maximal (seen ++ [y]) y ky.
Proof.
  intros (Hr & Hmax & _) Hy Hgt.
  assert (∀ x kx, x ∈ seen → key x = Some kx →
                  fgt fl kx ky = false ∧ fgt fl ky kx = true) as Hseen.
  { intros x kx Hx Hkx. specialize (Hmax x kx Hx Hkx). split.
    - destruct (fgt fl kx ky) eqn:Hxy; [|done].
      by rewrite (fgt_trans fl order _ _ _ Hxy Hgt) in Hmax.
    - destruct (fgt fl ky kx) eqn:Hyx; [done|].
      by rewrite (fgt_negtrans fl order _ _ _ Hyx Hmax) in Hgt. }
  split; [done|]. split.
  - intros x kx Hx Hkx. apply elem_of_app in Hx as [Hx|Hx].
    + by apply (Hseen x kx).
    + apply list_elem_of_singleton in Hx as ->.
      assert (kx = ky) as -> by congruence. apply (fgt_irrefl fl order).
  - exists seen, []. split; [done|].
    intros x kx Hx Hkx. by apply (Hseen x kx).
Qed.

Lemma max_scan_first_maximal l :
  Forall (λ x, is_Some (key x)) l →
  ∀ seen x v,
    first_maximal seen x v →
    ∃ r kr, Pure.max_scan fl key l x v = Some r ∧
            first_maximal (seen ++ l) r kr.
Proof.
  unfold Pure.max_scan.
  induction 1 as [|y l [vy Hy] _ IH]; intros seen x v Hinv; simpl.
  - exists x, v. by rewrite app_nil_r.
  - rewrite Hy. simpl.
    replace (seen ++ y :: l) with ((seen ++ [y]) ++ l)
      by (by rewrite <- app_assoc).
    destruct (fgt fl vy v) eqn:Hgt.
    + apply IH. by eapply first_maximal_replace.
    + apply IH. by eapply first_maximal_keep.
Qed.

(** [max(l, key=key)] returns the first maximal item of [l]. *)
Lemma py_max_first_maximal l :
  l ≠ [] →
  Forall (λ x, is_Some (key x)) l →
  ∃ r kr, Pure.py_max fl key l = Some r ∧ first_maximal l r kr.
Proof.
  intros Hne Hall. destruct l as [|x l]; [done|].
  apply Forall_cons in Hall as [[v Hv] Hall]. simpl. rewrite Hv. simpl.
  apply (max_scan_first_maximal l Hall [x] x v).
  by apply first_maximal_singleton.
Qed.
End FirstMaximal.

(** Among the candidates of the pool whose entropy is maximal, [max]
    returns the one that comes first in the pool: no candidate has a
    greater entropy than the one returned, and every candidate before it
    has a strictly smaller one. *)
Lemma select_best_first (fl : FloatOps)
    (pool ref : list (list ascii)) (memo : Submitted.Memo) :
  float_order fl →
  memo_ok memo →
  pool ≠ [] → ref ≠ [] →
  (∀ c w, c ∈ pool → w ∈ ref → (length c ≤ length w)%nat) →
  ∃ best kbest memo',
    Submitted.select_best fl pool ref memo = Some (best, memo') ∧
    first_maximal fl (λ c, Pure.entropy fl c ref) pool best kbest ∧
    (pool ⊆ ref → best ∈ ref).
Proof.
  intros Hord Hok Hpool Href Hlen.
  destruct (py_max_first_maximal fl Hord (λ c, Pure.entropy fl c ref) pool)
    as (best & kbest & Hbest & Hfirst); [done| |].
  { apply Forall_forall. intros c Hc. apply entropy_total; [done|].
    apply Forall_forall. intros w Hw. apply get_matches_total. by apply Hlen. }
  pose proof (transparent_select_best fl pool ref memo Hok) as Ht.
  unfold Pure.select_best in Ht. rewrite Hbest in Ht.
  destruct Ht as (memo' & Hrun & _).
  exists best, kbest, memo'. split_and!; [done..|].
  intros Hsub. apply Hsub.
  destruct Hfirst as (_ & _ & before & after & -> & _).
  apply elem_of_app. right. by left.
Qed.

(** C5. Whenever [get_guess] ranks candidates (a turn after the first on
    which filtering does not leave exactly one word), the guess pool is
    drawn from the reference space: the untried words of the candidates
    left, or all of them when none is untried, the candidates being the
    filtered ones or, when filtering left none, the untried vocabulary.
    The guess returned has maximal entropy over the pool (no word of the
    pool has a greater one, and the words before it have a strictly
    smaller one), and it is a member of the reference space, as every
    word of the pool is: among tied candidates a member of the reference
    space exists and one is returned, so that the alphabetical rule for
    ties outside the reference space is never called for. *)
Theorem tied_selection_in_reference (fl : FloatOps)
    (self : Submitted.Guesser) (typed result lg : list ascii)
    (memo : Submitted.Memo) :
  float_order fl →
  Submitted._manual self = false →
  Submitted._tried self ≠ [] →
  Submitted.last_guess self = Some lg →
  memo_ok memo →
  Forall (λ w, length w = length lg) (Submitted.candidates self) →
  (∀ c w, c ∈ Submitted.word_list self → w ∈ Submitted.word_list self →
          length c = length w) →
  let kept :=
    filter (λ w, Submitted.get_matches lg w = Some result)
      (Submitted.candidates self) in
  let ref :=
    if bool_decide (kept = [])
    then filter (λ w, w ∉ Submitted._tried self) (Submitted.word_list self)
    else kept in
  let untried := filter (λ w, w ∉ Submitted._tried self) ref in
  let pool := if bool_decide (untried = []) then ref else untried in
  length kept ≠ 1%nat →
  ref ≠ [] →
  ∃ best kbest self' memo',
    Submitted.get_guess fl self typed result memo
    = Some ((best, self'), memo') ∧
    Submitted.candidates self' = ref ∧
    first_maximal fl (λ c, Pure.entropy fl c ref) pool best kbest ∧
    (∀ c, c ∈ pool → c ∈ ref) ∧
    best ∈ ref.
Proof.
  intros Hord Hman Htried Hlast Hok Hlen Hvoc kept ref untried pool Hone Href.
  destruct (filter_candidates_sound lg result (Submitted.candidates self)
              memo Hok) as (memo1 & Hrun & Hok1 & _).
  { eapply Forall_impl; [exact Hlen|]. simpl. intros w ->. done. }
  fold kept in Hrun.
  rewrite (get_guess_filtered fl self typed result memo lg kept memo1)
    by done.
  rewrite (bool_decide_eq_false_2 (Submitted._tried self = [])) by done.
  rewrite (bool_decide_eq_false_2 (length kept = 1%nat)) by done.
  cbv zeta. fold ref. fold untried. fold pool.
  assert (∀ c w, c ∈ ref → w ∈ ref → length c = length w) as Hsame.
  { subst ref. case_bool_decide.
    - intros c w Hc Hw. apply list_elem_of_filter in Hc as [_ Hc].
      apply list_elem_of_filter in Hw as [_ Hw]. by apply Hvoc.
    - intros c w Hc Hw. apply list_elem_of_filter in Hc as [_ Hc].
      apply list_elem_of_filter in Hw as [_ Hw].
      rewrite Forall_forall in Hlen. by rewrite (Hlen c Hc), (Hlen w Hw). }
  assert (pool ≠ [] ∧ ∀ c, c ∈ pool → c ∈ ref) as [Hpool Hsub].
  { subst pool. case_bool_decide as He; [done|]. split; [done|].
    intros c Hc. by apply list_elem_of_filter in Hc as [_ Hc]. }
  destruct (select_best_first fl pool ref memo1 Hord Hok1 Hpool Href)
    as (best & kbest & memo' & Hbest & Hfirst & Hin).
  { intros c w Hc Hw. rewrite (Hsame c w); auto. }
  exists best, kbest, (Submitted.emit self ref best).2, memo'.
  unfold Submitted.bind. rewrite Hbest. split_and!; [done|done|done|done|].
  apply Hin. intros c. apply Hsub.
Qed.

(** ** An ideal float model and concrete runs *)

Lemma ideal_order : float_order ideal.
Proof.
  split; simpl.
  - intros a. destruct (RIneq.Rgt_dec a a) as [H|]; [|done].
    by apply RIneq.Rgt_irrefl in H.
  - intros a b c.
    destruct (RIneq.Rgt_dec a b) as [Hab|]; [|done].
    destruct (RIneq.Rgt_dec b c) as [Hbc|]; [|done].
    destruct (RIneq.Rgt_dec a c) as [|Hac]; [done|].
    destruct Hac. by eapply RIneq.Rgt_trans.
  - intros a b c.
    destruct (RIneq.Rgt_dec a b) as [|Hab]; [done|].
    destruct (RIneq.Rgt_dec b c) as [|Hbc]; [done|].
    destruct (RIneq.Rgt_dec a c) as [Hac|]; [|done].
    apply RIneq.Rnot_gt_le in Hab, Hbc.
    pose proof (RIneq.Rle_trans _ _ _ Hab Hbc) as Hle.
    by apply RIneq.Rle_not_gt in Hle.
Qed.

(** ** The opening word and the order of a set *)

(** The entropy of a guess against a single candidate, [0.0], exceeds
    the initial [best_entropy] of [best_first_guess]. *)
Lemma ideal_entropy_above :
  fgt ideal
    (fsub ideal (of_int ideal 0)
       (fmul ideal (truediv ideal 1 1) (log2 ideal (truediv ideal 1 1))))
    (of_int ideal (-1)) = true.
Proof.
  simpl. destruct (RIneq.Rgt_dec _ _) as [|Hle]; [done|]. destruct Hle.
  assert (Rdefinitions.Rdiv (Rdefinitions.IZR 1) (Rdefinitions.IZR 1)
          = Rdefinitions.IZR 1) as ->.
  { unfold Rdefinitions.Rdiv. rewrite RIneq.Rinv_1. apply RIneq.Rmult_1_r. }
  rewrite Rpower.ln_1. unfold Rdefinitions.Rdiv.
  rewrite RIneq.Rmult_0_l, RIneq.Rmult_0_r, RIneq.Rminus_0_r.
  apply RIneq.IZR_lt. lia.
Qed.

Section OpeningWord.
Import Submitted.
Variable fl : FloatOps.
Hypothesis irrefl : ∀ k, fgt fl k k = false.
Hypothesis above :
  fgt fl
    (fsub fl (of_int fl 0)
       (fmul fl (truediv fl 1 1) (log2 fl (truediv fl 1 1))))
    (of_int fl (-1)) = true.

(** When every word has the same entropy, above [-1], the scan keeps the
    word it meets first. *)
Lemma scan_of_equals (order : list (list ascii)) (cs : list (list ascii))
    (e : float fl) :
  Forall (λ w, Pure.entropy fl w cs = Some e) order →
  fgt fl e (of_int fl (-1)) = true →
  Pure.best_word_scan fl order cs = Some (head order).
Proof.
  intros Hall He. unfold Pure.best_word_scan.
  destruct Hall as [|w order Hw Hall]; [done|].
  simpl. rewrite Hw. simpl. rewrite He.
  assert (∀ l, Forall (λ w, Pure.entropy fl w cs = Some e) l →
    for_each
      (λ '(best_word, best_entropy) word,
         entropy ← Pure.entropy fl word cs;
         Some (if fgt fl entropy best_entropy then (Some word, entropy)
               else (best_word, best_entropy)))
      l (Some w, e) = Some (Some w, e)) as Hrest.
  { induction 1 as [|v l Hv _ IH]; [done|].
    simpl. rewrite Hv. simpl. by rewrite irrefl. }
  by rewrite Hrest.
Qed.

(** On the vocabulary [lobby] every potential word has the same
    entropy. *)
Lemma pure_scan_keeps_first_met :
  Pure.best_word_scan fl saren_first [str_of "lobby"]
  = Some (Some (str_of "saren")) ∧
  Pure.best_word_scan fl crane_first [str_of "lobby"]
  = Some (Some (str_of "crane")).
Proof.
  split.
  - apply (scan_of_equals saren_first [str_of "lobby"]
             (fsub fl (of_int fl 0)
                (fmul fl (truediv fl 1 1) (log2 fl (truediv fl 1 1)))));
      [|exact above].
    unfold saren_first.
    repeat (apply Forall_cons; split; [vm_compute; reflexivity|]).
    apply Forall_nil_2.
  - apply (scan_of_equals crane_first [str_of "lobby"]
             (fsub fl (of_int fl 0)
                (fmul fl (truediv fl 1 1) (log2 fl (truediv fl 1 1)))));
      [|exact above].
    unfold crane_first.
    repeat (apply Forall_cons; split; [vm_compute; reflexivity|]).
    apply Forall_nil_2.
Qed.

Lemma scan_keeps_first_met memo :
  memo_ok memo →
  fst <$> best_word_scan fl saren_first [str_of "lobby"] memo
  = Some (Some (str_of "saren")) ∧
  fst <$> best_word_scan fl crane_first [str_of "lobby"] memo
  = Some (Some (str_of "crane")).
Proof.
  intros Hok. destruct pure_scan_keeps_first_met as [Hsaren Hcrane].
  pose proof (transparent_best_word_scan fl saren_first [str_of "lobby"]
                memo Hok) as H1.
  pose proof (transparent_best_word_scan fl crane_first [str_of "lobby"]
                memo Hok) as H2.
  rewrite Hsaren in H1. rewrite Hcrane in H2.
  destruct H1 as (memo1 & -> & _). destruct H2 as (memo2 & -> & _). done.
Qed.
End OpeningWord.

Lemma potential_words_lobby :
  Submitted.potential_words [str_of "lobby"] = Some (list_to_set saren_first) ∧
  Submitted.iteration_order (list_to_set saren_first) saren_first ∧
  Submitted.iteration_order (list_to_set saren_first) crane_first.
Proof.
  split_and!.
  - vm_compute. reflexivity.
  - split; [|done].
    apply (bool_decide_eq_true_1 (NoDup saren_first)). vm_compute. reflexivity.
  - split.
    + apply (bool_decide_eq_true_1 (NoDup crane_first)).
      vm_compute. reflexivity.
    + vm_compute. reflexivity.
Qed.

(** C6 fails on the code for [best_first_guess]. On the vocabulary
    [lobby] the set [potential_words] holds the fourteen known good words
    and [lobby], all of entropy [0.0]; the scan keeps the first word it
    meets, so a run that iterates the set from [saren] returns [saren]
    and a run that iterates it from [crane] returns [crane]: two runs on
    the identical vocabulary, from the same tables, return different
    opening words. *)
Theorem best_first_guess_depends_on_set_order :
  Submitted.potential_words [str_of "lobby"]
  = Some (list_to_set saren_first) ∧
  Submitted.iteration_order (list_to_set saren_first) saren_first ∧
  Submitted.iteration_order (list_to_set saren_first) crane_first ∧
  fst <$> Submitted.best_word_scan ideal saren_first [str_of "lobby"]
            Submitted.no_memo
  = Some (Some (str_of "saren")) ∧
  fst <$> Submitted.best_word_scan ideal crane_first [str_of "lobby"]
            Submitted.no_memo
  = Some (Some (str_of "crane")) ∧
  ∃ memo1 memo2,
    Submitted.best_first_guess ideal [str_of "lobby"] Submitted.no_memo
      (Some (Some (str_of "saren"), memo1)) ∧
    Submitted.best_first_guess ideal [str_of "lobby"] Submitted.no_memo
      (Some (Some (str_of "crane"), memo2)).
Proof.
  destruct potential_words_lobby as (Hwords & Horder1 & Horder2).
  destruct (scan_keeps_first_met ideal (fgt_irrefl ideal ideal_order)
              ideal_entropy_above Submitted.no_memo memo_ok_empty)
    as [Hscan1 Hscan2].
  split_and!; [done..|].
  destruct (Submitted.best_word_scan ideal saren_first [str_of "lobby"]
              Submitted.no_memo) as [[w1 memo1]|] eqn:Hrun1; [|done].
  destruct (Submitted.best_word_scan ideal crane_first [str_of "lobby"]
              Submitted.no_memo) as [[w2 memo2]|] eqn:Hrun2; [|done].
  simpl in Hscan1, Hscan2. injection Hscan1 as ->. injection Hscan2 as ->.
  exists memo1, memo2. unfold Submitted.best_first_guess. rewrite Hwords.
  split.
  - exists saren_first. split; [exact Horder1|exact Hrun1].
  - exists crane_first. split; [exact Horder2|exact Hrun2].
Qed.

Section ConcreteRuns.
Import Submitted.
Variable fl : FloatOps.
Hypothesis irrefl : ∀ k, fgt fl k k = false.

Lemma stuck_guesser_run :
  fst <$> filter_candidates (str_of "saren") (str_of "+++e+")
            [str_of "allot"; str_of "lobby"] no_memo
  = Some [] ∧
  fst <$> get_guess fl stuck_guesser [] (str_of "+++e+") no_memo
  = Some (str_of "allot",
          {| word_list := [str_of "allot"; str_of "lobby"];
             _manual := false;
             _tried := [str_of "saren"; str_of "allot"];
             candidates := [str_of "allot"; str_of "lobby"];
             last_guess := Some (str_of "allot");
             best_first_word := str_of "saren";
             printed := [str_of "saren"; str_of "allot"] |}).
Proof.
  split; [vm_compute; reflexivity|].
  vm_compute. rewrite irrefl. reflexivity.
Qed.
End ConcreteRuns.

(** C2, as stated, fails: the secret word [mixed] is not in the
    vocabulary, the feedback to [saren] leaves no candidate, and
    [get_guess] returns the ordinary guess [allot] (a word the feedback
    has excluded), with the candidates back to the whole vocabulary and
    nothing printed but the guess. *)
Lemma silent_reset_counterexample :
  fst <$> Submitted.filter_candidates (str_of "saren") (str_of "+++e+")
            [str_of "allot"; str_of "lobby"] Submitted.no_memo
  = Some [] ∧
  fst <$> Submitted.get_guess ideal stuck_guesser [] (str_of "+++e+")
            Submitted.no_memo
  = Some (str_of "allot",
          {| Submitted.word_list := [str_of "allot"; str_of "lobby"];
             Submitted._manual := false;
             Submitted._tried := [str_of "saren"; str_of "allot"];
             Submitted.candidates := [str_of "allot"; str_of "lobby"];
             Submitted.last_guess := Some (str_of "allot");
             Submitted.best_first_word := str_of "saren";
             Submitted.printed := [str_of "saren"; str_of "allot"] |}).
Proof. exact (stuck_guesser_run ideal (fgt_irrefl ideal ideal_order)). Qed.

(** ** Claims on [attempts/vitto.py] *)

Section Disambiguation.
Import Vitto.
Implicit Types (g : list ascii) (ws ps : list (list ascii)).
Implicit Types (seen : gset (list ascii)).

Lemma disambiguating_from_true seen g ws :
  disambiguating_from seen g ws = Some true ↔
  ∃ ps, Forall2 (λ w p, _get_pattern g w = Some p) ws ps ∧ NoDup ps ∧
        ∀ p, p ∈ ps → p ∉ seen.
Proof.
  revert seen. induction ws as [|w ws IH]; intros seen; simpl.
  - split; [intros _|done]. exists []. split_and!; [done|constructor|].
    intros p Hp. by apply elem_of_nil in Hp.
  - destruct (_get_pattern g w) as [p|] eqn:Hp; simpl.
    + case_bool_decide as Hseen.
      * split; [done|]. intros (ps & Hps & _ & Hfresh).
        apply Forall2_cons_inv_l in Hps as (q & ps' & Hq & _ & ->).
        assert (q = p) as -> by congruence.
        exfalso. apply (Hfresh p); [by left|done].
      * rewrite IH. split.
        -- intros (ps & Hps & Hnd & Hfresh). exists (p :: ps).
           split_and!; [by constructor| |].
           ++ constructor; [|done]. intros Hin. apply (Hfresh p Hin).
              set_solver.
           ++ intros q Hq. apply elem_of_cons in Hq as [->|Hq]; [done|].
              specialize (Hfresh q Hq). set_solver.
        -- intros (ps & Hps & Hnd & Hfresh).
           apply Forall2_cons_inv_l in Hps as (q & ps' & Hq & Hps & ->).
           assert (q = p) as -> by congruence.
           exists ps'. apply NoDup_cons in Hnd as [Hnotin Hnd].
           split_and!; [done..|].
           intros r Hr. assert (r ≠ p) by (intros ->; done).
           assert (r ∉ seen) by (apply Hfresh; by right). set_solver.
    + split; [done|]. intros (ps & Hps & _).
      apply Forall2_cons_inv_l in Hps as (q & ps' & Hq & _). congruence.
Qed.
End Disambiguation.

(** C7. [is_fully_disambiguating(guess, possible_words)] returns [True]
    exactly when the guess scores against every word of [possible_words]
    and the patterns obtained are pairwise distinct. In particular a guess
    accepted for [spade], [space], [spark] gives three distinct patterns,
    and [spade] is such a guess. *)
Theorem fully_disambiguating_iff_distinct :
  (∀ guess possible_words,
     Vitto.is_fully_disambiguating guess possible_words = Some true ↔
     ∃ ps, mapM (Vitto._get_pattern guess) possible_words = Some ps ∧
           NoDup ps) ∧
  (∀ guess,
     Vitto.is_fully_disambiguating guess
       [str_of "spade"; str_of "space"; str_of "spark"] = Some true →
     ∃ p1 p2 p3,
       Vitto._get_pattern guess (str_of "spade") = Some p1 ∧
       Vitto._get_pattern guess (str_of "space") = Some p2 ∧
       Vitto._get_pattern guess (str_of "spark") = Some p3 ∧
       p1 ≠ p2 ∧ p1 ≠ p3 ∧ p2 ≠ p3) ∧
  Vitto.is_fully_disambiguating (str_of "spade")
    [str_of "spade"; str_of "space"; str_of "spark"] = Some true.
Proof.
  assert (∀ guess possible_words,
     Vitto.is_fully_disambiguating guess possible_words = Some true ↔
     ∃ ps, mapM (Vitto._get_pattern guess) possible_words = Some ps ∧
           NoDup ps) as Hiff.
  { intros guess ws. unfold Vitto.is_fully_disambiguating.
    rewrite disambiguating_from_true. setoid_rewrite mapM_Some. split.
    - intros (ps & ? & ? & _). eauto.
    - intros (ps & ? & ?). exists ps. split_and!; [done..|]. set_solver. }
  split_and!; [exact Hiff| |vm_compute; reflexivity].
  intros guess Hacc. apply Hiff in Hacc as (ps & Hps & Hnd).
  apply mapM_Some in Hps.
  apply Forall2_cons_inv_l in Hps as (p1 & ps1 & H1 & Hps & ->).
  apply Forall2_cons_inv_l in Hps as (p2 & ps2 & H2 & Hps & ->).
  apply Forall2_cons_inv_l in Hps as (p3 & ps3 & H3 & Hps & ->).
  exists p1, p2, p3. split_and!; [done..| | |].
  - intros ->. apply NoDup_cons in Hnd as [Hnotin _]. set_solver.
  - intros ->. apply NoDup_cons in Hnd as [Hnotin _]. set_solver.
  - intros ->. apply NoDup_cons in Hnd as [_ Hnd].
    apply NoDup_cons in Hnd as [Hnotin _]. set_solver.
Qed.

(** C4 fails on the code. The feedback of [tower] to the guess [geese] is
    [+-+++]; [pleat] would have answered [++e++], yet [filter_words] keeps
    it: the letter [e] is both yellow and gray in that feedback, and the
    filter never checks that a gray position does not hold its letter. *)
Theorem filter_words_keeps_inconsistent_word :
  Vitto._get_pattern (str_of "geese") (str_of "tower") = Some (str_of "+-+++") ∧
  Vitto._get_pattern (str_of "geese") (str_of "pleat") = Some (str_of "++e++") ∧
  Vitto.filter_words (str_of "geese") (str_of "+-+++")
    [str_of "tower"; str_of "pleat"]
  = Some [str_of "tower"; str_of "pleat"] ∧
  filter (λ w, Vitto._get_pattern (str_of "geese") w = Some (str_of "+-+++"))
    [str_of "tower"; str_of "pleat"]
  = [str_of "tower"].
Proof. split_and!; vm_compute; reflexivity. Qed.

(** ** Claims on [guesser_general.py] *)

Section DummyGuess.
Import General.
Implicit Types (c x : ascii) (s result : list ascii).
Implicit Types (d : list (ascii * Z)) (cands : list (list ascii)).

(** [s.index(c)] is the first position of [s] that holds [c]. *)
Lemma str_index_first c s pos :
  str_index c s = Some pos →
  s !! pos = Some c ∧ ∀ j, (j < pos)%nat → s !! j ≠ Some c.
Proof.
  revert pos. induction s as [|x s IH]; intros pos; simpl; [done|].
  destruct (decide (x = c)) as [->|Hne].
  - intros [= <-]. split; [done|]. intros j Hj. lia.
  - destruct (str_index c s) as [pos'|]; [|done]. simpl. intros [= <-].
    destruct (IH pos' eq_refl) as [Hat Hfirst]. split; [done|].
    intros [|j] Hj; simpl; [congruence|]. apply Hfirst. lia.
Qed.

Lemma str_index_Some c s :
  0 < str_count c s →
  ∃ pos, str_index c s = Some pos ∧ (pos < length s)%nat ∧
         s !! pos = Some c ∧ ∀ j, (j < pos)%nat → s !! j ≠ Some c.
Proof.
  intros Hcount.
  assert (∃ pos, str_index c s = Some pos ∧ (pos < length s)%nat)
    as (pos & Hpos & Hlt).
  { induction s as [|x s IH]; [rewrite str_count_nil in Hcount; lia|].
    rewrite str_count_cons in Hcount. simpl.
    destruct (decide (x = c)) as [->|Hne].
    - exists 0%nat. split; [done|lia].
    - destruct IH as (pos & -> & Hlt); [lia|].
      exists (S pos). split; [done|lia]. }
  exists pos. destruct (str_index_first c s pos Hpos). done.
Qed.

Lemma lookup_letters pos cands :
  Forall (λ w, pos < length w)%nat cands →
  ∃ letters,
    mapM (λ w : list ascii, w !! pos) cands = Some letters ∧
    ∀ c, c ∈ letters → ∃ w, w ∈ cands ∧ w !! pos = Some c.
Proof.
  induction 1 as [|w cands Hlt _ (letters & Hm & Hfrom)].
  - exists []. split; [done|]. intros c Hc. by apply elem_of_nil in Hc.
  - destruct (lookup_lt_is_Some_2 w pos Hlt) as [c Hc].
    exists (c :: letters). split.
    + apply mapM_Some. constructor; [done|]. by apply mapM_Some.
    + intros c' Hc'. apply elem_of_cons in Hc' as [->|Hc'].
      * exists w. split; [by left|done].
      * destruct (Hfrom c' Hc') as (w' & Hw' & Hl). exists w'.
        split; [by right|done].
Qed.

Lemma elem_of_keys_set c x (v : Z) d :
  c ∈ (odict.set x v d).*1 → c = x ∨ c ∈ d.*1.
Proof.
  induction d as [|[k v'] d IH]; simpl.
  - intros Hc. apply list_elem_of_singleton in Hc. by left.
  - destruct (decide (x = k)) as [->|Hne]; simpl.
    + intros Hc. apply elem_of_cons in Hc as [->|Hc]; [by left|].
      right. by right.
    + intros Hc. apply elem_of_cons in Hc as [->|Hc]; [right; by left|].
      destruct (IH Hc) as [->|Hd]; [by left|right; by right].
Qed.

Lemma elem_of_keys_counter c letters :
  c ∈ (letter_counter letters).*1 → c ∈ letters.
Proof.
  unfold letter_counter.
  assert (∀ d, c ∈ (foldl (λ d c, odict.set c (odict.get_default c 0 d + 1) d)
                      d letters).*1 → c ∈ d.*1 ∨ c ∈ letters) as Hgen.
  { induction letters as [|x letters IH]; intros d; simpl; [by left|].
    intros Hc. destruct (IH _ Hc) as [Hd|Hl]; [|right; by right].
    apply elem_of_keys_set in Hd as [->|Hd]; [right; by left|by left]. }
  intros Hc. destruct (Hgen [] Hc) as [Hd|Hl]; [|done].
  by apply elem_of_nil in Hd.
Qed.

Lemma elem_of_insert_by_count (y z : ascii * Z) (l : list (ascii * Z)) :
  z ∈ insert_by_count y l → z = y ∨ z ∈ l.
Proof.
  induction l as [|h l IH]; simpl.
  - intros Hz. apply list_elem_of_singleton in Hz. by left.
  - case_bool_decide.
    + intros Hz. apply elem_of_cons in Hz as [->|Hz]; [right; by left|].
      destruct (IH Hz) as [->|Hl]; [by left|right; by right].
    + intros Hz. apply elem_of_cons in Hz as [->|Hz]; [by left|by right].
Qed.

Lemma elem_of_most_common (z : ascii * Z) d : z ∈ most_common d → z ∈ d.
Proof.
  unfold most_common. induction d as [|y d IH]; simpl; [done|].
  intros Hz. apply elem_of_insert_by_count in Hz as [->|Hz]; [by left|].
  right. by apply IH.
Qed.

Lemma elem_of_common_letters c letters :
  c ∈ (most_common (letter_counter letters)).*1 → c ∈ letters.
Proof.
  intros Hc. apply elem_of_keys_counter.
  apply list_elem_of_fmap in Hc as (z & -> & Hz).
  apply list_elem_of_fmap. exists z. split; [done|].
  by apply elem_of_most_common.
Qed.

Lemma is_lower_a : is_lower "a".
Proof. unfold is_lower. change (nat_of_ascii "a") with 97%nat. lia. Qed.

Lemma pad_or_truncate (common : list ascii) :
  (if bool_decide (length common < 5)%nat
   then common ++ replicate (5 - length common) "a"%char
   else if bool_decide (5 < length common)%nat then take 5 common
        else common)
  = take 5 (common ++ replicate (5 - length common) "a"%char).
Proof.
  case_bool_decide as Hlt.
  - rewrite take_ge; [done|]. rewrite length_app, length_replicate. lia.
  - replace (5 - length common)%nat with 0%nat by lia.
    simpl. rewrite app_nil_r.
    case_bool_decide; [done|]. rewrite take_ge; [done|lia].
Qed.
End DummyGuess.

(** A branch that returns [None]. *)
Ltac returns_none :=
  eexists _, _; split; [reflexivity|intros ? ?; discriminate].

(** C10. On a feedback string of five characters and candidates that are
    words, [try_dummy_guess] returns [None] or a string of exactly five
    lowercase letters: the letters that the candidates hold at the first
    [+] position (the feedback holds [+] there and at no position before
    it), most frequent first, padded with [a] or cut to five. Such a
    string need not be a candidate: from the seven words in [-ight] and
    the feedback [+ight] it is [bflmn], and from [shade], [spade],
    [slade] and the feedback [s+ade], whose [+] is the second character,
    it is [hplaa]. *)
Theorem try_dummy_guess_shape :
  (∀ _tried used_dummy candidates_to_consider result,
     length result = 5%nat →
     Forall is_word candidates_to_consider →
     ∃ r used_dummy',
       General.try_dummy_guess _tried used_dummy candidates_to_consider result
       = Some (r, used_dummy') ∧
       ∀ dummy, r = Some dummy →
         length dummy = 5%nat ∧ Forall is_lower dummy ∧
         ∃ pos letters,
           General.str_index plus_sign result = Some pos ∧
           result !! pos = Some plus_sign ∧
           (∀ j, (j < pos)%nat → result !! j ≠ Some plus_sign) ∧
           mapM (λ w : list ascii, w !! pos) candidates_to_consider
           = Some letters ∧
           let common :=
             (General.most_common (General.letter_counter letters)).*1 in
           dummy = take 5 (common ++ replicate (5 - length common) "a"%char) ∧
           ∀ c, c ∈ common → c ∈ letters) ∧
  (let words := [str_of "bight"; str_of "fight"; str_of "light";
                 str_of "might"; str_of "night"; str_of "right";
                 str_of "tight"] in
   fst <$> General.try_dummy_guess [str_of "crane"; str_of "sight"] ∅ words
             (str_of "+ight")
   = Some (Some (str_of "bflmn")) ∧
   (str_of "bflmn" ∉ words)) ∧
  (let words := [str_of "shade"; str_of "spade"; str_of "slade"] in
   fst <$> General.try_dummy_guess [str_of "crane"; str_of "stade"] ∅ words
             (str_of "s+ade")
   = Some (Some (str_of "hplaa")) ∧
   (str_of "hplaa" ∉ words)).
Proof.
  split_and!.
  - intros tried used cands result Hres Hwords.
    unfold General.try_dummy_guess. simpl negb. cbv iota.
    destruct (_ && _ && _) eqn:Hcond; [|returns_none].
    apply andb_prop in Hcond as [Hcond _].
    apply andb_prop in Hcond as [Hplus _].
    apply bool_decide_eq_true in Hplus.
    simpl andb.
    case_bool_decide as Hused; [returns_none|]. cbv zeta.
    destruct (str_index_Some plus_sign result)
      as (pos & Hpos & Hlt & Hat & Hfirst).
    { unfold General.DUMMY_PLUS_COUNTS in Hplus. set_solver by lia. }
    rewrite Hpos. simpl.
    destruct (lookup_letters pos cands) as (letters & Hletters & Hfrom).
    { eapply Forall_impl; [exact Hwords|]. intros w [Hw _]. simpl. lia. }
    rewrite Hletters. simpl.
    case_bool_decide as Hdistinct; [returns_none|].
    rewrite pad_or_truncate.
    eexists _, _. split; [done|].
    intros dummy [= <-].
    set (common := (General.most_common (General.letter_counter letters)).*1).
    split_and!.
    + rewrite length_take, length_app, length_replicate. lia.
    + apply Forall_take, Forall_app. split.
      * apply Forall_forall. intros c Hc.
        apply elem_of_common_letters, Hfrom in Hc as (w & Hw & Hc).
        rewrite Forall_forall in Hwords. destruct (Hwords w Hw) as [_ Hlow].
        rewrite Forall_forall in Hlow. apply Hlow.
        by eapply list_elem_of_lookup_2.
      * apply Forall_replicate. apply is_lower_a.
    + exists pos, letters. split_and!; [done..|].
      intros c. apply elem_of_common_letters.
  - split; [vm_compute; reflexivity|].
    intros Hin. repeat (apply elem_of_cons in Hin as [Heq|Hin]; [discriminate|]).
    by apply elem_of_nil in Hin.
  - split; [vm_compute; reflexivity|].
    intros Hin. repeat (apply elem_of_cons in Hin as [Heq|Hin]; [discriminate|]).
    by apply elem_of_nil in Hin.
Qed.

(** ** The theorems at concrete games *)

Lemma mark_free_geese : mark_free (str_of "geese").
Proof.
  split; intros Hin;
    repeat (apply elem_of_cons in Hin as [Heq|Hin]; [discriminate|]);
    by apply elem_of_nil in Hin.
Qed.

Lemma is_word_lobby : is_word (str_of "lobby").
Proof.
  split; [reflexivity|].
  repeat constructor; unfold is_lower; simpl; lia.
Qed.

Lemma two_pass_feedback_marks_witness :
  ∃ fb,
    Submitted.get_matches (str_of "geese") (str_of "tower") = Some fb ∧
    Vitto._get_pattern (str_of "geese") (str_of "tower") = Some fb ∧
    length fb = 5%nat ∧
    (∀ i x y p, str_of "geese" !! i = Some x → str_of "tower" !! i = Some y →
       fb !! i = Some p → (mark_of p = Exact ↔ x = y) ∧ (x = y → p = x)) ∧
    (∀ c, tally c Exact (str_of "geese") (mark_of <$> fb)
          + tally c Present (str_of "geese") (mark_of <$> fb)
          ≤ str_count c (str_of "tower")) ∧
    (∀ c, str_count c (str_of "tower") < str_count c (str_of "geese") →
       tally c Exact (str_of "geese") (mark_of <$> fb)
       + tally c Present (str_of "geese") (mark_of <$> fb)
       = str_count c (str_of "tower") ∧
       tally c Absent (str_of "geese") (mark_of <$> fb)
       = str_count c (str_of "geese") - str_count c (str_of "tower")).
Proof.
  apply (two_pass_feedback_marks (str_of "geese") (str_of "tower"));
    [reflexivity|reflexivity|apply mark_free_geese].
Defined.

Lemma get_matches_self_witness :
  Submitted.get_matches (str_of "lobby") (str_of "lobby")
  = Some (str_of "lobby").
Proof. apply (get_matches_self (str_of "lobby") is_word_lobby). Defined.

Lemma filtering_is_exact_witness :
  ∃ guess self' memo',
    Submitted.get_guess ideal after_saren [] (str_of "+++-+") Submitted.no_memo
    = Some ((guess, self'), memo') ∧
    Submitted.candidates self' = [str_of "below"].
Proof.
  refine (proj1 (proj2 (filtering_is_exact ideal after_saren []
            (str_of "+++-+") Submitted.no_memo (str_of "saren")
            eq_refl eq_refl memo_ok_empty _)) _).
  - repeat constructor.
  - discriminate.
Defined.

Lemma single_candidate_returned_witness :
  ∃ memo',
    Submitted.get_guess ideal after_saren [] (str_of "+++-+") Submitted.no_memo
    = Some ((str_of "below",
             {| Submitted.word_list := Submitted.word_list after_saren;
                Submitted._manual := false;
                Submitted._tried := [str_of "saren"; str_of "below"];
                Submitted.candidates := [str_of "below"];
                Submitted.last_guess := Some (str_of "below");
                Submitted.best_first_word := str_of "saren";
                Submitted.printed := [str_of "saren"; str_of "below"] |}),
            memo') ∧
    Submitted.distribution_memo memo' = ∅ ∧
    memo_ok memo'.
Proof.
  refine (single_candidate_returned ideal after_saren [] (str_of "+++-+")
            Submitted.no_memo (str_of "saren") (str_of "below")
            eq_refl _ eq_refl memo_ok_empty _ eq_refl).
  - discriminate.
  - repeat constructor.
Defined.

Lemma same_length_pairs (n : nat) (l : list (list ascii)) :
  Forall (λ w, length w = n) l →
  ∀ c w, c ∈ l → w ∈ l → length c = length w.
Proof.
  intros Hall c w Hc Hw. rewrite Forall_forall in Hall.
  by rewrite (Hall c Hc), (Hall w Hw).
Qed.

Lemma empty_filter_resets_witness :
  ∃ best memo',
    Submitted.get_guess ideal stuck_guesser [] (str_of "+++e+")
      Submitted.no_memo
    = Some ((best,
             {| Submitted.word_list := [str_of "allot"; str_of "lobby"];
                Submitted._manual := false;
                Submitted._tried := [str_of "saren"; best];
                Submitted.candidates := [str_of "allot"; str_of "lobby"];
                Submitted.last_guess := Some best;
                Submitted.best_first_word := str_of "saren";
                Submitted.printed := [str_of "saren"; best] |}), memo') ∧
    best ∈ [str_of "allot"; str_of "lobby"] ∧ memo_ok memo'.
Proof.
  refine (proj1 (empty_filter_resets ideal stuck_guesser [] (str_of "+++e+")
            Submitted.no_memo (str_of "saren")
            eq_refl _ eq_refl memo_ok_empty _ _ eq_refl) _).
  - discriminate.
  - repeat constructor.
  - apply (same_length_pairs 5). repeat constructor.
  - discriminate.
Defined.

Lemma fully_disambiguating_witness :
  ∃ p1 p2 p3,
    Vitto._get_pattern (str_of "spade") (str_of "spade") = Some p1 ∧
    Vitto._get_pattern (str_of "spade") (str_of "space") = Some p2 ∧
    Vitto._get_pattern (str_of "spade") (str_of "spark") = Some p3 ∧
    p1 ≠ p2 ∧ p1 ≠ p3 ∧ p2 ≠ p3.
Proof.
  apply (proj1 (proj2 fully_disambiguating_iff_distinct) (str_of "spade")).
  apply (proj2 (proj2 fully_disambiguating_iff_distinct)).
Defined.

Lemma is_word_ade :
  Forall is_word [str_of "shade"; str_of "spade"; str_of "slade"].
Proof.
  repeat constructor; unfold is_lower; simpl; lia.
Qed.

Lemma try_dummy_guess_shape_witness :
  ∃ r used_dummy',
    General.try_dummy_guess [str_of "crane"; str_of "stade"] ∅
      [str_of "shade"; str_of "spade"; str_of "slade"] (str_of "s+ade")
    = Some (r, used_dummy') ∧
    ∀ dummy, r = Some dummy →
      length dummy = 5%nat ∧ Forall is_lower dummy ∧
      ∃ pos letters,
        General.str_index plus_sign (str_of "s+ade") = Some pos ∧
        str_of "s+ade" !! pos = Some plus_sign ∧
        (∀ j, (j < pos)%nat → str_of "s+ade" !! j ≠ Some plus_sign) ∧
        mapM (λ w : list ascii, w !! pos)
          [str_of "shade"; str_of "spade"; str_of "slade"]
        = Some letters ∧
        let common :=
          (General.most_common (General.letter_counter letters)).*1 in
        dummy = take 5 (common ++ replicate (5 - length common) "a"%char) ∧
        ∀ c, c ∈ common → c ∈ letters.
Proof.
  apply (proj1 try_dummy_guess_shape [str_of "crane"; str_of "stade"] ∅ _
           (str_of "s+ade") eq_refl is_word_ade).
Defined.

(** * Further properties *)

(** ** The scorer of [guesser_general.py] and the errors of [get_matches] *)

Section MoreScorers.
Implicit Types (counts : gmap ascii Z) (c x y : ascii).
Implicit Types (g a gs ans : list ascii) (bs : list bool).

Lemma general_second_pass_run answer gs :
  ∀ done counts ans,
    drop (length done) answer = ans →
    (length gs ≤ length ans)%nat →
    (∀ c, 0 < Counter.get counts c → c ∈ answer) →
    ∃ counts',
      for_each (General.second_pass_body answer)
        (enumerate_from (length done) gs)
        (done ++ plus_cells gs (greens gs ans), counts)
      = Some (done ++ ((λ p, [p]) <$>
                render gs (yellows counts (zip gs (greens gs ans)))),
              counts').
Proof.
  induction gs as [|x gs IH]; intros done counts ans Hdrop Hlen Hinv.
  - simpl. eauto.
  - destruct ans as [|y ans]; [simpl in Hlen; lia|].
    apply drop_cons_inv in Hdrop as [Hy Hdrop].
    simpl in Hlen. simpl. rewrite Hy. simpl.
    destruct (decide (x = y)) as [->|Hne].
    + rewrite (bool_decide_eq_true_2 (y = y)) by done.
      rewrite (bool_decide_eq_false_2 (y ≠ y)) by (intros H; by apply H).
      simpl. rewrite keep_at_end, <- (length_snoc done [y]).
      destruct (IH (done ++ [[y]]) counts ans) as [counts' ->];
        [by rewrite length_snoc|lia|done|].
      exists counts'. by rewrite <- app_assoc.
    + rewrite (bool_decide_eq_false_2 (x = y)) by done.
      rewrite (bool_decide_eq_true_2 (x ≠ y)) by done. simpl.
      destruct (decide (0 < Counter.get counts x)) as [Hpos|Hpos].
      * rewrite (bool_decide_eq_true_2 (0 < _)) by done.
        rewrite (bool_decide_eq_true_2 (_ ∈ _)) by auto. simpl.
        rewrite insert_at_end, <- (length_snoc done [minus_sign]).
        destruct (IH (done ++ [[minus_sign]]) (Counter.decr counts x) ans)
          as [counts' ->]; [by rewrite length_snoc|lia| |].
        { intros c. rewrite get_decr. intros. apply Hinv.
          destruct (decide (x = c)); lia. }
        exists counts'. by rewrite <- app_assoc.
      * rewrite (bool_decide_eq_false_2 (0 < _)) by done.
        rewrite andb_false_r. simpl.
        rewrite keep_at_end, <- (length_snoc done [plus_sign]).
        destruct (IH (done ++ [[plus_sign]]) counts ans) as [counts' ->];
          [by rewrite length_snoc|lia|done|].
        exists counts'. by rewrite <- app_assoc.
Qed.

Lemma get_feedback_score g a :
  (length g ≤ length a)%nat →
  General.get_feedback g a = Some (render g (score g a)).
Proof.
  intros Hlen. unfold General.get_feedback, enumerate.
  pose proof (first_pass_run a g [] (replicate (length g) [])
                (Counter.of_str a) a) as H1.
  cbn [length app] in H1. rewrite H1; [|by rewrite length_replicate|done..].
  cbn [mbind option_bind].
  destruct (general_second_pass_run a g [] (after_greens (Counter.of_str a) g a)
              a) as [counts' H2]; [done..| |].
  - intros c. rewrite get_after_greens, get_of_str.
    pose proof (matched_nonneg c g a). intros.
    apply str_count_pos_elem. lia.
  - cbn [length app] in H2. rewrite H2. cbn [mbind option_bind fst].
    by rewrite concat_singletons.
Qed.

(** The first loop of [get_matches] raises when the answer is shorter
    than the guess. *)
Lemma first_pass_short answer gs :
  ∀ i st,
    (i ≤ length answer < i + length gs)%nat →
    for_each (Submitted.first_pass_body answer) (enumerate_from i gs) st = None.
Proof.
  induction gs as [|x gs IH]; intros i [fb counts] Hlen;
    [simpl in Hlen; lia|].
  simpl. destruct (answer !! i) as [y|] eqn:Hy; [|done]. simpl.
  apply lookup_lt_Some in Hy. simpl in Hlen.
  destruct (decide (x = y)); simpl; apply IH; lia.
Qed.

(** The second loop keeps the number of cells, and keeps every cell one
    character long. *)
Lemma second_pass_cells answer (l : list (nat * ascii)) :
  ∀ fb counts fb' counts',
    for_each (Submitted.second_pass_body answer) l (fb, counts)
    = Some (fb', counts') →
    length fb' = length fb ∧
    (Forall (λ cell, length cell = 1%nat) fb →
     Forall (λ cell, length cell = 1%nat) fb').
Proof.
  induction l as [|[j x] l IH]; intros fb counts fb' counts'; simpl.
  - intros [= <- <-]. done.
  - destruct (fb !! j) as [cell|]; [|done]. simpl.
    destruct (_ && _); simpl; intros Hrun; apply IH in Hrun as [Hlen Hall].
    + rewrite length_insert in Hlen. split; [done|].
      intros Hfb. apply Hall. by apply Forall_insert.
    + done.
Qed.

Lemma length_concat_singletons (cells : list (list ascii)) :
  Forall (λ cell, length cell = 1%nat) cells →
  length (concat cells) = length cells.
Proof.
  induction 1 as [|cell cells Hc _ IH]; simpl; [done|].
  rewrite length_app, Hc, IH. done.
Qed.

Lemma plus_cells_singletons gs bs :
  Forall (λ cell, length cell = 1%nat) (plus_cells gs bs).
Proof.
  unfold plus_cells. revert bs.
  induction gs as [|x gs IH]; intros [|b bs]; simpl; constructor; auto.
Qed.
End MoreScorers.

(** X1. The scorer of [guesser_general.py] computes the two-pass rule on
    every guess that is no longer than the answer, with no condition on
    the characters of the guess; so the three scorers agree: with
    [_get_pattern] on strings of five characters, and with [get_matches]
    on every guess that holds no plus sign. *)
Theorem scorers_agree (g a : list ascii) :
  (length g ≤ length a)%nat →
  General.get_feedback g a = Some (render g (score g a)) ∧
  (length g = 5%nat → length a = 5%nat →
   Vitto._get_pattern g a = General.get_feedback g a) ∧
  (plus_sign ∉ g → Submitted.get_matches g a = General.get_feedback g a).
Proof.
  intros Hlen. rewrite get_feedback_score by done. split_and!; [done| |].
  - intros Hg Ha. by apply _get_pattern_score.
  - intros Hplus. by apply get_matches_score.
Qed.

Lemma scorers_agree_witness :
  General.get_feedback (str_of "geese") (str_of "tower")
  = Some (render (str_of "geese") (score (str_of "geese") (str_of "tower"))) ∧
  (length (str_of "geese") = 5%nat → length (str_of "tower") = 5%nat →
   Vitto._get_pattern (str_of "geese") (str_of "tower")
   = General.get_feedback (str_of "geese") (str_of "tower")) ∧
  (plus_sign ∉ str_of "geese" →
   Submitted.get_matches (str_of "geese") (str_of "tower")
   = General.get_feedback (str_of "geese") (str_of "tower")).
Proof.
  apply (scorers_agree (str_of "geese") (str_of "tower")). simpl. lia.
Defined.

(** X2. [get_matches] raises ([IndexError]) exactly when the answer is
    shorter than the guess; when it returns, the feedback has one
    character for each character of the guess, also when the answer is
    longer. *)
Theorem get_matches_bounds (g a : list ascii) :
  (Submitted.get_matches g a = None ↔ (length a < length g)%nat) ∧
  (∀ fb, Submitted.get_matches g a = Some fb → length fb = length g).
Proof.
  assert ((length a < length g)%nat → Submitted.get_matches g a = None)
    as Hshort.
  { intros Hlt. unfold Submitted.get_matches, enumerate.
    rewrite first_pass_short; [done|simpl; lia]. }
  split.
  - split; [|done].
    intros Hnone. destruct (decide (length a < length g)%nat); [done|].
    destruct (get_matches_total g a) as [fb Hfb]; [lia|congruence].
  - intros fb Hfb.
    assert (length g ≤ length a)%nat as Hlen.
    { destruct (decide (length a < length g)%nat) as [Hlt|]; [|lia].
      rewrite (Hshort Hlt) in Hfb. done. }
    unfold Submitted.get_matches, enumerate in Hfb.
    pose proof (first_pass_run a g [] (replicate (length g) [])
                  (Counter.of_str a) a) as H1.
    cbn [length app] in H1.
    rewrite H1 in Hfb; [|by rewrite length_replicate|done..].
    cbn [mbind option_bind] in Hfb.
    destruct (for_each _ _ _) as [[fb' counts']|] eqn:Hrun; [|done].
    simpl in Hfb. injection Hfb as <-.
    apply second_pass_cells in Hrun as [Hl Hall].
    rewrite length_concat_singletons by (apply Hall, plus_cells_singletons).
    rewrite Hl. unfold plus_cells.
    rewrite length_zip_with, greens_length by done. lia.
Qed.

(** ** The pattern distribution *)

Section Distribution.
Import Submitted.
Implicit Types (d : list (list ascii * Z)) (p k : list ascii) (v : Z).
Implicit Types (g : list ascii) (cs : list (list ascii)) (memo : Memo).

Lemma odict_get_set k' k v d :
  odict.get k' (odict.set k v d)
  = if decide (k' = k) then Some v else odict.get k' d.
Proof.
  induction d as [|[k0 v0] d IH]; simpl.
  - by destruct (decide (k' = k)).
  - destruct (decide (k = k0)) as [->|Hne]; simpl.
    + by destruct (decide (k' = k0)).
    + destruct (decide (k' = k0)) as [->|Hne'].
      * by rewrite decide_False by done.
      * done.
Qed.

Lemma zsum_values_set k v d :
  zsum (odict.values (odict.set k v d))
  = zsum (odict.values d) - odict.get_default k 0 d + v.
Proof.
  unfold odict.values, odict.get_default.
  induction d as [|[k0 v0] d IH]; simpl; [lia|].
  destruct (decide (k = k0)) as [->|Hne]; simpl; [lia|].
  fold (@fmap list _ _ _ (@snd (list ascii) Z)) in *. rewrite IH. lia.
Qed.

Lemma Forall_values_set (P : Z → Prop) k v d :
  P v → Forall P (odict.values d) → Forall P (odict.values (odict.set k v d)).
Proof.
  unfold odict.values. intros Hv.
  induction d as [|[k0 v0] d IH]; simpl; intros Hd.
  - by constructor.
  - apply Forall_cons in Hd as [H0 Hd].
    destruct (decide (k = k0)); simpl; constructor; auto.
Qed.

Lemma get_default_nonneg k d :
  Forall (λ v, 1 ≤ v) (odict.values d) → 0 ≤ odict.get_default k 0 d.
Proof.
  unfold odict.values, odict.get_default.
  induction d as [|[k0 v0] d IH]; simpl; intros Hd; [done|].
  apply Forall_cons in Hd as [H0 Hd].
  destruct (decide (k = k0)); simpl; [lia|auto].
Qed.

(** The loop of [pattern_distribution], from any [distribution]. *)
Lemma distribution_from g cs :
  ∀ d0 d,
    for_each
      (λ distribution answer,
         pattern ← get_matches g answer;
         Some (odict.set pattern (odict.get_default pattern 0 distribution + 1)
                 distribution))
      cs d0 = Some d →
    zsum (odict.values d) = zsum (odict.values d0) + Z.of_nat (length cs) ∧
    (∀ p, odict.get_default p 0 d
          = odict.get_default p 0 d0
            + Z.of_nat (length (filter (λ w, get_matches g w = Some p) cs))) ∧
    (Forall (λ v, 1 ≤ v) (odict.values d0) →
     Forall (λ v, 1 ≤ v) (odict.values d)).
Proof.
  induction cs as [|w cs IH]; intros d0 d; simpl.
  - intros [= <-]. split_and!; [lia|intros; lia|done].
  - destruct (get_matches g w) as [pw|] eqn:Hw; [|done]. simpl.
    intros Hrun. apply IH in Hrun as (Hsum & Hget & Hpos).
    split_and!.
    + rewrite Hsum, zsum_values_set. lia.
    + intros p. rewrite Hget, filter_cons.
      unfold odict.get_default at 1. rewrite odict_get_set.
      destruct (decide (p = pw)) as [->|Hne].
      * rewrite decide_True by done. simpl. lia.
      * rewrite decide_False by congruence.
        unfold odict.get_default. lia.
    + intros Hd0. apply Hpos. apply Forall_values_set; [|done].
      pose proof (get_default_nonneg pw d0 Hd0). lia.
Qed.
End Distribution.

(** X3. [pattern_distribution] partitions the candidates: it maps each
    pattern to the number of candidates that give this pattern, every
    count it stores is at least 1, and the counts add up to the number of
    candidates (so the probabilities that [entropy] forms lie in (0, 1]
    and sum to one). *)
Theorem distribution_partitions (g : list ascii) (cs : list (list ascii))
    (memo : Submitted.Memo) :
  memo_ok memo →
  Forall (λ w, length g ≤ length w)%nat cs →
  ∃ d memo',
    Submitted.pattern_distribution g cs memo = Some (d, memo') ∧
    zsum (odict.values d) = Z.of_nat (length cs) ∧
    (∀ p, odict.get_default p 0 d
          = Z.of_nat (length (filter
                                (λ w, Submitted.get_matches g w = Some p) cs))) ∧
    Forall (λ v, 1 ≤ v) (odict.values d).
Proof.
  intros Hok Hlen.
  destruct (distribution_total g cs) as [d Hd].
  { eapply Forall_impl; [exact Hlen|]. intros w. apply get_matches_total. }
  pose proof (transparent_distribution g cs memo Hok) as Ht.
  rewrite Hd in Ht. destruct Ht as (memo' & Hrun & _).
  exists d, memo'. split; [done|].
  apply distribution_from in Hd as (Hsum & Hget & Hpos).
  split_and!.
  - rewrite Hsum. simpl. lia.
  - intros p. rewrite Hget. done.
  - apply Hpos. constructor.
Qed.

Lemma distribution_partitions_witness :
  ∃ d memo',
    Submitted.pattern_distribution (str_of "saren")
      [str_of "allot"; str_of "below"; str_of "lobby"; str_of "mixed"]
      Submitted.no_memo = Some (d, memo') ∧
    zsum (odict.values d) = 4 ∧
    (∀ p, odict.get_default p 0 d
          = Z.of_nat (length (filter
              (λ w, Submitted.get_matches (str_of "saren") w = Some p)
              [str_of "allot"; str_of "below"; str_of "lobby";
               str_of "mixed"]))) ∧
    Forall (λ v, 1 ≤ v) (odict.values d).
Proof.
  apply (distribution_partitions (str_of "saren")
           [str_of "allot"; str_of "below"; str_of "lobby"; str_of "mixed"]
           Submitted.no_memo memo_ok_empty).
  repeat constructor.
Defined.

(** ** What [get_guess] does to the guesser *)

Section GuessInvariants.
Import Submitted.
Variable fl : FloatOps.
Implicit Types (self : Guesser) (memo : Memo).
Implicit Types (lg result typed : list ascii) (cs kept : list (list ascii)).

(** A kept candidate is a candidate, whatever the tables hold. *)
Lemma filter_candidates_subset lg result cs :
  ∀ kept0 memo kept memo',
    for_eachM
      (λ kept word,
         bind (get_matches_memo lg word)
           (λ fb, ret (if decide (fb = result) then kept ++ [word] else kept)))
      cs kept0 memo = Some (kept, memo') →
    ∀ w, w ∈ kept → w ∈ kept0 ∨ w ∈ cs.
Proof.
  induction cs as [|c cs IH]; intros kept0 memo kept memo'; simpl.
  - intros [= <- <-]. auto.
  - unfold bind at 1. unfold bind at 1.
    destruct (get_matches_memo lg c memo) as [[fb memo1]|]; [|done].
    unfold ret at 1. intros Hrun w Hw.
    destruct (IH _ _ _ _ Hrun w Hw) as [Hin|Hin]; [|right; by right].
    destruct (decide (fb = result)); [|by left].
    apply elem_of_app in Hin as [Hin|Hin]; [by left|].
    apply list_elem_of_singleton in Hin as ->. right. by left.
Qed.

(** [max] returns one of its items, whatever the keys are. *)
Lemma max_scan_returns_item {A} (key : A → M (float fl)) (l : list A) :
  ∀ x v memo r memo',
    max_scan fl key l x v memo = Some (r, memo') → r = x ∨ r ∈ l.
Proof.
  unfold max_scan.
  induction l as [|y l IH]; intros x v memo r memo'; simpl.
  - unfold bind, ret. intros [= <- <-]. by left.
  - unfold bind at 1. unfold bind at 1. unfold bind at 1.
    destruct (key y memo) as [[vy memo1]|]; [|done].
    unfold ret at 1. intros Hrun.
    destruct (fgt fl vy v).
    + destruct (IH y vy memo1 r memo') as [->|Hin];
        [exact Hrun|right; by left|right; by right].
    + destruct (IH x v memo1 r memo') as [->|Hin];
        [exact Hrun|by left|right; by right].
Qed.

Lemma select_best_returns_item pool cs memo best memo' :
  select_best fl pool cs memo = Some (best, memo') → best ∈ pool.
Proof.
  unfold select_best, py_max. destruct pool as [|x pool]; [done|].
  unfold bind at 1.
  destruct (entropy fl x cs memo) as [[v memo1]|]; [|done].
  intros Hrun. apply max_scan_returns_item in Hrun as [->|Hin];
    [by left|by right].
Qed.

(** The guesser after a guess has been emitted. *)
Lemma emit_fields self cands guess :
  let self' := (emit self cands guess).2 in
  (emit self cands guess).1 = guess ∧
  _tried self' = _tried self ++ [guess] ∧
  last_guess self' = Some guess ∧
  printed self' = printed self ++ [guess] ∧
  word_list self' = word_list self ∧
  best_first_word self' = best_first_word self ∧
  candidates self' = cands.
Proof. done. Qed.
End GuessInvariants.

(** X5. Every guess that [get_guess] computes is recorded: it is appended
    to the tried words and to the printed lines and becomes the last
    guess, and the vocabulary is unchanged. After the first turn the guess
    is one of the candidates left; the candidates stay within the
    vocabulary; and unless a single candidate is left, the guess is a
    word not tried before whenever some candidate has not been tried. *)
Theorem get_guess_records (fl : FloatOps) (self self' : Submitted.Guesser)
    (typed result guess : list ascii) (memo memo' : Submitted.Memo) :
  Submitted._manual self = false →
  Submitted.get_guess fl self typed result memo = Some ((guess, self'), memo') →
  Submitted._tried self' = Submitted._tried self ++ [guess] ∧
  Submitted.last_guess self' = Some guess ∧
  Submitted.printed self' = Submitted.printed self ++ [guess] ∧
  Submitted.word_list self' = Submitted.word_list self ∧
  (Submitted._tried self ≠ [] → guess ∈ Submitted.candidates self') ∧
  (Submitted.candidates self ⊆ Submitted.word_list self →
   Submitted.candidates self' ⊆ Submitted.word_list self) ∧
  (Submitted._tried self ≠ [] →
   length (Submitted.candidates self') ≠ 1%nat →
   (∃ w, w ∈ Submitted.candidates self' ∧ w ∉ Submitted._tried self) →
   guess ∉ Submitted._tried self).
Proof.
  intros Hman. unfold Submitted.get_guess. rewrite Hman.
  unfold Submitted.bind at 1.
  lazymatch goal with
  | |- match ?c memo with _ => _ end = _ → _ =>
      destruct (c memo) as [[cands memo1]|] eqn:Hfilter; [|done]
  end.
  assert (Submitted.candidates self ⊆ Submitted.word_list self →
          cands ⊆ Submitted.word_list self) as Hsub.
  { intros Hvoc w Hw. apply Hvoc.
    destruct (Submitted.last_guess self) as [lg|].
    - eapply filter_candidates_subset in Hfilter as [Hin|Hin]; [|done|exact Hw].
      by apply elem_of_nil in Hin.
    - unfold Submitted.ret in Hfilter. by injection Hfilter as <- <-. }
  case_bool_decide as Htried.
  { unfold Submitted.ret. intros [= <- <- <-]. simpl. split_and!; try done. }
  case_bool_decide as Hone.
  { unfold Submitted.bind, Submitted.lift, Submitted.ret.
    destruct (cands !! 0%nat) as [w|] eqn:Hw; [|done].
    intros [= <- <- <-]. simpl. split_and!; try done.
    intros _. by eapply list_elem_of_lookup_2. }
  cbv zeta. unfold Submitted.bind at 1.
  destruct (Submitted.select_best _ _ _ _) as [[best memo2]|] eqn:Hbest; [|done].
  apply select_best_returns_item in Hbest.
  unfold Submitted.ret. intros [= <- <- <-]. simpl.
  set (cands' := if bool_decide (cands = [])
                 then filter (λ w, w ∉ Submitted._tried self)
                        (Submitted.word_list self)
                 else cands) in *.
  assert (∀ w, w ∈ filter (λ w, w ∉ Submitted._tried self) cands' →
               w ∈ cands' ∧ w ∉ Submitted._tried self) as Hpool.
  { intros w Hw. apply list_elem_of_filter in Hw as [? ?]. done. }
  split_and!; try done.
  - intros _. case_bool_decide; [done|]. by apply Hpool.
  - intros Hvoc. subst cands'. case_bool_decide; [|auto].
    intros w Hw. by apply list_elem_of_filter in Hw as [_ ?].
  - intros _ _ (w & Hw & Hnew).
    rewrite bool_decide_eq_false_2 in Hbest; [by apply Hpool|].
    intros Hempty.
    assert (w ∈ filter (λ w, w ∉ Submitted._tried self) cands') as Hin
      by (by apply list_elem_of_filter).
    rewrite Hempty in Hin. by apply elem_of_nil in Hin.
Qed.

Lemma get_guess_records_witness :
  ∃ guess self' memo',
    Submitted.get_guess ideal after_saren [] (str_of "+++-+") Submitted.no_memo
    = Some ((guess, self'), memo') ∧
    Submitted._tried self' = Submitted._tried after_saren ++ [guess] ∧
    Submitted.last_guess self' = Some guess ∧
    Submitted.printed self' = Submitted.printed after_saren ++ [guess] ∧
    Submitted.word_list self' = Submitted.word_list after_saren.
Proof.
  assert (∃ x, Submitted.get_guess ideal after_saren [] (str_of "+++-+")
                 Submitted.no_memo = Some x) as [[[guess self'] memo'] Hrun]
    by (eexists; vm_compute; reflexivity).
  exists guess, self', memo'. split; [exact Hrun|].
  destruct (get_guess_records ideal after_saren self' [] (str_of "+++-+")
              guess Submitted.no_memo memo' eq_refl Hrun)
    as (H1 & H2 & H3 & H4 & _).
  auto.
Defined.

(** ** One dummy guess for each feedback *)

(** X7. [try_dummy_guess] proposes a dummy only for a feedback with one
    or two [+], no [-], fewer than five words tried and not used before,
    and it then records the feedback as used; a call on a feedback that
    is recorded returns [None], raises nothing and records nothing more.
    So in one game no feedback string yields two dummy guesses. *)
Theorem try_dummy_guess_once :
  (∀ _tried used_dummy candidates_to_consider result r used_dummy',
     General.try_dummy_guess _tried used_dummy candidates_to_consider result
     = Some (r, used_dummy') →
     used_dummy ⊆ used_dummy' ∧
     (r ≠ None →
      str_count plus_sign result ∈ General.DUMMY_PLUS_COUNTS ∧
      str_count minus_sign result = 0 ∧
      (length _tried < 5)%nat ∧
      (result ∉ used_dummy) ∧ (result ∈ used_dummy'))) ∧
  (∀ _tried used_dummy candidates_to_consider result,
     result ∈ used_dummy →
     General.try_dummy_guess _tried used_dummy candidates_to_consider result
     = Some (None, used_dummy)).
Proof.
  split.
  - intros tried used cands result r used'.
    unfold General.try_dummy_guess. simpl negb. cbv iota.
    destruct (_ && _ && _) eqn:Hcond;
      [|intros [= <- <-]; split; [done|by intros []]].
    apply andb_prop in Hcond as [Hcond Htried].
    apply andb_prop in Hcond as [Hplus Hminus].
    apply bool_decide_eq_true in Hplus, Hminus, Htried.
    simpl andb.
    case_bool_decide as Hused; [intros [= <- <-]; split; [done|by intros []]|].
    cbv zeta. simpl.
    destruct (General.str_index plus_sign result) as [pos|]; [|done]. simpl.
    destruct (mapM _ cands) as [letters|]; [|done]. simpl.
    case_bool_decide.
    + intros [= <- <-]. split; [set_solver|by intros []].
    + intros [= <- <-]. split; [set_solver|]. intros _.
      split_and!; [done..|set_solver].
  - intros tried used cands result Hin.
    unfold General.try_dummy_guess. simpl negb. cbv iota.
    destruct (_ && _ && _); [|done].
    simpl andb. by rewrite bool_decide_eq_true_2.
Qed.

Lemma try_dummy_guess_once_witness :
  General.try_dummy_guess [] {[ str_of "+ight" ]}
    [str_of "bight"; str_of "fight"; str_of "light"] (str_of "+ight")
  = Some (None, {[ str_of "+ight" ]}).
Proof.
  apply (proj2 try_dummy_guess_once [] {[ str_of "+ight" ]}
           [str_of "bight"; str_of "fight"; str_of "light"] (str_of "+ight")).
  set_solver.
Defined.

(** ** The constraint filter of [vitto.py] keeps consistent words *)

Section OdictFacts.
Context {K V : Type} `{EqDecision K}.
Implicit Types (k : K) (v : V) (d : list (K * V)).

Lemma odict_get_set_gen k' k v d :
  odict.get k' (odict.set k v d)
  = if decide (k' = k) then Some v else odict.get k' d.
Proof.
  induction d as [|[k0 v0] d IH]; simpl.
  - by destruct (decide (k' = k)).
  - destruct (decide (k = k0)) as [->|Hne]; simpl.
    + by destruct (decide (k' = k0)).
    + destruct (decide (k' = k0)) as [->|Hne'].
      * by rewrite decide_False by done.
      * done.
Qed.

Lemma odict_get_elem k v d : odict.get k d = Some v → (k, v) ∈ d.
Proof.
  induction d as [|[k0 v0] d IH]; simpl; [done|].
  destruct (decide (k = k0)) as [->|Hne].
  - intros [= ->]. by left.
  - intros Hg. right. by apply IH.
Qed.

Lemma odict_get_None k d : odict.get k d = None ↔ k ∉ d.*1.
Proof.
  induction d as [|[k0 v0] d IH]; simpl.
  - split; [intros _ Hin; by apply elem_of_nil in Hin|done].
  - destruct (decide (k = k0)) as [->|Hne].
    + split; [done|]. intros Hn. destruct Hn. by left.
    + rewrite IH. split.
      * intros Hn Hin. apply elem_of_cons in Hin as [?|?]; done.
      * intros Hn Hin. apply Hn. by right.
Qed.

Lemma odict_keys_set k v d x :
  x ∈ (odict.set k v d).*1 ↔ x = k ∨ x ∈ d.*1.
Proof.
  induction d as [|[k0 v0] d IH]; simpl.
  - rewrite list_elem_of_singleton. split; [by left|].
    intros [?|Hin]; [done|by apply elem_of_nil in Hin].
  - destruct (decide (k = k0)) as [->|Hne]; simpl.
    + rewrite !elem_of_cons. naive_solver.
    + rewrite !elem_of_cons, IH. naive_solver.
Qed.

Lemma odict_NoDup_set k v d : NoDup d.*1 → NoDup (odict.set k v d).*1.
Proof.
  induction d as [|[k0 v0] d IH]; simpl.
  - intros _. apply NoDup_singleton.
  - intros Hnd. apply NoDup_cons in Hnd as [Hnotin Hnd].
    destruct (decide (k = k0)) as [->|Hne]; simpl.
    + by constructor.
    + constructor; [|by apply IH].
      rewrite odict_keys_set. intros [?|?]; [congruence|done].
Qed.

Lemma odict_elem_get k v d : NoDup d.*1 → (k, v) ∈ d → odict.get k d = Some v.
Proof.
  induction d as [|[k0 v0] d IH]; simpl.
  - intros _ Hin. by apply elem_of_nil in Hin.
  - intros Hnd Hin. apply NoDup_cons in Hnd as [Hnotin Hnd].
    apply elem_of_cons in Hin as [[= -> ->]|Hin].
    + by rewrite decide_True.
    + destruct (decide (k = k0)) as [->|Hne]; [|by apply IH].
      destruct Hnotin. apply list_elem_of_fmap. by exists (k0, v).
Qed.

Lemma odict_elem_set k v d (x : K * V) :
  x ∈ odict.set k v d → x = (k, v) ∨ x ∈ d.
Proof.
  induction d as [|[k0 v0] d IH]; simpl.
  - intros Hin. apply list_elem_of_singleton in Hin. by left.
  - destruct (decide (k = k0)) as [->|Hne].
    + intros Hin. apply elem_of_cons in Hin as [->|Hin]; [by left|].
      right. by right.
    + intros Hin. apply elem_of_cons in Hin as [->|Hin]; [right; by left|].
      destruct (IH Hin) as [->|Hd]; [by left|right; by right].
Qed.
End OdictFacts.

Section Colors.
Import Vitto.
Implicit Types (data : Colors) (c x : ascii) (g p w gs ps : list ascii).

Lemma _guess_to_colors_fold g p :
  _guess_to_colors g p
  = foldl colors_step
      {| gray := []; yellow := []; green_pos := []; required_letters := [] |}
      (enumerate (zip g p)).
Proof. reflexivity. Qed.

Lemma foldl_invariant {A B} (f : A → B → A) (I : A → Prop) (l : list B) a0 :
  I a0 → (∀ a b, b ∈ l → I a → I (f a b)) → I (foldl f a0 l).
Proof.
  revert a0. induction l as [|b l IH]; intros a0 H0 Hstep; simpl; [done|].
  apply IH.
  - apply Hstep; [by left|done].
  - intros a b' Hb'. apply Hstep. by right.
Qed.

Lemma elem_of_enumerate_lookup {A} (l : list A) n i (x : A) :
  (i, x) ∈ enumerate_from n l → ∃ j, i = (n + j)%nat ∧ l !! j = Some x.
Proof.
  revert n. induction l as [|y l IH]; intros n Hin; simpl in *.
  - by apply elem_of_nil in Hin.
  - apply elem_of_cons in Hin as [[= -> ->]|Hin].
    + exists 0%nat. split; [lia|done].
    + apply IH in Hin as (j & -> & Hj). exists (S j). split; [lia|done].
Qed.

Lemma elem_of_enumerate_zip g p i x c :
  (i, (x, c)) ∈ enumerate (zip g p) → g !! i = Some x ∧ p !! i = Some c.
Proof.
  intros Hin. apply elem_of_enumerate_lookup in Hin as (j & -> & Hj).
  simpl. by apply lookup_zip_with_Some in Hj as (? & ? & [= -> ->] & ? & ?).
Qed.

Lemma colors_ok_guess_to_colors g p : colors_ok g p (_guess_to_colors g p).
Proof.
  rewrite _guess_to_colors_fold. apply foldl_invariant.
  - split_and!; simpl.
    + intros ? ? Hin. by apply elem_of_nil in Hin.
    + intros ? ? ? Hin. by apply elem_of_nil in Hin.
    + intros ? Hin. by apply elem_of_nil in Hin.
    + constructor.
  - intros data [i [x c]] Hin (Hgreen & Hyellow & Hgray & Hnd).
    apply elem_of_enumerate_zip in Hin as [Hx Hc].
    unfold colors_step.
    destruct (decide (c = plus_sign)) as [->|Hplus];
      [|destruct (decide (c = minus_sign)) as [->|Hminus]];
      split_and!; simpl; try done.
    + intros letter Hl. apply elem_of_app in Hl as [Hl|Hl]; [auto|].
      apply list_elem_of_singleton in Hl as ->. eauto.
    + intros letter positions pos Hl Hpos.
      apply odict_elem_set in Hl as [[= -> ->]|Hl]; [|eauto].
      unfold set_add in Hpos.
      assert (pos = i ∨ pos ∈ odict.get_default x [] (yellow data))
        as [->|Hold].
      { case_bool_decide; [by right|].
        apply elem_of_app in Hpos as [?|Hp]; [by right|].
        apply list_elem_of_singleton in Hp. by left. }
      * done.
      * unfold odict.get_default in Hold.
        destruct (odict.get x (yellow data)) as [ps|] eqn:Hget;
          [|by apply elem_of_nil in Hold].
        apply odict_get_elem in Hget. eauto.
    + by apply odict_NoDup_set.
    + intros pos letter Hl.
      apply odict_elem_set in Hl as [[= -> ->]|Hl]; [|eauto].
      split; [done|]. eauto.
    + by apply odict_NoDup_set.
Qed.
End Colors.

Section RequiredLetters.
Import Vitto.
Implicit Types (data : Colors) (c x : ascii) (g p w gs ps : list ascii).
Implicit Types (ms : list mark).

Lemma credited_cons c x q gs ps :
  credited c (x :: gs) (q :: ps)
  = (if decide (x = c ∧ q ≠ plus_sign) then 1 else 0) + credited c gs ps.
Proof.
  unfold credited. simpl. rewrite filter_cons. simpl.
  destruct (decide (x = c ∧ q ≠ plus_sign)); simpl; lia.
Qed.

Lemma credited_nonneg c gs ps : 0 ≤ credited c gs ps.
Proof. unfold credited. lia. Qed.

(** The count that the loop of [_guess_to_colors] leaves for a letter. *)
Lemma required_fold c gs :
  ∀ ps n data0,
    odict.get c
      (required_letters
         (foldl colors_step data0 (enumerate_from n (zip gs ps))))
    = if decide (credited c gs ps = 0)
      then odict.get c (required_letters data0)
      else Some (odict.get_default c 0 (required_letters data0)
                 + credited c gs ps).
Proof.
  induction gs as [|x gs IH]; intros [|q ps] n data0; try done.
  simpl. rewrite IH, credited_cons.
  pose proof (credited_nonneg c gs ps) as Hnn.
  unfold colors_step.
  destruct (decide (q = plus_sign)) as [->|Hplus].
  - simpl.
    rewrite (decide_False (P := x = c ∧ plus_sign ≠ plus_sign))
      by (intros [_ H]; by apply H).
    replace (0 + credited c gs ps) with (credited c gs ps) by lia. done.
  - assert (∀ data1,
      required_letters data1
      = odict.set x (odict.get_default x 0 (required_letters data0) + 1)
          (required_letters data0) →
      (if decide (credited c gs ps = 0)
       then odict.get c (required_letters data1)
       else Some (odict.get_default c 0 (required_letters data1)
                  + credited c gs ps))
      = if decide ((if decide (x = c ∧ q ≠ plus_sign) then 1 else 0)
                   + credited c gs ps = 0)
        then odict.get c (required_letters data0)
        else Some (odict.get_default c 0 (required_letters data0)
                   + ((if decide (x = c ∧ q ≠ plus_sign) then 1 else 0)
                      + credited c gs ps))) as Hstep.
    { intros data1 ->. unfold odict.get_default.
      rewrite !odict_get_set_gen.
      destruct (decide (c = x)) as [->|Hne].
      - rewrite (decide_True (P := x = x ∧ q ≠ plus_sign)) by done.
        rewrite (decide_False (P := 1 + credited x gs ps = 0)) by lia.
        simpl. destruct (decide (credited x gs ps = 0)) as [->|]; f_equal; lia.
      - rewrite (decide_False (P := x = c ∧ q ≠ plus_sign))
          by (intros [-> _]; by apply Hne).
        replace (0 + credited c gs ps) with (credited c gs ps) by lia.
        done. }
    destruct (decide (q = minus_sign)); apply Hstep; done.
Qed.

Lemma required_guess_to_colors c g p :
  odict.get c (required_letters (_guess_to_colors g p))
  = if decide (credited c g p = 0) then None else Some (credited c g p).
Proof.
  rewrite _guess_to_colors_fold. unfold enumerate. rewrite required_fold.
  simpl. destruct (decide (credited c g p = 0)); [done|]. f_equal.
Qed.

(** On a rendered pattern the credited positions are the [Exact] and
    [Present] ones. *)
Lemma credited_render c g ms :
  plus_sign ∉ g → length ms = length g →
  credited c g (render g ms) = tally c Exact g ms + tally c Present g ms.
Proof.
  revert ms. induction g as [|x g IH]; intros [|m ms] Hplus Hlen; try done.
  apply not_elem_of_cons in Hplus as [Hx Hplus].
  unfold render. simpl. rewrite credited_cons, !tally_cons.
  unfold render in IH. rewrite IH by (simpl in Hlen; auto; lia).
  destruct (decide (x = c)) as [->|Hne].
  - destruct m; simpl;
      repeat (first [rewrite decide_True by done
                    |rewrite decide_True by (split; [done|discriminate])
                    |rewrite decide_False by naive_solver]); lia.
  - rewrite !decide_False by naive_solver. lia.
Qed.

Lemma tally_lookup c m g ms pos :
  g !! pos = Some c → ms !! pos = Some m → 1 ≤ tally c m g ms.
Proof.
  revert g ms. induction pos as [|pos IH]; intros [|x g] [|m' ms]; try done;
    simpl; intros Hg Hm.
  - injection Hg as ->. injection Hm as ->. rewrite tally_cons.
    rewrite decide_True by done. unfold tally. lia.
  - rewrite tally_cons. specialize (IH g ms Hg Hm).
    destruct (decide _); lia.
Qed.

Lemma str_count_zero c w : str_count c w = 0 → c ∉ w.
Proof.
  induction w as [|x w IH]; [intros _ Hin; by apply elem_of_nil in Hin|].
  rewrite str_count_cons. pose proof (str_count_nonneg c w).
  destruct (decide (x = c)) as [->|Hne]; [lia|].
  intros H0 Hin. apply elem_of_cons in Hin as [->|Hin]; [done|].
  apply IH; [lia|done].
Qed.
End RequiredLetters.

Section FilterWords.
Import Vitto.
Implicit Types (data : Colors) (c x : ascii) (g p w v : list ascii).
Implicit Types (space : list (list ascii)).

Lemma green_ok_true (items : list (nat * ascii)) w :
  (∀ pos letter, (pos, letter) ∈ items → w !! pos = Some letter) →
  green_ok items w = Some true.
Proof.
  induction items as [|[pos letter] items IH]; intros Hall; simpl; [done|].
  rewrite (Hall pos letter) by (by left). simpl.
  rewrite decide_False by (intros H; by apply H).
  apply IH. intros pos' letter' Hin. apply Hall. by right.
Qed.

Lemma green_ok_total (items : list (nat * ascii)) w :
  (∀ pos letter, (pos, letter) ∈ items → (pos < length w)%nat) →
  is_Some (green_ok items w).
Proof.
  induction items as [|[pos letter] items IH]; intros Hall; simpl; [eauto|].
  destruct (lookup_lt_is_Some_2 w pos) as [ch ->]; [by eapply Hall; left|].
  simpl. destruct (decide (ch ≠ letter)); [eauto|].
  apply IH. intros pos' letter' Hin. eapply Hall. by right.
Qed.

Lemma yellow_positions_ok_true letter (positions : list nat) w :
  (∀ pos, pos ∈ positions → ∃ ch, w !! pos = Some ch ∧ ch ≠ letter) →
  yellow_positions_ok letter positions w = Some true.
Proof.
  induction positions as [|pos positions IH]; intros Hall; simpl; [done|].
  destruct (Hall pos) as (ch & -> & Hne); [by left|]. simpl.
  rewrite decide_False by done. apply IH. intros pos' Hin. apply Hall.
  by right.
Qed.

Lemma yellow_positions_ok_total letter (positions : list nat) w :
  (∀ pos, pos ∈ positions → (pos < length w)%nat) →
  is_Some (yellow_positions_ok letter positions w).
Proof.
  induction positions as [|pos positions IH]; intros Hall; simpl; [eauto|].
  destruct (lookup_lt_is_Some_2 w pos) as [ch ->]; [apply Hall; by left|].
  simpl. destruct (decide (ch = letter)); [eauto|].
  apply IH. intros pos' Hin. apply Hall. by right.
Qed.

Lemma yellow_ok_true (items : list (ascii * list nat)) w :
  (∀ letter positions pos, (letter, positions) ∈ items → pos ∈ positions →
     ∃ ch, w !! pos = Some ch ∧ ch ≠ letter) →
  yellow_ok items w = Some true.
Proof.
  induction items as [|[letter positions] items IH]; intros Hall; simpl;
    [done|].
  rewrite yellow_positions_ok_true.
  - simpl. apply IH. intros letter' positions' pos Hin. apply Hall. by right.
  - intros pos Hpos. eapply Hall; [by left|done].
Qed.

Lemma yellow_ok_total (items : list (ascii * list nat)) w :
  (∀ letter positions pos, (letter, positions) ∈ items → pos ∈ positions →
     (pos < length w)%nat) →
  is_Some (yellow_ok items w).
Proof.
  induction items as [|[letter positions] items IH]; intros Hall; simpl;
    [eauto|].
  destruct (yellow_positions_ok_total letter positions w) as [ok ->].
  - intros pos Hpos. eapply Hall; [by left|done].
  - simpl. destruct ok; [|eauto].
    apply IH. intros letter' positions' pos Hin Hpos.
    eapply Hall; [right; exact Hin|exact Hpos].
Qed.

Lemma gray_ok_true data (letters : list ascii) w :
  (∀ letter, letter ∈ letters →
     match odict.get letter (required_letters data) with
     | Some count => str_count letter w ≤ count
     | None => letter ∉ w
     end) →
  gray_ok data letters w = true.
Proof.
  induction letters as [|letter letters IH]; intros Hall; simpl; [done|].
  pose proof (Hall letter ltac:(by left)) as Hl.
  destruct (odict.get letter (required_letters data)) as [count|].
  - rewrite bool_decide_eq_false_2 by lia.
    apply IH. intros l Hin. apply Hall. by right.
  - rewrite bool_decide_eq_false_2 by done.
    apply IH. intros l Hin. apply Hall. by right.
Qed.

(** Every word as long as the guess is classified without an error. *)
Lemma word_is_valid_total g p v :
  (length g ≤ length v)%nat →
  is_Some (word_is_valid (_guess_to_colors g p) v).
Proof.
  intros Hlen. unfold word_is_valid.
  destruct (colors_ok_guess_to_colors g p) as (Hgreen & Hyellow & _ & _).
  destruct (negb _); [eauto|].
  destruct (green_ok_total (green_pos (_guess_to_colors g p)) v) as [ok ->].
  { intros pos letter Hin. apply Hgreen in Hin as [Hg _].
    apply lookup_lt_Some in Hg. lia. }
  simpl. destruct ok; simpl; [|eauto].
  destruct (yellow_ok_total (yellow (_guess_to_colors g p)) v) as [ok ->].
  { intros letter positions pos Hin Hpos.
    destruct (Hyellow letter positions pos Hin Hpos) as [Hg _].
    apply lookup_lt_Some in Hg. lia. }
  simpl. destruct ok; simpl; eauto.
Qed.

Lemma render_lookup g (ms : list mark) pos c :
  render g ms !! pos = Some c →
  ∃ x m, g !! pos = Some x ∧ ms !! pos = Some m ∧ c = wire x m.
Proof.
  unfold render. intros H. apply lookup_zip_with_Some in H as (x & m & ? & ? & ?).
  eauto.
Qed.

(** A word is accepted by the constraints drawn from its own feedback. *)
Lemma word_is_valid_consistent g w :
  length g = length w →
  mark_free g →
  word_is_valid (_guess_to_colors g (render g (score g w))) w = Some true.
Proof.
  intros Hlen [Hplus Hminus].
  set (ms := score g w). set (p := render g ms).
  assert (length ms = length g) as Hms
    by (unfold ms; rewrite score_length; lia).
  destruct (colors_ok_guess_to_colors g p) as (Hgreen & Hyellow & Hgray & Hnd).
  assert (∀ c, credited c g p = str_count c g `min` str_count c w) as Hcred.
  { intros c. unfold p. rewrite credited_render by done.
    apply score_credit. lia. }
  assert (∀ pos x c, g !! pos = Some x → p !! pos = Some c →
            ∃ y m, w !! pos = Some y ∧ ms !! pos = Some m ∧ c = wire x m ∧
                   (m = Exact ↔ x = y) ∧ x ≠ plus_sign ∧ x ≠ minus_sign)
    as Hpos.
  { intros pos x c Hx Hc.
    apply render_lookup in Hc as (x' & m & Hx' & Hm & ->).
    assert (x' = x) as -> by congruence.
    destruct (lookup_lt_is_Some_2 w pos) as [y Hy].
    { apply lookup_lt_Some in Hx. lia. }
    destruct (score_lookup_exact g w pos x y Hx Hy) as (m' & Hm' & Hiff).
    fold ms in Hm'. assert (m' = m) as -> by congruence.
    exists y, m. split_and!; try done.
    - intros ->. apply Hplus. by eapply list_elem_of_lookup_2.
    - intros ->. apply Hminus. by eapply list_elem_of_lookup_2. }
  unfold word_is_valid. fold p.
  assert (required_ok (_guess_to_colors g p) w = true) as ->.
  { unfold required_ok. apply forallb_forall. intros [letter count] Hin.
    apply bool_decide_eq_true. apply list_elem_of_In in Hin.
    apply odict_elem_get in Hin; [|done].
    rewrite required_guess_to_colors in Hin.
    destruct (decide _); [done|]. injection Hin as <-. rewrite Hcred. lia. }
  simpl. rewrite green_ok_true.
  2:{ intros pos letter Hin. apply Hgreen in Hin as (Hg & c & Hc & Hcp & Hcm).
      destruct (Hpos pos letter c Hg Hc) as (y & m & Hy & _ & -> & Hiff & _).
      rewrite Hy. f_equal. symmetry. apply Hiff.
      destruct m; simpl in *; congruence. }
  simpl. rewrite yellow_ok_true.
  2:{ intros letter positions pos Hin Hp.
      destruct (Hyellow letter positions pos Hin Hp) as (Hg & Hc).
      destruct (Hpos pos letter _ Hg Hc)
        as (y & m & Hy & _ & Hw & Hiff & _ & Hnm).
      exists y. split; [done|]. intros ->.
      assert (m = Exact) as -> by (by apply Hiff). simpl in Hw. congruence. }
  simpl. f_equal. apply gray_ok_true. intros letter Hin.
  destruct (Hgray letter Hin) as (pos & Hg & Hc).
  destruct (Hpos pos letter _ Hg Hc) as (y & m & Hy & Hm & Hw & _ & Hnp & _).
  assert (m = Absent) as ->.
  { destruct m; simpl in Hw; [congruence| |done]. discriminate. }
  pose proof (tally_lookup letter Absent g ms pos Hg Hm) as Habsent.
  pose proof (tally_total letter g ms Hms) as Htotal.
  pose proof (score_credit g w letter ltac:(lia)) as Hcredit. fold ms in Hcredit.
  rewrite required_guess_to_colors, Hcred.
  destruct (decide _) as [Hzero|Hnz].
  - apply str_count_zero. lia.
  - lia.
Qed.

(** The loop of [filter_words]. *)
Lemma filter_words_run g p space :
  Forall (λ v, length g ≤ length v)%nat space →
  filter_words g p space
  = Some (filter (λ v, word_is_valid (_guess_to_colors g p) v = Some true)
            space).
Proof.
  intros Hall. unfold filter_words.
  assert (∀ acc,
    for_each
      (λ filtered word,
         ok ← word_is_valid (_guess_to_colors g p) word;
         Some (if (ok : bool) then filtered ++ [word] else filtered))
      space acc
    = Some (acc ++ filter
              (λ v, word_is_valid (_guess_to_colors g p) v = Some true) space))
    as Hgen.
  { induction Hall as [|v space Hv _ IH]; intros acc; simpl.
    - by rewrite app_nil_r.
    - destruct (word_is_valid_total g p v Hv) as [ok Hok]. rewrite Hok.
      simpl. rewrite IH, filter_cons. destruct ok.
      + rewrite decide_True by done. by rewrite <- app_assoc.
      + rewrite decide_False by congruence. done. }
  apply (Hgen []).
Qed.
End FilterWords.

(** X8. [filter_words] only narrows the search space, and it never drops
    a word that is consistent with the feedback: on words of five letters
    and a guess of five letters without feedback signs, it returns a
    sublist of the search space that still holds every word whose pattern
    against the guess is the one observed (in particular the secret
    word), whatever the pattern string is. *)
Theorem filter_words_keeps_consistent (g p : list ascii)
    (space : list (list ascii)) :
  length g = 5%nat →
  mark_free g →
  Forall (λ v, length v = 5%nat) space →
  ∃ kept,
    Vitto.filter_words g p space = Some kept ∧
    kept `sublist_of` space ∧
    (length kept ≤ length space)%nat ∧
    ∀ w, w ∈ space → Vitto._get_pattern g w = Some p → w ∈ kept.
Proof.
  intros Hg Hfree Hspace.
  rewrite filter_words_run
    by (eapply Forall_impl; [exact Hspace|]; simpl; intros; lia).
  eexists. split; [done|]. split_and!.
  - apply sublist_filter.
  - apply length_filter.
  - intros w Hw Hp. apply list_elem_of_filter. split; [|done].
    rewrite Forall_forall in Hspace. specialize (Hspace w Hw).
    rewrite _get_pattern_score in Hp by done. injection Hp as <-.
    apply word_is_valid_consistent; [lia|done].
Qed.

Lemma filter_words_keeps_consistent_witness :
  ∃ kept,
    Vitto.filter_words (str_of "geese") (str_of "++e++")
      [str_of "tower"; str_of "pleat"; str_of "lobby"] = Some kept ∧
    kept `sublist_of` [str_of "tower"; str_of "pleat"; str_of "lobby"] ∧
    (length kept ≤ 3)%nat ∧
    ∀ w, w ∈ [str_of "tower"; str_of "pleat"; str_of "lobby"] →
         Vitto._get_pattern (str_of "geese") w = Some (str_of "++e++") →
         w ∈ kept.
Proof.
  apply (filter_words_keeps_consistent (str_of "geese") (str_of "++e++")
           [str_of "tower"; str_of "pleat"; str_of "lobby"]
           eq_refl mark_free_geese).
  repeat constructor.
Defined.

(** ** [vitto.py] once no word is left *)

Section EmptySpace.
Import Vitto.
Variable fl : FloatOps.
Variable neg_inf : float fl.
Implicit Types (self : Guesser) (typed result previous : list ascii).

Lemma get_guess_empty self typed result previous :
  _manual self = false →
  last (_tried self) = Some previous →
  filter_words previous result (_search_space self) = Some [] →
  get_guess fl neg_inf self typed result
  = Some (str_of "zzzzz",
          {| word_list := word_list self; _manual := false;
             _tried := _tried self ++ [str_of "zzzzz"]; _search_space := [];
             best_first_guess := best_first_guess self;
             printed := printed self ++ [str_of "zzzzz"] |}).
Proof.
  intros Hauto Hlast Hfilter. unfold get_guess, _get_best_guess.
  rewrite Hauto, Hlast, Hfilter. reflexivity.
Qed.
End EmptySpace.

(** X9. Once a feedback leaves no word in the search space of
    [vitto.py], the guesser is stuck: this guess and every later one is
    [zzzzz], whatever feedback follows; the search space stays empty and
    the word list is not reloaded into it. *)
Theorem vitto_stuck_on_empty (fl : FloatOps) (neg_inf : float fl)
    (self : Vitto.Guesser) (typed previous result : list ascii)
    (results : list (list ascii)) :
  Vitto._manual self = false →
  last (Vitto._tried self) = Some previous →
  Vitto.filter_words previous result (Vitto._search_space self) = Some [] →
  vitto_play fl neg_inf self typed (result :: results)
  = Some (replicate (S (length results)) (str_of "zzzzz"),
          {| Vitto.word_list := Vitto.word_list self;
             Vitto._manual := false;
             Vitto._tried :=
               Vitto._tried self
               ++ replicate (S (length results)) (str_of "zzzzz");
             Vitto._search_space := [];
             Vitto.best_first_guess := Vitto.best_first_guess self;
             Vitto.printed :=
               Vitto.printed self
               ++ replicate (S (length results)) (str_of "zzzzz") |}).
Proof.
  revert self previous result.
  induction results as [|result' results IH];
    intros self previous result Hauto Hlast Hfilter.
  - cbn [vitto_play length replicate].
    rewrite (get_guess_empty fl neg_inf self typed result previous) by done.
    reflexivity.
  - change (vitto_play fl neg_inf self typed (result :: result' :: results))
      with (match Vitto.get_guess fl neg_inf self typed result with
            | Some (guess, self') =>
                match vitto_play fl neg_inf self' typed (result' :: results)
                with
                | Some (guesses, self'') => Some (guess :: guesses, self'')
                | None => None
                end
            | None => None
            end).
    rewrite (get_guess_empty fl neg_inf self typed result previous) by done.
    rewrite (IH _ (str_of "zzzzz") result').
    + cbn [Vitto.word_list Vitto._manual Vitto._tried Vitto._search_space
           Vitto.best_first_guess Vitto.printed length].
      rewrite <- !app_assoc. reflexivity.
    + reflexivity.
    + cbn [Vitto._tried]. apply last_snoc.
    + reflexivity.
Qed.

Lemma vitto_stuck_on_empty_witness :
  vitto_play ideal ideal_neg_inf
    {| Vitto.word_list := [str_of "tower"; str_of "pleat"];
       Vitto._manual := false;
       Vitto._tried := [str_of "geese"];
       Vitto._search_space := [str_of "tower"; str_of "pleat"];
       Vitto.best_first_guess := str_of "geese";
       Vitto.printed := [str_of "geese"] |}
    [] [str_of "geese"; str_of "+++++"; str_of "zzzzz"]
  = Some ([str_of "zzzzz"; str_of "zzzzz"; str_of "zzzzz"],
          {| Vitto.word_list := [str_of "tower"; str_of "pleat"];
             Vitto._manual := false;
             Vitto._tried :=
               [str_of "geese"; str_of "zzzzz"; str_of "zzzzz";
                str_of "zzzzz"];
             Vitto._search_space := [];
             Vitto.best_first_guess := str_of "geese";
             Vitto.printed :=
               [str_of "geese"; str_of "zzzzz"; str_of "zzzzz";
                str_of "zzzzz"] |}).
Proof.
  apply (vitto_stuck_on_empty ideal ideal_neg_inf
           {| Vitto.word_list := [str_of "tower"; str_of "pleat"];
              Vitto._manual := false;
              Vitto._tried := [str_of "geese"];
              Vitto._search_space := [str_of "tower"; str_of "pleat"];
              Vitto.best_first_guess := str_of "geese";
              Vitto.printed := [str_of "geese"] |}
           [] (str_of "geese") (str_of "geese")
           [str_of "+++++"; str_of "zzzzz"]);
    vm_compute; reflexivity.
Defined.

(** ** The quality of a disambiguator *)

Section Quality.
Import Vitto.
Implicit Types (g p : list ascii) (w : list ascii).
Implicit Types (ws done grp : list (list ascii)).
Implicit Types (G : list (list ascii * list (list ascii))).

Section Groups.
Variable f : list ascii → option (list ascii).

Local Abbreviation groups_of := (groups_of f).

Lemma groups_of_step done G w pw :
  groups_of done G → f w = Some pw →
  groups_of (done ++ [w])
    (let G1 := match odict.get pw G with
               | Some _ => G
               | None => odict.set pw [] G
               end in
     odict.set pw (odict.get_default pw [] G1 ++ [w]) G1).
Proof.
  intros [Hnd Hget] Hw. cbv zeta.
  set (G1 := match odict.get pw G with
             | Some _ => G
             | None => odict.set pw [] G
             end).
  assert (NoDup G1.*1) as Hnd1.
  { unfold G1. destruct (odict.get pw G); [done|by apply odict_NoDup_set]. }
  assert (odict.get_default pw [] G1 = filter (λ v, f v = Some pw) done)
    as Hpw.
  { unfold odict.get_default, G1. pose proof (Hget pw) as Hp. cbv zeta in Hp.
    destruct (odict.get pw G) as [grp|] eqn:Hg.
    - rewrite Hg. destruct (decide _); [done|]. by injection Hp as ->.
    - rewrite odict_get_set_gen, decide_True by done. simpl.
      destruct (decide _) as [->|]; done. }
  assert (∀ p, p ≠ pw → odict.get p G1 = odict.get p G) as Hother.
  { intros p Hne. unfold G1. destruct (odict.get pw G); [done|].
    by rewrite odict_get_set_gen, decide_False. }
  split; [by apply odict_NoDup_set|].
  intros p. cbv zeta. rewrite odict_get_set_gen, filter_app.
  destruct (decide (p = pw)) as [->|Hne].
  - rewrite Hpw, (filter_cons_True (λ v, f v = Some pw)) by done.
    rewrite filter_nil. rewrite decide_False; [done|].
    intros Hnil. by apply app_eq_nil in Hnil as [_ ?].
  - rewrite Hother, Hget by done. cbv zeta.
    rewrite (filter_cons_False (λ v, f v = Some p)) by congruence.
    by rewrite filter_nil, app_nil_r.
Qed.

(** The loop of [get_disambiguation_quality]. *)
Lemma groups_of_loop ws :
  Forall (λ w, is_Some (f w)) ws →
  ∀ done G, groups_of done G →
  ∃ G',
    for_each
      (λ pattern_groups word,
         pattern ← f word;
         let pattern_groups :=
           match odict.get pattern pattern_groups with
           | Some _ => pattern_groups
           | None => odict.set pattern [] pattern_groups
           end in
         Some (odict.set pattern
                 (odict.get_default pattern [] pattern_groups ++ [word])
                 pattern_groups))
      ws G = Some G' ∧
    groups_of (done ++ ws) G'.
Proof.
  induction 1 as [|w ws [pw Hw] _ IH]; intros done G HG; simpl.
  - exists G. by rewrite app_nil_r.
  - rewrite Hw. simpl.
    destruct (IH (done ++ [w]) _ (groups_of_step done G w pw HG Hw))
      as (G' & Hrun & HG').
    exists G'. split; [exact Hrun|]. by rewrite <- app_assoc in HG'.
Qed.

Lemma groups_of_elem ws G p grp :
  groups_of ws G → (p, grp) ∈ G →
  grp = filter (λ w, f w = Some p) ws ∧ grp ≠ [].
Proof.
  intros [Hnd Hget] Hin. apply odict_elem_get in Hin; [|done].
  rewrite Hget in Hin. cbv zeta in Hin.
  destruct (decide _) as [|Hne]; [done|]. by injection Hin as <-.
Qed.

Lemma groups_of_key ws G p :
  groups_of ws G → p ∈ G.*1 ↔ ∃ w, w ∈ ws ∧ f w = Some p.
Proof.
  intros [Hnd Hget]. split.
  - intros Hin. destruct (odict.get p G) as [grp|] eqn:Hg.
    + rewrite Hget in Hg. cbv zeta in Hg.
      destruct (filter (λ w, f w = Some p) ws) as [|w grp'] eqn:Hf; [done|].
      exists w. apply and_comm.
      apply (list_elem_of_filter (λ w, f w = Some p) ws).
      rewrite Hf. by left.
    + by apply odict_get_None in Hg.
  - intros (w & Hw & Hp). apply dec_stable. intros Hnot.
    apply odict_get_None in Hnot. rewrite Hget in Hnot. cbv zeta in Hnot.
    destruct (decide _) as [Hnil|]; [|done].
    assert (w ∈ filter (λ w, f w = Some p) ws) as Hin
      by (by apply list_elem_of_filter).
    rewrite Hnil in Hin. by apply elem_of_nil in Hin.
Qed.

(** No two words share a pattern exactly when no group has two words. *)
Lemma NoDup_groups ws :
  Forall (λ w, is_Some (f w)) ws →
  NoDup (f <$> ws) ↔
  ∀ p, (length (filter (λ w, f w = Some p) ws) ≤ 1)%nat.
Proof.
  induction 1 as [|w ws [pw Hpw] _ IH]; simpl.
  - split; [intros _ p; simpl; lia|intros _; constructor].
  - rewrite NoDup_cons, IH. split.
    + intros [Hnotin Hall] p. rewrite filter_cons.
      destruct (decide (f w = Some p)) as [Hp|Hp]; [|by apply Hall].
      destruct (filter (λ w, f w = Some p) ws) as [|w' grp] eqn:Hf;
        [simpl; lia|].
      destruct Hnotin. apply list_elem_of_fmap. exists w'.
      assert (w' ∈ filter (λ w, f w = Some p) ws) as Hin
        by (rewrite Hf; by left).
      apply list_elem_of_filter in Hin as [Hw' ?]. split; [congruence|done].
    + intros Hall. split.
      * intros Hin. apply list_elem_of_fmap in Hin as (w' & Heq & Hw').
        specialize (Hall pw). rewrite filter_cons_True in Hall by done.
        assert (w' ∈ filter (λ w, f w = Some pw) ws) as Hin
          by (apply list_elem_of_filter; split; [congruence|done]).
        destruct (filter (λ w, f w = Some pw) ws); simpl in Hall;
          [by apply elem_of_nil in Hin|lia].
      * intros p. specialize (Hall p). rewrite filter_cons in Hall.
        destruct (decide _); simpl in Hall; lia.
Qed.

Lemma patterns_distinct ws :
  Forall (λ w, is_Some (f w)) ws →
  (∃ ps, Forall2 (λ w p, f w = Some p) ws ps ∧ NoDup ps) ↔ NoDup (f <$> ws).
Proof.
  intros Htotal.
  assert (∃ ps, Forall2 (λ w p, f w = Some p) ws ps) as [ps Hps].
  { induction Htotal as [|w ws [pw Hpw] _ [ps IH]]; [by exists []|].
    exists (pw :: ps). by constructor. }
  assert (∀ qs, Forall2 (λ w p, f w = Some p) ws qs → f <$> ws = Some <$> qs)
    as Hfmap.
  { clear Htotal Hps. intros qs Hqs.
    induction Hqs as [|w q ws qs Hq _ IH]; [done|].
    by rewrite !fmap_cons, Hq, IH. }
  split.
  - intros (qs & Hqs & Hnd). rewrite (Hfmap qs Hqs).
    by apply (NoDup_fmap_2 Some).
  - intros Hnd. exists ps. split; [done|].
    rewrite (Hfmap ps Hps) in Hnd. by apply (NoDup_fmap_1 Some) in Hnd.
Qed.
End Groups.

Lemma foldl_max_spec (l : list Z) :
  ∀ x, (foldl Z.max x l = x ∨ foldl Z.max x l ∈ l) ∧
       x ≤ foldl Z.max x l ∧ Forall (λ y, y ≤ foldl Z.max x l) l.
Proof.
  induction l as [|y l IH]; intros x; simpl.
  - split_and!; [by left|lia|constructor].
  - destruct (IH (x `max` y)) as (Hin & Hle & Hall). split_and!.
    + destruct Hin as [Heq|Hin]; [|right; by right].
      rewrite Heq. destruct (Z.max_spec x y) as [[_ ->]|[_ ->]];
        [right; by left|by left].
    + lia.
    + constructor; [lia|done].
Qed.

Lemma max_of_spec (l : list Z) m :
  max_of l = Some m → m ∈ l ∧ Forall (λ y, y ≤ m) l.
Proof.
  destruct l as [|x l]; [done|]. simpl. intros [= <-].
  destruct (foldl_max_spec l x) as (Hin & Hle & Hall). split.
  - destruct Hin as [->|Hin]; [by left|by right].
  - by constructor.
Qed.

Lemma _get_pattern_total g ws :
  length g = 5%nat → Forall (λ w, length w = 5%nat) ws →
  Forall (λ w, is_Some (_get_pattern g w)) ws.
Proof.
  intros Hg Hws. eapply Forall_impl; [exact Hws|]. intros w Hw. simpl.
  rewrite _get_pattern_score by done. eauto.
Qed.

Lemma fully_disambiguating_groups g ws :
  length g = 5%nat → Forall (λ w, length w = 5%nat) ws →
  is_fully_disambiguating g ws = Some true ↔
  ∀ p, (length (filter (λ w, _get_pattern g w = Some p) ws) ≤ 1)%nat.
Proof.
  intros Hg Hws. pose proof (_get_pattern_total g ws Hg Hws) as Htotal.
  rewrite <- (NoDup_groups _ ws Htotal), <- (patterns_distinct _ ws Htotal).
  unfold is_fully_disambiguating. rewrite disambiguating_from_true. split.
  - intros (ps & ? & ? & _). eauto.
  - intros (ps & ? & ?). exists ps. split_and!; [done..|]. set_solver.
Qed.

(** What [get_disambiguation_quality] returns on a search space that is
    not empty. *)
Lemma quality_run g ws :
  length g = 5%nat → Forall (λ w, length w = 5%nat) ws → ws ≠ [] →
  ∃ (m : nat) G,
    get_disambiguation_quality g ws
    = Some (Z.of_nat m, - Z.of_nat (length G)) ∧
    groups_of (_get_pattern g) ws G ∧
    (∃ p grp, (p, grp) ∈ G ∧ length grp = m) ∧
    (∀ p grp, (p, grp) ∈ G → (length grp ≤ m)%nat).
Proof.
  intros Hg Hws Hne. pose proof (_get_pattern_total g ws Hg Hws) as Htotal.
  destruct (groups_of_loop (_get_pattern g) ws Htotal [] [])
    as (G & Hrun & HG).
  { split; [constructor|]. intros p. done. }
  change ([] ++ ws) with ws in HG.
  assert (get_disambiguation_quality g ws
          = max_partition_size ←
              max_of ((λ group : list (list ascii), Z.of_nat (length group))
                        <$> odict.values G);
            Some (max_partition_size, - Z.of_nat (length G))) as Hq
    by (unfold get_disambiguation_quality; cbv zeta in Hrun; rewrite Hrun;
        reflexivity).
  destruct (max_of ((λ group : list (list ascii), Z.of_nat (length group))
                      <$> odict.values G)) as [mz|] eqn:Hmax.
  - apply max_of_spec in Hmax as [Hin Hall].
    apply list_elem_of_fmap in Hin as (grp & -> & Hin).
    unfold odict.values in Hin.
    apply list_elem_of_fmap in Hin as ([p grp'] & Heq & Hin).
    simpl in Heq. subst grp'.
    exists (length grp), G.
    split_and!; [by rewrite Hq|done|by exists p, grp|].
    intros q grp' Hin'. rewrite Forall_forall in Hall.
    assert (Z.of_nat (length grp') ≤ Z.of_nat (length grp)); [|lia].
    apply Hall. apply list_elem_of_fmap. exists grp'. split; [done|].
    unfold odict.values. apply list_elem_of_fmap. by exists (q, grp').
  - exfalso. destruct ws as [|w ws]; [done|].
    apply Forall_cons in Htotal as [[pw Hpw] _].
    assert (pw ∈ G.*1) as Hkey.
    { apply (groups_of_key _ _ _ _ HG). exists w. split; [by left|done]. }
    destruct G; [by apply elem_of_nil in Hkey|done].
Qed.
End Quality.

(** X10. [get_disambiguation_quality] measures the partition that a
    guess makes of the search space: on five-letter words it raises
    exactly when the search space is empty (the [max] of no group), and
    otherwise returns the size of a largest group of words with one
    pattern and minus the number of distinct patterns. The size is 1
    exactly when [is_fully_disambiguating] accepts the guess. *)
Theorem disambiguation_quality_spec (g : list ascii)
    (ws : list (list ascii)) :
  length g = 5%nat →
  Forall (λ w, length w = 5%nat) ws →
  (ws = [] → Vitto.get_disambiguation_quality g ws = None) ∧
  (ws ≠ [] →
   ∃ (m : nat) (keys : list (list ascii)),
     Vitto.get_disambiguation_quality g ws
     = Some (Z.of_nat m, - Z.of_nat (length keys)) ∧
     NoDup keys ∧
     (∀ p, p ∈ keys ↔ ∃ w, w ∈ ws ∧ Vitto._get_pattern g w = Some p) ∧
     (∀ p, (length (filter (λ w, Vitto._get_pattern g w = Some p) ws) ≤ m)%nat) ∧
     (∃ p, length (filter (λ w, Vitto._get_pattern g w = Some p) ws) = m) ∧
     (m = 1%nat ↔ Vitto.is_fully_disambiguating g ws = Some true)).
Proof.
  intros Hg Hws. split; [by intros ->|]. intros Hne.
  destruct (quality_run g ws Hg Hws Hne)
    as (m & G & Hrun & HG & (pm & grpm & Hinm & Hm) & Hmax).
  assert (∀ p, (length (filter (λ w, Vitto._get_pattern g w = Some p) ws)
                ≤ m)%nat) as Hall.
  { intros p. destruct HG as [Hnd Hget]. specialize (Hget p).
    cbv zeta in Hget. destruct (decide _) as [->|Hnil]; [simpl; lia|].
    apply odict_get_elem in Hget. by apply Hmax in Hget. }
  assert (length (filter (λ w, Vitto._get_pattern g w = Some pm) ws) = m)
    as Hpm.
  { destruct (groups_of_elem _ _ _ _ _ HG Hinm) as [<- _]. done. }
  exists m, G.*1. rewrite length_fmap. split_and!.
  - exact Hrun.
  - by destruct HG.
  - intros p. by apply groups_of_key.
  - exact Hall.
  - by exists pm.
  - rewrite fully_disambiguating_groups by done. split.
    + intros -> p. apply Hall.
    + intros Hone. specialize (Hone pm). rewrite Hpm in Hone.
      destruct (groups_of_elem _ _ _ _ _ HG Hinm) as [-> Hnil].
      destruct (filter _ ws); [done|]. simpl in *. lia.
Qed.

Lemma disambiguation_quality_spec_witness :
  ([str_of "spade"; str_of "space"; str_of "spark"] = [] →
   Vitto.get_disambiguation_quality (str_of "lobby")
     [str_of "spade"; str_of "space"; str_of "spark"] = None) ∧
  ([str_of "spade"; str_of "space"; str_of "spark"] ≠ [] →
   ∃ (m : nat) (keys : list (list ascii)),
     Vitto.get_disambiguation_quality (str_of "lobby")
       [str_of "spade"; str_of "space"; str_of "spark"]
     = Some (Z.of_nat m, - Z.of_nat (length keys)) ∧
     NoDup keys ∧
     (∀ p, p ∈ keys ↔
           ∃ w, w ∈ [str_of "spade"; str_of "space"; str_of "spark"] ∧
                Vitto._get_pattern (str_of "lobby") w = Some p) ∧
     (∀ p, (length (filter
                      (λ w, Vitto._get_pattern (str_of "lobby") w = Some p)
                      [str_of "spade"; str_of "space"; str_of "spark"])
            ≤ m)%nat) ∧
     (∃ p, length (filter
                     (λ w, Vitto._get_pattern (str_of "lobby") w = Some p)
                     [str_of "spade"; str_of "space"; str_of "spark"]) = m) ∧
     (m = 1%nat ↔
      Vitto.is_fully_disambiguating (str_of "lobby")
        [str_of "spade"; str_of "space"; str_of "spark"] = Some true)).
Proof.
  apply (disambiguation_quality_spec (str_of "lobby")
           [str_of "spade"; str_of "space"; str_of "spark"] eq_refl).
  repeat constructor.
Defined.

(** ** The candidates of the disambiguator *)

Section Candidates.
Import Vitto.
Implicit Types (letters w : list ascii) (combos acc : list (list ascii)).

Lemma combinations_spec {A} (l : list A) :
  ∀ r (s : list A), s ∈ combinations l r → length s = r ∧ s `sublist_of` l.
Proof.
  induction l as [|x l IH]; intros [|r] s Hin; simpl in Hin.
  - apply list_elem_of_singleton in Hin as ->. split; [done|constructor].
  - by apply elem_of_nil in Hin.
  - apply list_elem_of_singleton in Hin as ->.
    split; [done|apply sublist_nil_l].
  - apply elem_of_app in Hin as [Hin|Hin].
    + apply list_elem_of_fmap in Hin as (s' & -> & Hin).
      destruct (IH r s' Hin) as [Hlen Hsub].
      split; [simpl; lia|by apply sublist_skip].
    + destruct (IH (S r) s Hin) as [Hlen Hsub].
      split; [done|by apply sublist_cons].
Qed.

Lemma combinations_nonempty {A} (l : list A) :
  ∀ r, (r ≤ length l)%nat → combinations l r ≠ [].
Proof.
  induction l as [|x l IH]; intros [|r] Hr; simpl in *; try done; [lia|].
  intros Hnil. apply app_eq_nil in Hnil as [Hnil _].
  apply fmap_nil_inv in Hnil. apply (IH r); [lia|done].
Qed.

(** The loop of [_generate_word_candidates] takes the first combinations,
    and at least one. *)
Lemma generate_loop_take combos (max_count : Z) :
  ∀ acc,
    generate_loop combos acc max_count
    = acc ++ take (Z.to_nat (1 `max` (max_count - Z.of_nat (length acc))))
               combos.
Proof.
  induction combos as [|combo combos IH]; intros acc; simpl.
  - by rewrite take_nil, app_nil_r.
  - rewrite length_app. simpl. case_bool_decide as Hstop.
    + replace (Z.to_nat (1 `max` (max_count - Z.of_nat (length acc))))
        with 1%nat by lia.
      by rewrite firstn_cons, take_0.
    + rewrite IH, length_app. simpl.
      replace (Z.to_nat (1 `max` (max_count - Z.of_nat (length acc))))
        with (S (Z.to_nat (1 `max` (max_count
                                     - Z.of_nat (length acc + 1)%nat))))
        by lia.
      by rewrite firstn_cons, <- app_assoc.
Qed.

Lemma generate_word_candidates_shape letters (max_count : Z) w :
  w ∈ _generate_word_candidates letters max_count →
  length w = 5%nat ∧ w `sublist_of` letters.
Proof.
  unfold _generate_word_candidates. case_bool_decide as Hlen.
  - rewrite generate_loop_take. simpl. intros Hin.
    apply elem_of_take in Hin as (i & Hin & _).
    apply list_elem_of_lookup_2 in Hin.
    apply combinations_spec in Hin as [Hw Hsub]. split; [done|].
    etrans; [exact Hsub|apply sublist_take].
  - intros Hin. by apply elem_of_nil in Hin.
Qed.
End Candidates.

(** X11. [_generate_word_candidates(letters, max_count)] returns nothing
    from fewer than five letters; otherwise it returns the first
    [max(1, max_count)] combinations of five of the first ten letters (all
    of them when there are fewer), hence at least one candidate even when
    [max_count] is zero or negative. Every candidate has five letters,
    taken from the first ten of [letters] in their order, and so without a
    repeated letter when [letters] has none. *)
Theorem generate_word_candidates_spec (letters : list ascii)
    (max_count : Z) :
  ((length letters < 5)%nat →
   Vitto._generate_word_candidates letters max_count = []) ∧
  ((5 ≤ length letters)%nat →
   Vitto._generate_word_candidates letters max_count
   = take (Z.to_nat (1 `max` max_count))
       (Vitto.combinations (take 10 letters) 5) ∧
   Vitto._generate_word_candidates letters max_count ≠ []) ∧
  (Z.of_nat (length (Vitto._generate_word_candidates letters max_count))
   ≤ 1 `max` max_count) ∧
  ∀ w, w ∈ Vitto._generate_word_candidates letters max_count →
       length w = 5%nat ∧ w `sublist_of` take 10 letters ∧
       (NoDup letters → NoDup w).
Proof.
  assert (Vitto._generate_word_candidates letters max_count
          = if bool_decide (5 ≤ length letters)%nat
            then take (Z.to_nat (1 `max` max_count))
                   (Vitto.combinations (take 10 letters) 5)
            else []) as Heq.
  { unfold Vitto._generate_word_candidates. case_bool_decide; [|done].
    rewrite generate_loop_take. simpl. by rewrite Z.sub_0_r. }
  split_and!.
  - intros Hlt. rewrite Heq. by rewrite bool_decide_eq_false_2 by lia.
  - intros Hge. rewrite Heq, bool_decide_eq_true_2 by done.
    split; [done|].
    pose proof (combinations_nonempty (take 10 letters) 5) as Hne.
    rewrite length_take in Hne.
    destruct (Vitto.combinations (take 10 letters) 5) as [|combo combos];
      [exfalso; apply Hne; [lia|done]|].
    replace (Z.to_nat (1 `max` max_count))
      with (S (Z.to_nat (1 `max` max_count) - 1)) by lia.
    done.
  - rewrite Heq. case_bool_decide; [|simpl; lia].
    rewrite length_take. lia.
  - intros w. rewrite Heq. case_bool_decide.
    + intros Hin. apply elem_of_take in Hin as (i & Hin & _).
      apply list_elem_of_lookup_2 in Hin.
      apply combinations_spec in Hin as [Hw Hsub].
      split_and!; [done..|]. intros Hnd.
      eapply sublist_NoDup; [|exact Hsub].
      eapply sublist_NoDup; [exact Hnd|apply sublist_take].
    + intros Hin. by apply elem_of_nil in Hin.
Qed.

(** ** The proposed disambiguator *)

Section Propose.
Import Vitto.
Implicit Types (g w : list ascii) (space cands : list (list ascii)).
Implicit Types (d : list (ascii * Z)).

Lemma disambiguating_from_total (seen : gset (list ascii)) g space :
  Forall (λ w, is_Some (_get_pattern g w)) space →
  is_Some (disambiguating_from seen g space).
Proof.
  intros Htotal. revert seen.
  induction Htotal as [|w space [p Hp] _ IH]; intros seen; simpl; [eauto|].
  rewrite Hp. simpl. case_bool_decide; [eauto|apply IH].
Qed.

Lemma quality_counts g space :
  length g = 5%nat → Forall (λ w, length w = 5%nat) space → space ≠ [] →
  ∃ (m : nat) (n : Z),
    get_disambiguation_quality g space = Some (Z.of_nat m, n) ∧
    ∀ p, (length (filter (λ w, _get_pattern g w = Some p) space) ≤ m)%nat.
Proof.
  intros Hg Hws Hne.
  destruct (quality_run g space Hg Hws Hne)
    as (m & G & Hrun & [Hnd Hget] & _ & Hmax).
  exists m, (- Z.of_nat (length G)). split; [done|].
  intros p. specialize (Hget p). cbv zeta in Hget.
  destruct (decide _) as [->|Hnil]; [simpl; lia|].
  apply odict_get_elem in Hget. by apply Hmax in Hget.
Qed.

(** [_evaluate_candidates] returns, and what it returns is the
    disambiguator it was given or a candidate that leaves at most two
    words for a pattern. *)
Lemma evaluate_candidates_spec space cands :
  Forall (λ w, length w = 5%nat) space →
  Forall (λ w, length w = 5%nat) cands →
  ∀ best q, ∃ best' q',
    _evaluate_candidates space cands best q = Some (best', q') ∧
    (best' = best ∨
     ∃ w, best' = Some w ∧ w ∈ cands ∧
          ∀ p, (length (filter (λ v, _get_pattern w v = Some p) space)
                ≤ 2)%nat).
Proof.
  intros Hspace Hcands.
  induction Hcands as [|w cands Hw _ IH]; intros best q; simpl.
  - exists best, q. split; [done|by left].
  - destruct (disambiguating_from_total ∅ w space
                (_get_pattern_total w space Hw Hspace)) as [full Hfull].
    unfold is_fully_disambiguating at 1. rewrite Hfull. simpl.
    destruct full.
    + eexists _, _. split; [done|]. right. exists w.
      split_and!; [done|by left|].
      intros p. etrans; [|apply (Nat.le_succ_diag_r 1)].
      by apply (fully_disambiguating_groups w space Hw Hspace).
    + assert (space ≠ []) as Hne by (by intros ->).
      destruct (quality_counts w space Hw Hspace Hne) as (m & n & -> & Hm).
      simpl.
      assert (∀ best1 q1,
        (best1 = best ∨ best1 = Some w ∧ (m ≤ 2)%nat) →
        ∃ best' q',
          _evaluate_candidates space cands best1 q1 = Some (best', q') ∧
          (best' = best ∨
           ∃ w0, best' = Some w0 ∧ w0 ∈ w :: cands ∧
             ∀ p, (length (filter (λ v, _get_pattern w0 v = Some p) space)
                   ≤ 2)%nat)) as Hrest.
      { intros best1 q1 Hbest1.
        destruct (IH best1 q1) as (best' & q' & Hrun & Hcase).
        exists best', q'. split; [done|].
        destruct Hcase as [->|(w0 & -> & Hin & Hpairs)].
        - destruct Hbest1 as [->|[-> Hle]]; [by left|].
          right. exists w. split_and!; [done|by left|].
          intros p. specialize (Hm p). lia.
        - right. exists w0. split_and!; [done|by right|done]. }
      case_bool_decide as Hbig; [apply Hrest; by left|].
      destruct (quality_lt _ q); apply Hrest; [right|by left].
      split; [done|lia].
Qed.

Lemma elem_of_concat (c : ascii) space :
  c ∈ concat space ↔ ∃ w, w ∈ space ∧ c ∈ w.
Proof.
  induction space as [|v space IH]; simpl.
  - split; [intros H; by apply elem_of_nil in H|].
    intros (w & H & _). by apply elem_of_nil in H.
  - rewrite elem_of_app, IH. split.
    + intros [Hc|(w & Hw & Hc)]; [exists v; split; [by left|done]|].
      exists w. split; [by right|done].
    + intros (w & Hw & Hc). apply elem_of_cons in Hw as [->|Hw];
        [by left|right; eauto].
Qed.

(** The keys of the letter counter: the letters of the search space, each
    once. *)
Lemma absolute_frequencies_keys space :
  NoDup (_compute_absolute_frequencies space).*1 ∧
  ∀ c, c ∈ (_compute_absolute_frequencies space).*1 → c ∈ concat space.
Proof.
  unfold _compute_absolute_frequencies.
  apply (foldl_invariant
           (λ d c, odict.set c (odict.get_default c 0 d + 1) d)
           (λ d, NoDup d.*1 ∧ ∀ c, c ∈ d.*1 → c ∈ concat space)).
  - split; [constructor|]. intros c H. by apply elem_of_nil in H.
  - intros d c Hc [Hnd Hsub]. split; [by apply odict_NoDup_set|].
    intros x Hx. apply odict_keys_set in Hx as [->|Hx]; [done|by apply Hsub].
Qed.

Lemma insert_ascending_perm (x : ascii * Z) d :
  insert_ascending x d ≡ₚ x :: d.
Proof.
  induction d as [|y d IH]; simpl; [done|].
  case_bool_decide; [|done]. rewrite IH. apply perm_swap.
Qed.

Lemma sorted_by_count_perm d : sorted_by_count d ≡ₚ d.
Proof.
  unfold sorted_by_count. induction d as [|x d IH]; simpl; [done|].
  by rewrite insert_ascending_perm, IH.
Qed.

(** Rare letters and other letters together: no letter twice. *)
Lemma NoDup_rare_other d :
  NoDup d.*1 →
  NoDup ((filter (λ lc : ascii * Z, lc.2 ≤ 2) d).*1
         ++ (filter (λ lc : ascii * Z, 2 < lc.2) d).*1).
Proof.
  induction d as [|[c n] d IH]; simpl; [intros _; constructor|].
  intros Hnd. apply NoDup_cons in Hnd as [Hnotin Hnd].
  assert (∀ (P : ascii * Z → Prop) `{∀ x, Decision (P x)},
            c ∉ (filter P d).*1) as Hfresh.
  { intros P ? Hin. apply Hnotin.
    apply list_elem_of_fmap in Hin as (lc & -> & Hlc).
    apply list_elem_of_filter in Hlc as [_ Hlc].
    by apply list_elem_of_fmap_2. }
  rewrite !filter_cons. simpl.
  destruct (decide (n ≤ 2)).
  - rewrite decide_False by lia. simpl. constructor; [|by apply IH].
    rewrite elem_of_app. intros [?|?]; by eapply Hfresh.
  - rewrite decide_True by lia. simpl.
    rewrite <- Permutation_middle. constructor; [|by apply IH].
    rewrite elem_of_app. intros [?|?]; by eapply Hfresh.
Qed.

Lemma elem_of_rare_other (c : ascii) d :
  c ∈ (filter (λ lc : ascii * Z, lc.2 ≤ 2) d).*1
      ++ (filter (λ lc : ascii * Z, 2 < lc.2) d).*1 →
  c ∈ d.*1.
Proof.
  rewrite elem_of_app.
  intros [Hin|Hin]; apply list_elem_of_fmap in Hin as (lc & -> & Hlc);
    apply list_elem_of_filter in Hlc as [_ Hlc]; by apply list_elem_of_fmap_2.
Qed.

(** One round of [_evaluate_candidates] on generated candidates. *)
Lemma evaluate_generated space letters (max_count : Z) best q
    (Good : list ascii → Prop) :
  Forall (λ w, length w = 5%nat) space →
  (∀ w, w `sublist_of` letters → length w = 5%nat →
        (∀ p, (length (filter (λ v, _get_pattern w v = Some p) space)
               ≤ 2)%nat) →
        Good w) →
  (∀ w, best = Some w → Good w) →
  ∃ best' q',
    _evaluate_candidates space (_generate_word_candidates letters max_count)
      best q = Some (best', q') ∧
    ∀ w, best' = Some w → Good w.
Proof.
  intros Hspace Hgood Hbest.
  destruct (evaluate_candidates_spec space
              (_generate_word_candidates letters max_count) Hspace)
    with (best := best) (q := q) as (best' & q' & Hrun & Hcase).
  { apply Forall_forall. intros w Hw.
    by apply generate_word_candidates_shape in Hw as [? _]. }
  exists best', q'. split; [done|]. intros w ->.
  destruct Hcase as [<-|(w0 & [= <-] & Hin & Hpairs)]; [by apply Hbest|].
  apply generate_word_candidates_shape in Hin as [Hlen Hsub].
  by apply Hgood.
Qed.

(** [_propose_possible_disambiguators] returns, and what it proposes is
    a word of five distinct letters of the search space that leaves at
    most two words for a pattern. *)
Lemma propose_good (space : list (list ascii)) (max_candidates : Z) :
  Forall (λ w, length w = 5%nat) space →
  ∃ proposal,
    Vitto._propose_possible_disambiguators space max_candidates
    = Some proposal ∧
    ∀ w, proposal = Some w →
      length w = 5%nat ∧ NoDup w ∧
      (∀ c, c ∈ w → ∃ v, v ∈ space ∧ c ∈ v) ∧
      ∀ p, (length (filter (λ v, Vitto._get_pattern w v = Some p) space)
            ≤ 2)%nat.
Proof.
  intros Hspace. unfold Vitto._propose_possible_disambiguators. cbv zeta.
  set (sorted := Vitto.sorted_by_count
                   (Vitto._compute_absolute_frequencies space)).
  set (rare := (filter (λ lc : ascii * Z, lc.2 ≤ 2) sorted).*1).
  set (other := (filter (λ lc : ascii * Z, 2 < lc.2) sorted).*1).
  set (Good := λ w : list ascii,
         length w = 5%nat ∧ NoDup w ∧
         (∀ c, c ∈ w → ∃ v, v ∈ space ∧ c ∈ v) ∧
         ∀ p, (length (filter (λ v, Vitto._get_pattern w v = Some p) space)
               ≤ 2)%nat).
  destruct (absolute_frequencies_keys space) as [Hnd Hkeys].
  assert (sorted.*1 ≡ₚ (Vitto._compute_absolute_frequencies space).*1)
    as Hperm by (unfold sorted; by rewrite sorted_by_count_perm).
  assert (NoDup (rare ++ other)) as Hall.
  { apply NoDup_rare_other. by rewrite Hperm. }
  assert (∀ c, c ∈ rare ++ other → ∃ v, v ∈ space ∧ c ∈ v) as Hletters.
  { intros c Hc. apply elem_of_rare_other in Hc. rewrite Hperm in Hc.
    apply elem_of_concat. by apply Hkeys. }
  assert (∀ letters, letters `sublist_of` rare ++ other →
            ∀ w, w `sublist_of` letters → length w = 5%nat →
              (∀ p, (length (filter (λ v, Vitto._get_pattern w v = Some p)
                               space) ≤ 2)%nat) →
              Good w) as Hgood.
  { intros letters Hsub w Hw Hlen Hpairs.
    assert (w `sublist_of` rare ++ other) as Hw' by (by etrans).
    split_and!; [done| |
      intros c Hc; apply Hletters; by apply (sublist_subseteq _ _ Hw')|done].
    by eapply sublist_NoDup. }
  assert (∃ st1,
    (if bool_decide (5 ≤ length rare)%nat
     then Vitto._evaluate_candidates space
            (Vitto._generate_word_candidates rare (max_candidates `div` 2))
            None Vitto.Worst
     else Some (None, Vitto.Worst)) = Some st1 ∧
    ∀ w, st1.1 = Some w → Good w) as (st1 & -> & Hst1).
  { case_bool_decide.
    - destruct (evaluate_generated space rare (max_candidates `div` 2)
                  None Vitto.Worst Good Hspace)
        as (best' & q' & Hrun & Hbest'); [|done|].
      + apply Hgood. by apply sublist_inserts_r.
      + by exists (best', q').
    - by exists (None, Vitto.Worst). }
  cbn [mbind option_bind].
  assert (∃ st2,
    (if Vitto.quality_above_one st1.2
        && bool_decide (5 ≤ length rare + length other)%nat
     then Vitto._evaluate_candidates space
            (Vitto._generate_word_candidates (rare ++ other)
               (max_candidates `div` 2))
            st1.1 st1.2
     else Some st1) = Some st2 ∧
    ∀ w, st2.1 = Some w → Good w) as (st2 & -> & Hst2).
  { destruct (_ && _).
    - destruct (evaluate_generated space (rare ++ other)
                  (max_candidates `div` 2) st1.1 st1.2 Good Hspace)
        as (best' & q' & Hrun & Hbest'); [|done|].
      + by apply Hgood.
      + by exists (best', q').
    - by exists st1. }
  cbn [mbind option_bind]. eexists. split; [done|]. apply Hst2.
Qed.
End Propose.

(** X12. [_propose_possible_disambiguators] returns without raising on a
    search space of five-letter words, and a word it proposes is a good
    probe: five distinct letters, each a letter of some word of the
    search space, and a feedback to it is shared by at most two words of
    the search space. *)
Theorem propose_disambiguator_spec (space : list (list ascii))
    (max_candidates : Z) :
  Forall (λ w, length w = 5%nat) space →
  ∃ proposal,
    Vitto._propose_possible_disambiguators space max_candidates
    = Some proposal ∧
    ∀ w, proposal = Some w →
      length w = 5%nat ∧ NoDup w ∧
      (∀ c, c ∈ w → ∃ v, v ∈ space ∧ c ∈ v) ∧
      ∀ p, (length (filter (λ v, Vitto._get_pattern w v = Some p) space)
            ≤ 2)%nat.
Proof. apply propose_good. Qed.

Lemma propose_disambiguator_spec_witness :
  ∃ proposal,
    Vitto._propose_possible_disambiguators
      [str_of "spade"; str_of "space"; str_of "spark"] 100
    = Some proposal ∧
    ∀ w, proposal = Some w →
      length w = 5%nat ∧ NoDup w ∧
      (∀ c, c ∈ w →
            ∃ v, v ∈ [str_of "spade"; str_of "space"; str_of "spark"] ∧
                 c ∈ v) ∧
      ∀ p, (length (filter (λ v, Vitto._get_pattern w v = Some p)
                      [str_of "spade"; str_of "space"; str_of "spark"])
            ≤ 2)%nat.
Proof.
  apply (propose_disambiguator_spec
           [str_of "spade"; str_of "space"; str_of "spark"] 100).
  repeat constructor.
Defined.

(** ** A round of [vitto.py] with an honest feedback *)

Section HonestRound.
Import Vitto.
Variable fl : FloatOps.
Variable neg_inf : float fl.
Implicit Types (self : Guesser) (typed result previous guess : list ascii).
Implicit Types (kept : list (list ascii)).

(** Whatever branch picks the guess, the search space left is the
    filtered one. *)
Lemma _get_best_guess_space self result previous kept guess space' :
  last (_tried self) = Some previous →
  filter_words previous result (_search_space self) = Some kept →
  _get_best_guess fl neg_inf self result = Some (guess, space') →
  space' = kept.
Proof.
  intros Hlast Hfilter. unfold _get_best_guess.
  rewrite Hlast, Hfilter. cbn [mbind option_bind].
  case_bool_decide; [by intros [= _ <-]|].
  case_bool_decide.
  { destruct (kept !! 0%nat); simpl; [by intros [= _ <-]|done]. }
  destruct (if bool_decide (length kept ≤ 20)%nat then _ else _)
    as [[word|]|]; simpl; [by intros [= _ <-]| |done].
  destruct (_get_best_guess_by_pattern_entropy fl neg_inf kept) as [[word|]|];
    simpl; [by intros [= _ <-]|done|done].
Qed.

Lemma _get_best_guess_few self result previous kept first :
  last (_tried self) = Some previous →
  filter_words previous result (_search_space self) = Some kept →
  kept !! 0%nat = Some first →
  (length kept ≤ 2)%nat →
  _get_best_guess fl neg_inf self result = Some (first, kept).
Proof.
  intros Hlast Hfilter Hfirst Hfew. unfold _get_best_guess.
  rewrite Hlast, Hfilter. cbn [mbind option_bind].
  rewrite bool_decide_eq_false_2
    by (intros Hnil; apply length_zero_iff_nil in Hnil; by subst).
  rewrite bool_decide_eq_true_2 by done. by rewrite Hfirst.
Qed.
End HonestRound.

(** X13. A round of [vitto.py] after an honest feedback. When the
    feedback is the pattern of a word of the search space (the secret)
    against the last guess, filtering returns a search space that still
    holds the secret, so it is never emptied; any guess that [get_guess]
    then returns leaves exactly this search space and is appended to the
    words tried; and when at most two words are left the guess is the
    first of them, which is the secret itself when one word is left. *)
Theorem vitto_honest_round (fl : FloatOps) (neg_inf : float fl)
    (self : Vitto.Guesser) (typed result previous secret : list ascii) :
  Vitto._manual self = false →
  last (Vitto._tried self) = Some previous →
  length previous = 5%nat →
  mark_free previous →
  Forall (λ w, length w = 5%nat) (Vitto._search_space self) →
  secret ∈ Vitto._search_space self →
  Vitto._get_pattern previous secret = Some result →
  ∃ kept first,
    Vitto.filter_words previous result (Vitto._search_space self)
    = Some kept ∧
    secret ∈ kept ∧ kept `sublist_of` Vitto._search_space self ∧
    kept !! 0%nat = Some first ∧
    (∀ guess self',
       Vitto.get_guess fl neg_inf self typed result = Some (guess, self') →
       Vitto._search_space self' = kept ∧
       Vitto._tried self' = Vitto._tried self ++ [guess] ∧
       Vitto.printed self' = Vitto.printed self ++ [guess] ∧
       Vitto.word_list self' = Vitto.word_list self) ∧
    ((length kept ≤ 2)%nat →
     ∃ self', Vitto.get_guess fl neg_inf self typed result
              = Some (first, self')) ∧
    (length kept = 1%nat → first = secret).
Proof.
  intros Hauto Hlast Hlen Hfree Hspace Hsecret Hresult.
  assert (Forall (λ v, length previous ≤ length v)%nat
            (Vitto._search_space self)) as Hspace'
    by (eapply Forall_impl; [exact Hspace|]; simpl; intros; lia).
  pose proof (filter_words_run previous result _ Hspace') as Hfilter.
  set (kept := filter _ _) in Hfilter.
  assert (secret ∈ kept) as Hin.
  { apply list_elem_of_filter. split; [|done].
    rewrite Forall_forall in Hspace. specialize (Hspace secret Hsecret).
    rewrite _get_pattern_score in Hresult by done. injection Hresult as <-.
    apply word_is_valid_consistent; [lia|done]. }
  destruct kept as [|first kept'] eqn:Hkept; [by apply elem_of_nil in Hin|].
  exists (first :: kept'), first. split_and!.
  - exact Hfilter.
  - exact Hin.
  - rewrite <- Hkept. apply sublist_filter.
  - done.
  - intros guess self'. unfold Vitto.get_guess. rewrite Hauto.
    destruct (Vitto._get_best_guess fl neg_inf self result)
      as [[guess' space']|] eqn:Hbest; [|done].
    simpl. intros [= <- <-]. simpl. split_and!; [|done..].
    by eapply _get_best_guess_space.
  - intros Hfew. unfold Vitto.get_guess. rewrite Hauto.
    rewrite (_get_best_guess_few fl neg_inf self result previous
               (first :: kept') first) by done.
    simpl. eauto.
  - destruct kept'; [|done]. intros _.
    apply list_elem_of_singleton in Hin. done.
Qed.

Lemma vitto_honest_round_witness :
  ∃ kept first,
    Vitto.filter_words (str_of "geese") (str_of "++e++")
      [str_of "tower"; str_of "pleat"; str_of "lobby"]
    = Some kept ∧
    str_of "pleat" ∈ kept ∧
    kept `sublist_of` [str_of "tower"; str_of "pleat"; str_of "lobby"] ∧
    kept !! 0%nat = Some first ∧
    (∀ guess self',
       Vitto.get_guess ideal ideal_neg_inf
         {| Vitto.word_list :=
              [str_of "tower"; str_of "pleat"; str_of "lobby"];
            Vitto._manual := false;
            Vitto._tried := [str_of "geese"];
            Vitto._search_space :=
              [str_of "tower"; str_of "pleat"; str_of "lobby"];
            Vitto.best_first_guess := str_of "geese";
            Vitto.printed := [str_of "geese"] |}
         [] (str_of "++e++") = Some (guess, self') →
       Vitto._search_space self' = kept ∧
       Vitto._tried self' = [str_of "geese"] ++ [guess] ∧
       Vitto.printed self' = [str_of "geese"] ++ [guess] ∧
       Vitto.word_list self'
       = [str_of "tower"; str_of "pleat"; str_of "lobby"]) ∧
    ((length kept ≤ 2)%nat →
     ∃ self',
       Vitto.get_guess ideal ideal_neg_inf
         {| Vitto.word_list :=
              [str_of "tower"; str_of "pleat"; str_of "lobby"];
            Vitto._manual := false;
            Vitto._tried := [str_of "geese"];
            Vitto._search_space :=
              [str_of "tower"; str_of "pleat"; str_of "lobby"];
            Vitto.best_first_guess := str_of "geese";
            Vitto.printed := [str_of "geese"] |}
         [] (str_of "++e++") = Some (first, self')) ∧
    (length kept = 1%nat → first = str_of "pleat").
Proof.
  apply (vitto_honest_round ideal ideal_neg_inf
           {| Vitto.word_list :=
                [str_of "tower"; str_of "pleat"; str_of "lobby"];
              Vitto._manual := false;
              Vitto._tried := [str_of "geese"];
              Vitto._search_space :=
                [str_of "tower"; str_of "pleat"; str_of "lobby"];
              Vitto.best_first_guess := str_of "geese";
              Vitto.printed := [str_of "geese"] |}
           [] (str_of "++e++") (str_of "geese") (str_of "pleat")
           eq_refl eq_refl eq_refl mark_free_geese).
  - repeat constructor.
  - right. left.
  - vm_compute; reflexivity.
Defined.

(** ** The entropy scan of [vitto.py] *)

Section EntropyScan.
Import Vitto.
Variable fl : FloatOps.
Variable neg_inf : float fl.
Hypothesis order : float_order fl.
Implicit Types (g w : list ascii) (space : list (list ascii)).

Section Scan.
Context {A : Type} (key : A → option (float fl)).

Lemma scan_ok_step seen (st : option A * float fl) y ky :
  scan_ok fl neg_inf key seen st → key y = Some ky →
  scan_ok fl neg_inf key (seen ++ [y])
    (if fgt fl ky st.2 then (Some y, ky) else st).
Proof.
  destruct st as [[r|] e]; unfold scan_ok; simpl.
  - intros [Hmax He] Hy. destruct (fgt fl ky e) eqn:Hgt; simpl.
    + split; [by eapply first_maximal_replace|].
      by apply (fgt_trans fl order _ e).
    + split; [by eapply first_maximal_keep|done].
  - intros [-> Hlow] Hy. destruct (fgt fl ky neg_inf) eqn:Hgt; simpl.
    + split; [|done].
      assert (fgt fl neg_inf ky = false) as Hback.
      { destruct (fgt fl neg_inf ky) eqn:Hb; [|done].
        pose proof (fgt_trans fl order _ _ _ Hgt Hb) as Hrefl.
        by rewrite (fgt_irrefl fl order) in Hrefl. }
      split; [done|]. split.
      * intros x kx Hx Hkx. apply elem_of_app in Hx as [Hx|Hx].
        -- apply (fgt_negtrans fl order _ neg_inf); [by eapply Hlow|done].
        -- apply list_elem_of_singleton in Hx as ->.
           assert (kx = ky) as -> by congruence.
           apply (fgt_irrefl fl order).
      * exists seen, []. split; [done|]. intros x kx Hx Hkx.
        destruct (fgt fl ky kx) eqn:Hyx; [done|].
        by rewrite (fgt_negtrans fl order _ _ _ Hyx (Hlow x kx Hx Hkx))
          in Hgt.
    + split; [done|]. intros x kx Hx Hkx.
      apply elem_of_app in Hx as [Hx|Hx]; [by eapply Hlow|].
      apply list_elem_of_singleton in Hx as ->. congruence.
Qed.

Lemma scan_ok_loop (l : list A) :
  Forall (λ x, is_Some (key x)) l →
  ∀ seen st, scan_ok fl neg_inf key seen st →
  ∃ st',
    for_each
      (λ '(best_word, best_entropy) word,
         entropy ← key word;
         Some (if fgt fl entropy best_entropy then (Some word, entropy)
               else (best_word, best_entropy)))
      l st = Some st' ∧
    scan_ok fl neg_inf key (seen ++ l) st'.
Proof.
  induction 1 as [|y l [ky Hy] _ IH]; intros seen [b e] Hst; simpl.
  - eexists. split; [done|]. by rewrite app_nil_r.
  - rewrite Hy. simpl.
    destruct (IH (seen ++ [y]) _ (scan_ok_step seen (b, e) y ky Hst Hy))
      as (st' & Hrun & Hst').
    exists st'. simpl in Hrun. rewrite <- app_assoc in Hst'. split; [|done].
    by destruct (fgt fl ky e).
Qed.
End Scan.

Lemma _compute_pattern_partitions_total g space :
  length g = 5%nat → Forall (λ w, length w = 5%nat) space →
  is_Some (_compute_pattern_partitions g space).
Proof.
  intros Hg Hspace. unfold _compute_pattern_partitions.
  generalize (@nil (list ascii * Z)).
  induction Hspace as [|w space Hw _ IH]; intros d; simpl; [eauto|].
  rewrite _get_pattern_score by done. simpl. apply IH.
Qed.

Lemma _compute_partition_entropy_total g space :
  length g = 5%nat → Forall (λ w, length w = 5%nat) space → space ≠ [] →
  is_Some (_compute_partition_entropy fl g space).
Proof.
  intros Hg Hspace Hne. unfold _compute_partition_entropy.
  destruct (_compute_pattern_partitions_total g space Hg Hspace) as [d ->].
  simpl. apply entropy_sum_total. destruct space; [done|simpl; lia].
Qed.
End EntropyScan.

(** X14. [_get_best_guess_by_pattern_entropy] returns, on a search space
    of five-letter words, the first word of greatest partition entropy:
    no word of the search space has a greater entropy and every word
    before it has a strictly smaller one. It returns [None] only when no
    entropy exceeds minus infinity. *)
Theorem entropy_scan_first_maximal (fl : FloatOps) (neg_inf : float fl)
    (space : list (list ascii)) :
  float_order fl →
  Forall (λ w, length w = 5%nat) space →
  ∃ best,
    Vitto._get_best_guess_by_pattern_entropy fl neg_inf space = Some best ∧
    match best with
    | Some w =>
        ∃ e, first_maximal fl
               (λ w, Vitto._compute_partition_entropy fl w space) space w e ∧
             fgt fl e neg_inf = true
    | None =>
        ∀ w, w ∈ space →
          ∃ e, Vitto._compute_partition_entropy fl w space = Some e ∧
               fgt fl e neg_inf = false
    end.
Proof.
  intros order Hspace.
  assert (Forall (λ w, is_Some (Vitto._compute_partition_entropy fl w space))
            space) as Htotal.
  { apply Forall_forall. intros w Hw.
    apply _compute_partition_entropy_total.
    - rewrite Forall_forall in Hspace. by apply Hspace.
    - done.
    - intros ->. by apply elem_of_nil in Hw. }
  destruct (scan_ok_loop fl neg_inf order
              (λ w, Vitto._compute_partition_entropy fl w space) space Htotal
              [] (None, neg_inf)) as ([best e] & Hrun & Hst).
  { split; [done|]. intros x kx Hx. by apply elem_of_nil in Hx. }
  exists best. unfold Vitto._get_best_guess_by_pattern_entropy.
  rewrite Hrun. split; [done|]. unfold scan_ok in Hst. simpl in Hst.
  destruct best as [w|].
  - by exists e.
  - destruct Hst as [_ Hlow]. intros w Hw.
    rewrite Forall_forall in Htotal. destruct (Htotal w Hw) as [kw Hkw].
    exists kw. split; [done|]. by eapply Hlow.
Qed.

Lemma entropy_scan_first_maximal_witness :
  ∃ best,
    Vitto._get_best_guess_by_pattern_entropy ideal ideal_neg_inf
      [str_of "spade"; str_of "space"; str_of "spark"] = Some best ∧
    match best with
    | Some w =>
        ∃ e, first_maximal ideal
               (λ w, Vitto._compute_partition_entropy ideal w
                       [str_of "spade"; str_of "space"; str_of "spark"])
               [str_of "spade"; str_of "space"; str_of "spark"] w e ∧
             fgt ideal e ideal_neg_inf = true
    | None =>
        ∀ w, w ∈ [str_of "spade"; str_of "space"; str_of "spark"] →
          ∃ e, Vitto._compute_partition_entropy ideal w
                 [str_of "spade"; str_of "space"; str_of "spark"] = Some e ∧
               fgt ideal e ideal_neg_inf = false
    end.
Proof.
  apply (entropy_scan_first_maximal ideal ideal_neg_inf
           [str_of "spade"; str_of "space"; str_of "spark"] ideal_order).
  repeat constructor.
Defined.

(** ** The first guess of [vitto.py] *)

Section FirstGuess.
Import Vitto.
Variable fl : FloatOps.
Variable neg_inf : float fl.
Implicit Types (w v letters : list ascii) (space : list (list ascii)).
Implicit Types (d : list (ascii * Z)) (c : ascii).

Lemma position_counter_from i space :
  Forall (λ w, i < length w)%nat space →
  ∀ d0, ∃ d,
    for_each
      (λ d word, c ← word !! i;
                 Some (odict.set c (odict.get_default c 0 d + 1) d))
      space d0 = Some d ∧
    ∀ c, c ∈ d.*1 → c ∈ d0.*1 ∨ ∃ v, v ∈ space ∧ v !! i = Some c.
Proof.
  induction 1 as [|w space Hw _ IH]; intros d0; simpl.
  - exists d0. split; [done|]. intros c Hc. by left.
  - destruct (lookup_lt_is_Some_2 w i Hw) as [x Hx]. rewrite Hx. simpl.
    destruct (IH (odict.set x (odict.get_default x 0 d0 + 1) d0))
      as (d & Hrun & Hkeys).
    exists d. split; [done|]. intros c Hc.
    destruct (Hkeys c Hc) as [Hin|(v & Hv & Hvi)].
    + apply odict_keys_set in Hin as [->|Hin]; [|by left].
      right. exists w. split; [by left|done].
    + right. exists v. split; [by right|done].
Qed.

Lemma elem_of_insert_descending (y z : ascii * Z) d :
  z ∈ insert_descending y d → z = y ∨ z ∈ d.
Proof.
  induction d as [|h d IH]; simpl.
  - intros Hz. apply list_elem_of_singleton in Hz. by left.
  - case_bool_decide.
    + intros Hz. apply elem_of_cons in Hz as [->|Hz]; [right; by left|].
      destruct (IH Hz) as [->|Hl]; [by left|right; by right].
    + intros Hz. apply elem_of_cons in Hz as [->|Hz]; [by left|by right].
Qed.

Lemma elem_of_most_common_n (n : nat) (z : ascii * Z) d :
  z ∈ most_common_n n d → z ∈ d.
Proof.
  unfold most_common_n. intros Hz. apply subseteq_take in Hz.
  induction d as [|y d IH]; simpl in Hz; [done|].
  apply elem_of_insert_descending in Hz as [->|Hz]; [by left|].
  right. by apply IH.
Qed.

Lemma product_spec {A} (ls : list (list A)) :
  ∀ s : list A, s ∈ product ls → Forall2 (λ x l, x ∈ l) s ls.
Proof.
  induction ls as [|l ls IH]; intros s Hs; simpl in Hs.
  - apply list_elem_of_singleton in Hs as ->. constructor.
  - apply list_elem_of_bind in Hs as (x & Hs & Hx).
    apply list_elem_of_fmap in Hs as (s' & -> & Hs').
    constructor; [done|by apply IH].
Qed.

Lemma size_list_to_set_le letters :
  (size (list_to_set (C := gset ascii) letters) ≤ length letters)%nat.
Proof.
  induction letters as [|x letters IH].
  { rewrite list_to_set_nil, size_empty. simpl. lia. }
  rewrite list_to_set_cons, size_union_alt, size_singleton. simpl.
  assert (size (list_to_set (C := gset ascii) letters ∖ {[x]})
          ≤ size (list_to_set (C := gset ascii) letters))%nat
    by (apply subseteq_size; set_solver).
  lia.
Qed.

(** [len(set(letters)) == len(letters)]: no letter twice. *)
Lemma size_list_to_set_NoDup letters :
  size (list_to_set (C := gset ascii) letters) = length letters →
  NoDup letters.
Proof.
  induction letters as [|x letters IH]; [constructor|].
  rewrite list_to_set_cons. simpl.
  intros Hsize. destruct (decide (x ∈ letters)) as [Hin|Hnotin].
  - pose proof (size_list_to_set_le letters) as Hle.
    assert (size ({[x]} ∪ list_to_set (C := gset ascii) letters)
            ≤ size (list_to_set (C := gset ascii) letters))%nat
      by (apply subseteq_size; set_solver).
    lia.
  - constructor; [done|]. apply IH.
    rewrite size_union, size_singleton in Hsize by set_solver. lia.
Qed.

(** The scan of [_find_first_guess]: it returns, and the word it keeps
    is one of the combinations with five distinct letters. *)
Lemma first_guess_scan_spec space (combos : list (list ascii)) :
  Forall (λ w, length w = 5%nat) space → space ≠ [] →
  Forall (λ letters, length letters = 5%nat) combos →
  ∀ st : option (list ascii) * float fl, ∃ st',
    for_each
      (λ '(best_word, best_entropy) letters,
         if bool_decide (size (list_to_set (C := gset ascii) letters)
                         ≠ 5%nat)
         then Some (best_word, best_entropy)
         else
           let word := letters in
           pattern_entropy ← _compute_partition_entropy fl word space;
           Some (if fgt fl pattern_entropy best_entropy
                 then (Some word, pattern_entropy)
                 else (best_word, best_entropy)))
      combos st = Some st' ∧
    (st'.1 = st.1 ∨ ∃ w, st'.1 = Some w ∧ w ∈ combos ∧ NoDup w).
Proof.
  intros Hspace Hne Hcombos.
  induction Hcombos as [|letters combos Hlen _ IH]; intros [b e]; simpl.
  - eexists. split; [done|by left].
  - assert (∀ st1 : option (list ascii) * float fl,
      (st1.1 = b ∨ st1.1 = Some letters ∧ NoDup letters) →
      ∃ st',
        for_each
          (λ '(best_word, best_entropy) letters,
             if bool_decide (size (list_to_set (C := gset ascii) letters)
                             ≠ 5%nat)
             then Some (best_word, best_entropy)
             else
               let word := letters in
               pattern_entropy ← _compute_partition_entropy fl word space;
               Some (if fgt fl pattern_entropy best_entropy
                     then (Some word, pattern_entropy)
                     else (best_word, best_entropy)))
          combos st1 = Some st' ∧
        (st'.1 = b ∨ ∃ w, st'.1 = Some w ∧ w ∈ letters :: combos ∧ NoDup w))
      as Hrest.
    { intros st1 Hst1. destruct (IH st1) as (st' & Hrun & Hcase).
      exists st'. split; [done|].
      destruct Hcase as [Heq|(w & Hw & Hin & Hnd)].
      - rewrite Heq. destruct Hst1 as [?|[? ?]]; [by left|].
        right. exists letters. split_and!; [done|by left|done].
      - right. exists w. split_and!; [done|by right|done]. }
    case_bool_decide as Hsize; [apply Hrest; by left|].
    destruct (_compute_partition_entropy_total fl letters space Hlen Hspace
                Hne) as [pe ->].
    simpl. destruct (fgt fl pe e); apply Hrest; [right|by left].
    split; [done|]. apply size_list_to_set_NoDup.
    by rewrite Hsize, Hlen.
Qed.

Lemma _compute_letter_frequencies_spec space :
  Forall (λ w, length w = 5%nat) space →
  ∃ lf,
    _compute_letter_frequencies space = Some lf ∧
    length lf = 5%nat ∧
    ∀ i d c, lf !! i = Some d → c ∈ d.*1 →
             ∃ v, v ∈ space ∧ v !! i = Some c.
Proof.
  intros Hspace. unfold _compute_letter_frequencies.
  destruct (mapM_is_Some_2 (λ i, position_counter i space) (seq 0 5))
    as [lf Hlf].
  { apply Forall_forall. intros i Hi. apply elem_of_seq in Hi. simpl.
    destruct (position_counter_from i space) with (d0 := @nil (ascii * Z))
      as (d & Hd & _); [|by exists d].
    eapply Forall_impl; [exact Hspace|]. simpl. intros; lia. }
  exists lf. split; [done|].
  apply mapM_Some in Hlf. split.
  - apply Forall2_length in Hlf. by rewrite <- Hlf.
  - intros i d c Hi Hc.
    destruct (Forall2_lookup_r _ _ _ _ _ Hlf Hi) as (j & Hj & Hd).
    apply lookup_seq in Hj as [-> Hlt]. simpl in Hd.
    destruct (position_counter_from i space) with (d0 := @nil (ascii * Z))
      as (d' & Hd' & Hkeys).
    { eapply Forall_impl; [exact Hspace|]. simpl. intros; lia. }
    unfold position_counter in Hd. rewrite Hd' in Hd. injection Hd as ->.
    destruct (Hkeys c Hc) as [Hnil|?]; [by apply elem_of_nil in Hnil|done].
Qed.
End FirstGuess.

(** X15. [_find_first_guess] returns without raising on a search space
    of five-letter words, and the word it finds (if any) is well formed:
    five distinct letters, the letter at each position being the letter of
    some word of the search space at that same position; so it holds no
    feedback sign when no word of the search space does. On an empty
    search space it finds no word. *)
Theorem find_first_guess_shape (fl : FloatOps) (neg_inf : float fl)
    (space : list (list ascii)) :
  Forall (λ w, length w = 5%nat) space →
  ∃ best,
    Vitto._find_first_guess fl neg_inf space = Some best ∧
    (space = [] → best = None) ∧
    ∀ w, best = Some w →
      length w = 5%nat ∧ NoDup w ∧
      (∀ i c, w !! i = Some c → ∃ v, v ∈ space ∧ v !! i = Some c) ∧
      (Forall mark_free space → mark_free w).
Proof.
  intros Hspace. destruct (decide (space = [])) as [->|Hne].
  { exists None. split; [vm_compute; reflexivity|]. split; [done|]. done. }
  destruct (_compute_letter_frequencies_spec space Hspace)
    as (lf & Hlf & Hlen & Hkeys).
  unfold Vitto._find_first_guess. rewrite Hlf. cbn [mbind option_bind].
  set (tops := (λ pos_freq, (Vitto.most_common_n 3 pos_freq).*1) <$> lf).
  assert (∀ w, w ∈ Vitto.product tops →
            length w = 5%nat ∧
            ∀ i c, w !! i = Some c → ∃ v, v ∈ space ∧ v !! i = Some c)
    as Hshape.
  { intros w Hw. apply product_spec in Hw. split.
    - apply Forall2_length in Hw. rewrite Hw. unfold tops.
      by rewrite length_fmap.
    - intros i c Hc.
      destruct (Forall2_lookup_l _ _ _ _ _ Hw Hc) as (top & Htop & Hin).
      unfold tops in Htop. rewrite list_lookup_fmap in Htop.
      destruct (lf !! i) as [d|] eqn:Hd; [|done].
      injection Htop as <-.
      apply list_elem_of_fmap in Hin as ([c' n] & -> & Hin).
      apply elem_of_most_common_n in Hin.
      apply (Hkeys i d); [done|]. by apply (list_elem_of_fmap_2 fst) in Hin. }
  destruct (first_guess_scan_spec fl space (Vitto.product tops) Hspace Hne)
    with (st := (@None (list ascii), neg_inf)) as (st' & Hrun & Hcase).
  { apply Forall_forall. intros w Hw. by apply Hshape. }
  cbv zeta in Hrun. rewrite Hrun. cbn [mbind option_bind]. exists st'.1.
  split; [done|]. split; [done|].
  intros w Hbest.
  destruct Hcase as [Hnone|(w' & Hw' & Hin & Hnd)];
    [simpl in Hnone; congruence|].
  assert (w' = w) as -> by congruence.
  destruct (Hshape w Hin) as [Hw Hletters].
  split_and!; [done..|].
  intros Hfree. rewrite Forall_forall in Hfree.
  split; intros Hsign; apply list_elem_of_lookup in Hsign as [i Hi];
    destruct (Hletters i _ Hi) as (v & Hv & Hvi);
    apply list_elem_of_lookup_2 in Hvi;
    destruct (Hfree v Hv) as [Hplus Hminus]; done.
Qed.

Lemma find_first_guess_shape_witness :
  ∃ best,
    Vitto._find_first_guess ideal ideal_neg_inf
      [str_of "spade"; str_of "space"; str_of "spark"] = Some best ∧
    ([str_of "spade"; str_of "space"; str_of "spark"] = [] → best = None) ∧
    ∀ w, best = Some w →
      length w = 5%nat ∧ NoDup w ∧
      (∀ i c, w !! i = Some c →
              ∃ v, v ∈ [str_of "spade"; str_of "space"; str_of "spark"] ∧
                   v !! i = Some c) ∧
      (Forall mark_free [str_of "spade"; str_of "space"; str_of "spark"] →
       mark_free w).
Proof.
  apply (find_first_guess_shape ideal ideal_neg_inf
           [str_of "spade"; str_of "space"; str_of "spark"]).
  repeat constructor.
Defined.

(** ** A game of [vitto.py] *)

Section Game.
Import Vitto.
Variable fl : FloatOps.
Variable neg_inf : float fl.
Implicit Types (self : Guesser) (typed result previous guess w : list ascii).
Implicit Types (kept space words : list (list ascii)).

Lemma well_formed_zzzzz : well_formed (str_of "zzzzz").
Proof.
  split; [done|].
  split; intros Hin;
    repeat (apply elem_of_cons in Hin as [Heq|Hin]; [discriminate|]);
    by apply elem_of_nil in Hin.
Qed.

Lemma first_disambiguating_elem words space w :
  first_disambiguating words space = Some (Some w) → w ∈ words.
Proof.
  induction words as [|v words IH]; simpl; [done|].
  destruct (is_fully_disambiguating v space) as [[|]|]; simpl; [| |done].
  - intros [= ->]. by left.
  - intros Hrest. right. by apply IH.
Qed.

Lemma entropy_scan_elem space w :
  _get_best_guess_by_pattern_entropy fl neg_inf space = Some (Some w) →
  w ∈ space.
Proof.
  unfold _get_best_guess_by_pattern_entropy.
  assert (∀ (l : list (list ascii)) (st st' : option (list ascii) * float fl),
    for_each
      (λ '(best_word, best_entropy) word,
         entropy ← _compute_partition_entropy fl word space;
         Some (if fgt fl entropy best_entropy then (Some word, entropy)
               else (best_word, best_entropy)))
      l st = Some st' →
    st'.1 = st.1 ∨ ∃ v, st'.1 = Some v ∧ v ∈ l) as Hscan.
  { induction l as [|v l IH]; intros [b e] st'; simpl.
    - intros [= <-]. by left.
    - destruct (_compute_partition_entropy fl v space) as [ev|]; [|done].
      simpl. intros Hrun. apply IH in Hrun as [Heq|(v' & Hv' & Hin)].
      + destruct (fgt fl ev e); simpl in Heq; [|by left].
        right. exists v. split; [done|by left].
      + right. exists v'. split; [done|by right]. }
  destruct (for_each _ space (None, neg_inf)) as [st'|] eqn:Hrun; [|done].
  simpl. intros [= Hbest].
  apply Hscan in Hrun as [Heq|(v & Hv & Hin)]; simpl in *; congruence.
Qed.

(** The guess that [_get_best_guess] picks after filtering can be
    guessed. *)
Lemma _get_best_guess_well_formed self result previous kept guess space' :
  last (_tried self) = Some previous →
  filter_words previous result (_search_space self) = Some kept →
  Forall well_formed kept →
  _get_best_guess fl neg_inf self result = Some (guess, space') →
  well_formed guess.
Proof.
  intros Hlast Hfilter Hkept. unfold _get_best_guess.
  rewrite Hlast, Hfilter. cbn [mbind option_bind].
  rewrite Forall_forall in Hkept.
  case_bool_decide; [intros [= <- _]; apply well_formed_zzzzz|].
  case_bool_decide.
  { destruct (kept !! 0%nat) as [first|] eqn:Hfirst; simpl; [|done].
    intros [= <- _]. apply Hkept. by eapply list_elem_of_lookup_2. }
  assert (∀ word,
    (if bool_decide (length kept ≤ 20)%nat
     then found ← first_disambiguating kept kept;
          match found with
          | Some word => Some (Some word)
          | None =>
              disambiguator ← _propose_possible_disambiguators kept 100;
              match disambiguator with
              | Some word =>
                  Some (if bool_decide (word = []) then None else Some word)
              | None => Some None
              end
          end
     else Some None) = Some (Some word) → well_formed word) as Hearly.
  { intros word. case_bool_decide; [|done].
    destruct (first_disambiguating kept kept) as [[found|]|] eqn:Hfound;
      simpl; [| |done].
    - intros [= <-]. apply Hkept. by eapply first_disambiguating_elem.
    - destruct (propose_good kept 100) as (proposal & Hrun & Hgood).
      { apply Forall_forall. intros v Hv. by apply Hkept. }
      rewrite Hrun. simpl. destruct proposal as [w|]; [|done].
      case_bool_decide; [done|]. intros [= <-].
      destruct (Hgood w eq_refl) as (Hlen & _ & Hletters & _).
      split; [done|].
      split; intros Hsign; destruct (Hletters _ Hsign) as (v & Hv & Hin);
        destruct (Hkept v Hv) as [_ [Hplus Hminus]]; done. }
  destruct (if bool_decide (length kept ≤ 20)%nat then _ else _)
    as [[word|]|]; simpl; [| |done].
  - intros [= <- _]. by apply Hearly.
  - destruct (_get_best_guess_by_pattern_entropy fl neg_inf kept)
      as [[word|]|] eqn:Hscan; simpl; [|done|done].
    intros [= <- _]. apply Hkept. by apply entropy_scan_elem.
Qed.

(** What filtering returns for a guesser whose words can be guessed. *)
Lemma filter_words_ok self result previous :
  vitto_ok self → last (_tried self) = Some previous →
  ∃ kept,
    filter_words previous result (_search_space self) = Some kept ∧
    kept `sublist_of` _search_space self ∧
    Forall well_formed kept ∧
    ∀ secret, secret ∈ _search_space self →
              _get_pattern previous secret = Some result → secret ∈ kept.
Proof.
  intros (_ & Hspace & Htried & _) Hlast.
  assert (well_formed previous) as [Hlen Hfree].
  { rewrite Forall_forall in Htried. apply Htried.
    apply last_Some in Hlast as [tried' ->].
    apply elem_of_app. right. by left. }
  eexists. split; [|split_and!].
  - apply filter_words_run. eapply Forall_impl; [exact Hspace|].
    simpl. intros v [Hv _]. lia.
  - apply sublist_filter.
  - apply Forall_forall. intros v Hv.
    apply list_elem_of_filter in Hv as [_ Hv].
    rewrite Forall_forall in Hspace. by apply Hspace.
  - intros secret Hin Hresult. apply list_elem_of_filter. split; [|done].
    rewrite Forall_forall in Hspace. destruct (Hspace secret Hin) as [Hs _].
    rewrite _get_pattern_score in Hresult by done. injection Hresult as <-.
    apply word_is_valid_consistent; [lia|done].
Qed.

(** One call of [get_guess]. *)
Lemma get_guess_ok self typed result guess self' :
  vitto_ok self → _manual self = false →
  get_guess fl neg_inf self typed result = Some (guess, self') →
  well_formed guess ∧ vitto_ok self' ∧ _manual self' = false ∧
  _tried self' = _tried self ++ [guess] ∧
  _search_space self' `sublist_of` _search_space self ∧
  ∀ secret, secret ∈ _search_space self →
    (∀ previous, last (_tried self) = Some previous →
                 _get_pattern previous secret = Some result) →
    secret ∈ _search_space self'.
Proof.
  intros Hok Hauto. unfold get_guess. rewrite Hauto.
  destruct (_get_best_guess fl neg_inf self result) as [[g space']|] eqn:Hbest;
    [|done].
  simpl. intros [= <- <-]. simpl.
  assert (well_formed g ∧ Forall well_formed space' ∧
          space' `sublist_of` _search_space self ∧
          ∀ secret, secret ∈ _search_space self →
            (∀ previous, last (_tried self) = Some previous →
                         _get_pattern previous secret = Some result) →
            secret ∈ space') as (Hg & Hspace' & Hsub & Hsecret).
  { destruct (last (_tried self)) as [previous|] eqn:Hlast.
    - destruct (filter_words_ok self result previous Hok Hlast)
        as (kept & Hfilter & Hsub & Hkept & Hkeeps).
      assert (space' = kept) as ->
        by (by eapply (_get_best_guess_space fl neg_inf self result previous)).
      split_and!; [|done|done|].
      + by eapply (_get_best_guess_well_formed self result previous kept).
      + intros secret Hin Hhonest. apply Hkeeps; [done|by apply Hhonest].
    - unfold _get_best_guess in Hbest. rewrite Hlast in Hbest.
      injection Hbest as <- <-. destruct Hok as (_ & Hspace & _ & Hfirst).
      split_and!; [done|done|done|]. by intros secret Hin _. }
  destruct Hok as (Hwords & Hspace & Htried & Hfirst).
  split_and!; [done| |done|done|done|done].
  split_and!; simpl; [done|done| |done].
  apply Forall_app. split; [done|]. by constructor.
Qed.

(** Successive calls of [get_guess]. *)
Lemma vitto_play_ok (results : list (list ascii)) :
  ∀ self typed guesses self',
    vitto_ok self → _manual self = false →
    vitto_play fl neg_inf self typed results = Some (guesses, self') →
    Forall well_formed guesses ∧ length guesses = length results ∧
    vitto_ok self' ∧
    _search_space self' `sublist_of` _search_space self ∧
    ∀ secret,
      secret ∈ _search_space self →
      (∀ previous r, last (_tried self) = Some previous →
                     results !! 0%nat = Some r →
                     _get_pattern previous secret = Some r) →
      honest_feedback secret guesses results →
      secret ∈ _search_space self'.
Proof.
  induction results as [|result results IH];
    intros self typed guesses self' Hok Hauto Hplay.
  - simpl in Hplay. injection Hplay as <- <-. split_and!; done.
  - simpl in Hplay.
    destruct (get_guess fl neg_inf self typed result) as [[g self1]|] eqn:Hg;
      [|done].
    destruct (vitto_play fl neg_inf self1 typed results)
      as [[gs self2]|] eqn:Hrest; [|done].
    injection Hplay as <- <-.
    destruct (get_guess_ok self typed result g self1 Hok Hauto Hg)
      as (Hwf & Hok1 & Hauto1 & Htried1 & Hsub1 & Hkeeps).
    destruct (IH self1 typed gs self2 Hok1 Hauto1 Hrest)
      as (Hgs & Hlen & Hok2 & Hsub2 & Hkeeps2).
    split_and!; [by constructor|simpl; lia|done|by etrans|].
    intros secret Hin Hfirst Hhonest. apply Hkeeps2.
    + apply Hkeeps; [done|]. intros previous Hlast.
      by apply (Hfirst previous result).
    + intros previous r Hlast Hr. rewrite Htried1, last_snoc in Hlast.
      injection Hlast as <-. by apply (Hhonest 0%nat g r).
    + intros i g' r Hg' Hr. by apply (Hhonest (S i) g' r).
Qed.
End Game.

(** X16. A game of [vitto.py] from a fresh guesser whose words (the word
    list, the search space, the first guess) have five characters and no
    feedback sign. Whatever the feedbacks are, every guess returned has
    five characters and no feedback sign, and the search space only
    shrinks (a run counts as returning when each call returns a word: a
    guess [None], which needs that no entropy exceeds minus infinity, is
    a failure of the model). When each feedback is the pattern of a secret word of the
    search space against the guess before it, the secret is never
    filtered out: it is in the search space after every round. *)
Theorem vitto_game_keeps_secret (fl : FloatOps) (neg_inf : float fl)
    (self self' : Vitto.Guesser) (typed secret : list ascii)
    (results guesses : list (list ascii)) :
  vitto_ok self →
  Vitto._manual self = false →
  Vitto._tried self = [] →
  vitto_play fl neg_inf self typed results = Some (guesses, self') →
  Forall well_formed guesses ∧
  length guesses = length results ∧
  vitto_ok self' ∧
  Vitto._search_space self' `sublist_of` Vitto._search_space self ∧
  (secret ∈ Vitto._search_space self →
   honest_feedback secret guesses results →
   secret ∈ Vitto._search_space self').
Proof.
  intros Hok Hauto Hfresh Hplay.
  destruct (vitto_play_ok fl neg_inf results self typed guesses self'
              Hok Hauto Hplay) as (Hgs & Hlen & Hok' & Hsub & Hkeeps).
  split_and!; [done..|].
  intros Hin Hhonest. apply Hkeeps; [done| |done].
  intros previous r Hlast. by rewrite Hfresh in Hlast.
Qed.

Ltac concrete_words :=
  repeat first
    [ apply Forall_nil
    | apply Forall_cons; split
    | split; [reflexivity|]
    | split; intros Hin;
        repeat (apply elem_of_cons in Hin as [Heq|Hin]; [discriminate|]);
        by apply elem_of_nil in Hin ].

Lemma vitto_game_keeps_secret_witness :
  Forall well_formed [str_of "geese"; str_of "pleat"] ∧
  length [str_of "geese"; str_of "pleat"]
  = length [@nil ascii; str_of "++e++"] ∧
  vitto_ok
    {| Vitto.word_list := [str_of "tower"; str_of "pleat"; str_of "lobby"];
       Vitto._manual := false;
       Vitto._tried := [str_of "geese"; str_of "pleat"];
       Vitto._search_space := [str_of "pleat"];
       Vitto.best_first_guess := str_of "geese";
       Vitto.printed := [str_of "geese"; str_of "pleat"] |} ∧
  [str_of "pleat"]
    `sublist_of` [str_of "tower"; str_of "pleat"; str_of "lobby"] ∧
  (str_of "pleat" ∈ [str_of "tower"; str_of "pleat"; str_of "lobby"] →
   honest_feedback (str_of "pleat") [str_of "geese"; str_of "pleat"]
     [[]; str_of "++e++"] →
   str_of "pleat" ∈ [str_of "pleat"]).
Proof.
  apply (vitto_game_keeps_secret ideal ideal_neg_inf
           {| Vitto.word_list :=
                [str_of "tower"; str_of "pleat"; str_of "lobby"];
              Vitto._manual := false;
              Vitto._tried := [];
              Vitto._search_space :=
                [str_of "tower"; str_of "pleat"; str_of "lobby"];
              Vitto.best_first_guess := str_of "geese";
              Vitto.printed := [] |}
           {| Vitto.word_list :=
                [str_of "tower"; str_of "pleat"; str_of "lobby"];
              Vitto._manual := false;
              Vitto._tried := [str_of "geese"; str_of "pleat"];
              Vitto._search_space := [str_of "pleat"];
              Vitto.best_first_guess := str_of "geese";
              Vitto.printed := [str_of "geese"; str_of "pleat"] |}
           [] (str_of "pleat") [[]; str_of "++e++"]
           [str_of "geese"; str_of "pleat"]).
  - unfold vitto_ok. simpl. split_and!; concrete_words.
  - reflexivity.
  - reflexivity.
  - vm_compute; reflexivity.
Defined.

Lemma tied_selection_in_reference_witness :
  let kept :=
    filter (λ w, Submitted.get_matches (str_of "saren") w
                 = Some (str_of "+++++"))
      (Submitted.candidates tied_guesser) in
  let ref :=
    if bool_decide (kept = [])
    then filter (λ w, w ∉ Submitted._tried tied_guesser)
           (Submitted.word_list tied_guesser)
    else kept in
  let untried := filter (λ w, w ∉ Submitted._tried tied_guesser) ref in
  let pool := if bool_decide (untried = []) then ref else untried in
  (kept = [str_of "lobby"; str_of "kitty"] ∧
   pool = [str_of "lobby"; str_of "kitty"] ∧
   Pure.entropy ideal (str_of "lobby") ref
   = Pure.entropy ideal (str_of "kitty") ref) ∧
  ∃ best kbest self' memo',
    Submitted.get_guess ideal tied_guesser [] (str_of "+++++")
      Submitted.no_memo
    = Some ((best, self'), memo') ∧
    Submitted.candidates self' = ref ∧
    first_maximal ideal (λ c, Pure.entropy ideal c ref) pool best kbest ∧
    (∀ c, c ∈ pool → c ∈ ref) ∧
    best ∈ ref.
Proof.
  split; [split_and!; vm_compute; reflexivity|].
  apply (tied_selection_in_reference ideal tied_guesser [] (str_of "+++++")
           (str_of "saren") Submitted.no_memo ideal_order eq_refl).
  - discriminate.
  - reflexivity.
  - apply memo_ok_empty.
  - repeat constructor.
  - apply (same_length_pairs 5). repeat constructor.
  - vm_compute. lia.
  - vm_compute. discriminate.
Defined.
